(** * hidet: loop expansion, CUDA primitive registration and uint64 constants

    A shallow embedding of
    - [hidet/ir/dtypes/uint64.py]            (module [UInt64]),
    - [hidet/ir/primitives/cuda/mma.py]      (module [Mma]),
    - [hidet/ir/primitives/cuda/cp_async.py] (module [CpAsync]),
    - [hidet/graph/ops/schedules/common.py]  (module [Schedules]),
    with a reference semantics of the emitted statements (module
    [Semantics]) and the copy-group protocol (module [Protocol]), followed by
    the properties established for them.

    Python exceptions are values of [Error]; a function that may raise
    returns a [Result].  Python [int] is [Z]; [str] is [string]; a [dict]
    keyed by node objects is a [gmap] keyed by the node's identity. *)

From Stdlib Require Import ZArith QArith.QArith_base Ascii String DecimalString.
From stdpp Require Import gmap strings list fin_maps.

Set Warnings "-register-all,-clear-no-such-hyp".

Local Open Scope Z_scope.
Local Open Scope string_scope.
Local Open Scope list_scope.

(** ** Exceptions and results *)

Inductive Error : Type :=
| ValueError (msg : string)
| AssertionError
| NotImplementedError (msg : string)
| KeyError (key : string)
| IndexError
| OverflowError (msg : string).

Inductive Result (A : Type) : Type :=
| Ok (a : A)
| Raise (err : Error).

Arguments Ok {A} a.
Arguments Raise {A} err.

Definition bind {A B : Type} (r : Result A) (k : A -> Result B) : Result B :=
  match r with
  | Ok a => k a
  | Raise err => Raise err
  end.

Notation "x <- r ;; k" := (bind r (fun x => k))
  (at level 100, r at next level, right associativity, only parsing).

Definition is_ok {A : Type} (r : Result A) : bool :=
  match r with Ok _ => true | Raise _ => false end.

(** ** Python string formatting of integers: [str(n)], ['{}'.format(n)]. *)

Definition str_nat (n : nat) : string := NilZero.string_of_uint (Nat.to_uint n).
Definition str_int (z : Z) : string := NilZero.string_of_int (Z.to_int z).

(** [sep.join(parts)] *)
Fixpoint join (sep : string) (parts : list string) : string :=
  match parts with
  | [] => ""
  | [p] => p
  | p :: rest => p +:+ sep +:+ join sep rest
  end.

(** [s.replace(old, new)] for a one-character [old] and [new]. *)
Fixpoint replace_char (old new : ascii) (s : string) : string :=
  match s with
  | EmptyString => EmptyString
  | String c rest =>
      String (if Ascii.eqb c old then new else c) (replace_char old new rest)
  end.

(** [Z] membership in a Python list literal, [x in [a, b, c]]. *)
Definition int_in (x : Z) (l : list Z) : bool := existsb (Z.eqb x) l.
Definition str_in (x : string) (l : list string) : bool := existsb (String.eqb x) l.

(** ** Types of the IR ([hidet.ir.type], [hidet/ir/dialects/lowlevel.py]) *)

(** [ScalarType(name)]: a scalar data type is identified by its name. *)
Record ScalarType : Type := mkScalarType { name : string }.

Inductive TypeNode : Type :=
| TScalar (dtype : ScalarType)
| TensorType (scope : string) (scalar_type : ScalarType)
| VoidType
| PointerType (base_type : TypeNode)
| ReferenceType (base_type : TypeNode)
| FuncType.

Definition int32 : ScalarType := mkScalarType "int32".
Definition uint32 : ScalarType := mkScalarType "uint32".

(** ** Expressions ([hidet.ir.expr], [hidet.ir.dialects.compute]) *)

(** [Var(hint, type)].  A variable object is identified by its hint and type. *)
Record Var : Type := mkVar { hint : string; var_type : TypeNode }.

(** A reduce operation object ([sum], [avg], [max], [min], ...) is referred
    to by name; what it computes is an interface, see [Schedules]. *)
Record ReduceOperation : Type := mkReduceOperation { reduce_name : string }.

Inductive BinaryOp : Type :=
| Add | Sub | Multiply | Div | Mod | FloorDiv
| LessThan | LessEqual | Equal | And | Or.

Inductive UnaryOp : Type := Neg | Not.

(** Node objects ([TensorNode], [ScalarNode]) are used as dictionary keys by
    identity; [uid] stands for the identity of the object. *)
Inductive Expr : Type :=
| EVar (v : Var)
| Constant (value : Z) (data_type : ScalarType)
| BinaryExpr (op : BinaryOp) (a b : Expr)
| UnaryExpr (op : UnaryOp) (a : Expr)
| TensorElement (base : Expr) (indices : list Expr)
| IfThenElse (cond then_expr else_expr : Expr)
| Call (func_var : Var) (args : list Expr)
| Cast (expr : Expr) (target_type : TypeNode)
| Dereference (expr : Expr)
| Address (expr : Expr)
| TensorNode (uid : positive) (tname : string) (data_type : TypeNode)
             (tensor_compute : option TensorCompute)
| ScalarNode (uid : positive) (sname : string) (data_type : ScalarType)
             (scalar_compute : option ScalarCompute)
with TensorCompute : Type :=
| GridCompute (shape : list Expr) (axes : list Var) (value : Expr)
| OtherTensorCompute (type_name : string)
with ScalarCompute : Type :=
| ReduceCompute (shape : list Expr) (axes : list Var) (value : Expr)
                (reduce_operation : ReduceOperation)
| ArgReduceCompute (extent : Expr) (axis : Var) (value : Expr)
                   (reduce_operation : ReduceOperation) (index_dtype : ScalarType)
| OtherScalarCompute (type_name : string).

(** [convert(n)] of a Python [int]: an [int32] constant. *)
Definition convert (n : Z) : Expr := Constant n int32.

(** ** Statements ([hidet.ir.stmt]) *)

Inductive Stmt : Type :=
| EvaluateStmt (e : Expr)
| DeclareStmt (v : Var) (init : option Expr)
| AssignStmt (v : Var) (value : Expr)
| BufferStoreStmt (buf : Var) (indices : list Expr) (value : Expr)
| ForStmt (loop_var : Var) (extent : Expr) (body : option Stmt)
| IfStmt (cond : Expr) (then_body : option Stmt) (else_body : option Stmt)
| AsmStmt (template_string : string) (outputs : list (string * Expr))
          (inputs : list (string * Expr)) (is_volatile : bool)
| SeqStmt (seq : list Stmt).

(** [hidet.ir.func.Function] *)
Record Function : Type := mkFunction {
  func_name : string;
  func_kind : string;
  params : list Var;
  local_vars : list Var;
  body : list Stmt
}.

(** ** The pool of primitive functions ([hidet.ir.primitives.func]) *)

(** Modelled from the spec: the process-wide symbol table
    ([register_primitive_function], [call_cuda]; [hidet/ir/primitives/func.py]
    and [cuda/funcs.py] are not part of the sources at hand).  Registration
    under a name already present is an error; [call_cuda] resolves
    ['cuda_' + func_name] in the table and builds the call. *)
Definition Pool : Type := list (string * Function).

Fixpoint pool_lookup (pool : Pool) (key : string) : option Function :=
  match pool with
  | [] => None
  | (k, f) :: rest => if String.eqb k key then Some f else pool_lookup rest key
  end.

Definition register_primitive_function (fname : string) (f : Function)
    (pool : Pool) : Result Pool :=
  match pool_lookup pool fname with
  | Some _ => Raise (ValueError ("Primitive function " +:+ fname +:+ " has already registered."))
  | None => Ok (pool ++ [(fname, f)])
  end.

Definition call_cuda (pool : Pool) (fname : string) (args : list Expr) : Result Expr :=
  match pool_lookup pool ("cuda_" +:+ fname) with
  | Some f => Ok (Call (mkVar (func_name f) FuncType) args)
  | None => Raise (KeyError ("cuda_" +:+ fname))
  end.

(** [for x in xs: pool = step(x, pool)] *)
Fixpoint for_each {A S : Type} (xs : list A) (step : A -> S -> Result S)
    (s : S) : Result S :=
  match xs with
  | [] => Ok s
  | x :: rest => s' <- step x s ;; for_each rest step s'
  end.

(** ** [hidet/ir/dtypes/uint64.py] *)

Module UInt64.

(** The argument of [constant] is typed [Any]; the integer and the
    floating-point arguments are modelled: a finite float by the rational it
    denotes, then the two infinities and not-a-number. *)
Inductive PyValue : Type :=
| PyInt (v : Z)
| PyFloat (q : Q)
| PyInfinity (negative : bool)
| PyNaN.

Definition uint64 : ScalarType := mkScalarType "uint64".

Definition short_name : string := "u64".
Definition nbytes : Z := 8.
Definition is_float : bool := false.
Definition is_integer : bool := true.
Definition is_vector : bool := false.

(** [int(value)]: the identity on [int], truncation towards zero on a
    finite [float]; an infinity raises [OverflowError] and not-a-number
    raises [ValueError]. *)
Definition int (value : PyValue) : Result Z :=
  match value with
  | PyInt v => Ok v
  | PyFloat q => Ok (Z.quot (Qnum q) (Z.pos (Qden q)))
  | PyInfinity _ => Raise (OverflowError "cannot convert float infinity to integer")
  | PyNaN => Raise (ValueError "cannot convert float NaN to integer")
  end.

Definition isinstance_float (value : PyValue) : bool :=
  match value with PyInt _ => false | _ => true end.

(** [constant] returns the warnings it issued and its result. *)
Definition constant (value : PyValue) : list string * Result Expr :=
  let warned :=
    if isinstance_float value
    then ["Converting float to int when creating " +:+ name uint64 +:+ " constant."]
    else [] in
  match int value with
  | Raise err => (warned, Raise err)
  | Ok value =>
      if negb ((0 <=? value)%Z && (value <=? 18446744073709551615)%Z)
      then (warned, Raise (ValueError ("Value " +:+ str_int value +:+ " is out of range for "
                                         +:+ name uint64 +:+ ".")))
      else (warned, Ok (Constant value uint64))
  end.

Definition one : list string * Result Expr := constant (PyInt 1).
Definition zero : list string * Result Expr := constant (PyInt 0).
Definition min_value : list string * Result Expr := constant (PyInt 0).
Definition max_value : list string * Result Expr := constant (PyInt 18446744073709551615).

End UInt64.

(** [range(lo, hi)] *)
Definition range (lo hi : Z) : list Z :=
  map (fun i => lo + Z.of_nat i) (seq 0 (Z.to_nat (hi - lo))).

(** ** [hidet/ir/primitives/cuda/mma.py] *)

Module Mma.

(** [hidet.ir.mapping]: task mappings are carried as descriptions;
    [compose a b] is the product [a * b]. *)
Inductive TaskMapping : Type :=
| row_spatial (rows cols : nat)
| col_spatial (rows cols : nat)
| row_repeat (rows cols : nat)
| col_repeat (rows cols : nat)
| compose (outer inner : TaskMapping).

(** Modelled from the spec: [ScalarType(short_dtype).nbytes()]
    ([hidet/ir/type.py] is not part of the sources at hand).  The table
    holds the scalar types the sources at hand name: those of the
    configurations ([f16], [bf16], [tf32], [f32]), those built in
    [hidet/lang/__init__.py] ([int32], [uint32], [int64], [float32],
    [float16]) and [uint64] ([u64], 8 bytes by [uint64.py]); the width of
    each is the bit count in its name.  What is proved of [num_regs] and
    [MmaConfig] below takes the width as a parameter and holds for a table
    with further entries. *)
Definition scalar_type_widths : list (string * Z) :=
  [("f16", 2); ("bf16", 2); ("tf32", 4); ("f32", 4);
   ("float16", 2); ("float32", 4); ("int32", 4); ("uint32", 4);
   ("int64", 8); ("uint64", 8); ("u64", 8)].

Fixpoint width_of (table : list (string * Z)) (dtype_name : string) : option Z :=
  match table with
  | [] => None
  | (known, width) :: rest =>
      if String.eqb dtype_name known then Some width else width_of rest dtype_name
  end.

Definition ScalarType_nbytes (short_dtype : string) : Result Z :=
  match width_of scalar_type_widths short_dtype with
  | Some width => Ok width
  | None => Raise (ValueError ("Unknown scalar type " +:+ short_dtype))
  end.

Definition num_regs (short_dtype : string) (num_elements : Z) : Result Z :=
  nb <- ScalarType_nbytes short_dtype ;;
  let num_bytes := nb * num_elements in
  if negb (num_bytes mod (4 * 32) =? 0)%Z then Raise AssertionError
  else Ok (num_bytes / (4 * 32)).

Record MmaConfig : Type := mkMmaConfig {
  m : Z;
  n : Z;
  k : Z;
  input_dtype : string;
  output_dtype : string;
  a_load_map : TaskMapping;
  b_load_map : TaskMapping;
  c_store_map : TaskMapping;
  a_elements : Z;
  b_elements : Z;
  c_elements : Z;
  a_regs : Z;
  b_regs : Z;
  c_regs : Z
}.

(** [MmaConfig.__init__] *)
Definition MmaConfig_init (m n k : Z) (input_dtype output_dtype : string)
    (a_load_map b_load_map c_store_map : TaskMapping) : Result MmaConfig :=
  a_regs <- num_regs input_dtype (m * k) ;;
  b_regs <- num_regs input_dtype (k * n) ;;
  c_regs <- num_regs output_dtype (m * n) ;;
  Ok (mkMmaConfig m n k input_dtype output_dtype a_load_map b_load_map c_store_map
        (m * k / 32) (k * n / 32) (m * n / 32) a_regs b_regs c_regs).

Definition inst_name (self : MmaConfig) : string :=
  "mma.sync.aligned.m" +:+ str_int (m self) +:+ "n" +:+ str_int (n self)
    +:+ "k" +:+ str_int (k self) +:+ ".row.col."
    +:+ output_dtype self +:+ "." +:+ input_dtype self +:+ "."
    +:+ input_dtype self +:+ "." +:+ output_dtype self.

(** [mma_configs]: a dictionary in insertion order; [dict_update] is
    [d[key] = value]. *)
Fixpoint dict_update {V : Type} (d : list (string * V)) (key : string) (v : V)
    : list (string * V) :=
  match d with
  | [] => [(key, v)]
  | (k', v') :: rest =>
      if String.eqb k' key then (k', v) :: rest else (k', v') :: dict_update rest key v
  end.

Definition register_mma_configs : Result (list (string * MmaConfig)) :=
  (* f16 *)
  d <- for_each ["f16"; "f32"] (fun output_dtype d =>
         c1 <- MmaConfig_init 16 8 8 "f16" output_dtype
                 (compose (compose (row_repeat 2 1) (row_spatial 8 4)) (row_repeat 1 2))
                 (compose (col_spatial 4 8) (col_repeat 2 1))
                 (compose (compose (row_repeat 2 1) (row_spatial 8 4)) (row_repeat 1 2)) ;;
         c2 <- MmaConfig_init 16 8 16 "f16" output_dtype
                 (compose (compose (col_repeat 2 2) (row_spatial 8 4)) (row_repeat 1 2))
                 (compose (compose (col_repeat 2 1) (col_spatial 4 8)) (col_repeat 2 1))
                 (compose (compose (row_repeat 2 1) (row_spatial 8 4)) (row_repeat 1 2)) ;;
         Ok (dict_update (dict_update d ("m16n8k8_f16_" +:+ output_dtype) c1)
               ("m16n8k16_f16_" +:+ output_dtype) c2)) [] ;;
  (* bf16 *)
  c3 <- MmaConfig_init 16 8 8 "bf16" "f32"
          (compose (compose (row_repeat 2 1) (row_spatial 8 4)) (row_repeat 1 2))
          (compose (col_spatial 4 8) (col_repeat 2 1))
          (compose (compose (row_repeat 2 1) (row_spatial 8 4)) (row_repeat 1 2)) ;;
  c4 <- MmaConfig_init 16 8 16 "bf16" "f32"
          (compose (compose (col_repeat 2 2) (row_spatial 8 4)) (row_repeat 1 2))
          (compose (compose (col_repeat 2 1) (col_spatial 4 8)) (col_repeat 2 1))
          (compose (compose (row_repeat 2 1) (row_spatial 8 4)) (row_repeat 1 2)) ;;
  let d := dict_update (dict_update d "m16n8k8_bf16_f32" c3) "m16n8k16_bf16_f32" c4 in
  (* tf32 *)
  c5 <- MmaConfig_init 16 8 4 "tf32" "f32"
          (compose (row_repeat 2 1) (row_spatial 8 4))
          (col_spatial 4 8)
          (compose (compose (row_repeat 2 1) (row_spatial 8 4)) (row_repeat 1 2)) ;;
  c6 <- MmaConfig_init 16 8 8 "tf32" "f32"
          (compose (col_repeat 2 2) (row_spatial 8 4))
          (compose (col_repeat 2 1) (col_spatial 4 8))
          (compose (compose (row_repeat 2 1) (row_spatial 8 4)) (row_repeat 1 2)) ;;
  Ok (dict_update (dict_update d "m16n8k4_tf32_f32" c5) "m16n8k8_tf32_f32" c6).

(** [', '.join([f'%{i}' for i in range(lo, hi)])] inside braces, followed by
    the terminator: ['{{{}}},'.format(...)] and ['{{{}}};'.format(...)]. *)
Definition placeholder (i : Z) : string := "%" +:+ str_int i.

Definition reg_group (lo hi : Z) (terminator : string) : string :=
  "{" +:+ join ", " (map placeholder (range lo hi)) +:+ "}" +:+ terminator.

Definition template_sub_strings (config : MmaConfig) : list string :=
  let '(a_regs, b_regs, c_regs) := (a_regs config, b_regs config, c_regs config) in
  [ inst_name config;
    reg_group 0 c_regs ",";
    reg_group c_regs (c_regs + a_regs) ",";
    reg_group (c_regs + a_regs) (c_regs + a_regs + b_regs) ",";
    reg_group 0 c_regs ";" ].

Definition template_string (config : MmaConfig) : string :=
  join " " (template_sub_strings config).

(** [v[i]] *)
Definition getitem (v : Var) (i : Z) : Expr := TensorElement (EVar v) [convert i].

Definition ra : Var := mkVar "ra" (PointerType (TScalar uint32)).
Definition rb : Var := mkVar "rb" (PointerType (TScalar uint32)).
Definition rc : Var := mkVar "rc" (PointerType (TScalar uint32)).

Definition asm_outputs (config : MmaConfig) : list (string * Expr) :=
  map (fun i => ("+r", getitem rc i)) (range 0 (c_regs config)).

Definition asm_inputs (config : MmaConfig) : list (string * Expr) :=
  map (fun i => ("r", getitem ra i)) (range 0 (a_regs config))
  ++ map (fun i => ("r", getitem rb i)) (range 0 (b_regs config)).

(** The body of the loop of [register_mma_instructions]: the function built
    for one configuration. *)
Definition mma_function (config : MmaConfig) : Function :=
  let inst_name := inst_name config in
  let func_name := "cuda_" +:+ replace_char "."%char "_"%char inst_name in
  let a := mkVar "a" (PointerType (TScalar (mkScalarType (input_dtype config)))) in
  let b := mkVar "b" (PointerType (TScalar (mkScalarType (input_dtype config)))) in
  let c := mkVar "c" (PointerType (TScalar (mkScalarType (output_dtype config)))) in
  mkFunction func_name "cuda_device" [a; b; c] [ra; rb; rc]
    [ AssignStmt ra (Cast (EVar a) (var_type ra));
      AssignStmt rb (Cast (EVar b) (var_type rb));
      AssignStmt rc (Cast (EVar c) (var_type rc));
      AsmStmt (template_string config) (asm_outputs config) (asm_inputs config) false ].

Definition register_mma_instructions (mma_configs : list (string * MmaConfig))
    (pool : Pool) : Result Pool :=
  for_each (map snd mma_configs)
    (fun config pool =>
       let f := mma_function config in
       register_primitive_function (func_name f) f pool) pool.

Definition resolve_ldmatrix_func_name (num : Z) (shared_space_addr trans : bool)
    : Result string :=
  if negb (int_in num [1; 2; 4])
  then Raise (ValueError "Only support loading 1, 2, or 4 matrices using ldmatrix instruction.")
  else Ok ("ldmatrix_x" +:+ str_int num
             +:+ (if shared_space_addr then "_shared" else "")
             +:+ (if trans then "_trans" else "")).

(** The script function of [register_ldmatrix_instructions] for one
    combination: [num] output registers and one address operand. *)
Definition ldmatrix_function (num : Z) (trans shared_space_addr : bool)
    : Result Function :=
  fname <- resolve_ldmatrix_func_name num shared_space_addr trans ;;
  let func_name := "cuda_" +:+ fname in
  let inst_name := "ldmatrix.sync.aligned.m8n8" +:+ (".x" +:+ str_int num)
                     +:+ (if trans then ".trans" else "")
                     +:+ (if shared_space_addr then ".shared" else "") +:+ ".b16" in
  let smem_type := if shared_space_addr then TScalar uint32 else PointerType VoidType in
  let reg (i : Z) := mkVar ("reg" +:+ str_int i) (ReferenceType (TScalar uint32)) in
  let smem := mkVar "smem" smem_type in
  let regs := map reg (range 0 num) in
  let template :=
    inst_name +:+ " {" +:+ join ", " (map placeholder (range 0 num))
      +:+ "}, [" +:+ placeholder num +:+ "];" in
  if int_in num [1; 2; 4]
  then Ok (mkFunction func_name "cuda_device" (regs ++ [smem]) []
             [AsmStmt template (map (fun r => ("=r", EVar r)) regs) [("r", EVar smem)] false])
  else Raise (ValueError "").

Definition register_ldmatrix_instructions (pool : Pool) : Result Pool :=
  for_each [1; 2; 4] (fun num pool =>
    for_each [false; true] (fun trans pool =>
      for_each [false; true] (fun shared_space_addr pool =>
        f <- ldmatrix_function num trans shared_space_addr ;;
        register_primitive_function (func_name f) f pool) pool) pool) pool.

Definition mma_sync (pool : Pool) (config : MmaConfig) (a_addr b_addr c_addr : Expr)
    : Result Expr :=
  let name := replace_char "."%char "_"%char (inst_name config) in
  call_cuda pool name [a_addr; b_addr; c_addr].

Definition ldmatrix (pool : Pool) (regs : list Expr) (smem_addr : Expr)
    (shared_space_addr trans : bool) : Result Expr :=
  let num := Z.of_nat (length regs) in
  func_name <- resolve_ldmatrix_func_name num shared_space_addr trans ;;
  call_cuda pool func_name (regs ++ [smem_addr]).

(** [mma_configs[key]] and the static accessors of [MmaConfig]. *)
Fixpoint config_getitem (mma_configs : list (string * MmaConfig)) (key : string)
    : Result MmaConfig :=
  match mma_configs with
  | [] => Raise (KeyError key)
  | (k', config) :: rest =>
      if String.eqb k' key then Ok config else config_getitem rest key
  end.

Definition m16n8k8_f16_f16 (mma_configs : list (string * MmaConfig)) : Result MmaConfig :=
  config_getitem mma_configs "m16n8k8_f16_f16".
Definition m16n8k8_f16_f32 (mma_configs : list (string * MmaConfig)) : Result MmaConfig :=
  config_getitem mma_configs "m16n8k8_f16_f32".
Definition m16n8k16_f16_f16 (mma_configs : list (string * MmaConfig)) : Result MmaConfig :=
  config_getitem mma_configs "m16n8k16_f16_f16".
Definition m16n8k16_f16_f32 (mma_configs : list (string * MmaConfig)) : Result MmaConfig :=
  config_getitem mma_configs "m16n8k16_f16_f32".
Definition m16n8k8_bf16_f32 (mma_configs : list (string * MmaConfig)) : Result MmaConfig :=
  config_getitem mma_configs "m16n8k8_bf16_f32".
Definition m16n8k16_bf16_f32 (mma_configs : list (string * MmaConfig)) : Result MmaConfig :=
  config_getitem mma_configs "m16n8k16_bf16_f32".
Definition m16n8k4_tf32_f32 (mma_configs : list (string * MmaConfig)) : Result MmaConfig :=
  config_getitem mma_configs "m16n8k4_tf32_f32".
Definition m16n8k8_tf32_f32 (mma_configs : list (string * MmaConfig)) : Result MmaConfig :=
  config_getitem mma_configs "m16n8k8_tf32_f32".

(** [MmaConfig.all()] *)
Definition all (mma_configs : list (string * MmaConfig)) : list MmaConfig :=
  map snd mma_configs.

End Mma.

(** ** [hidet/ir/primitives/cuda/cp_async.py] *)

Module CpAsync.

Definition resolve_name_cp_async (cp_size : Z) (cache_level : string)
    (prefetch_bytes : Z) : Result string :=
  let prefetch_part :=
    if negb (prefetch_bytes =? 0)%Z then "_l2_" +:+ str_int prefetch_bytes +:+ "B" else "" in
  match cache_level with
  | EmptyString => Raise IndexError
  | String c0 _ =>
      let cache_part := "c" +:+ String c0 EmptyString in   (* 'ca' or 'cg' *)
      Ok ("cp_async_size_" +:+ str_int cp_size +:+ "_" +:+ cache_part +:+ prefetch_part)
  end.

(** [{'always': 'ca', 'global': 'cg'}[cache_level]] *)
Definition cache_level_code (cache_level : string) : Result string :=
  if String.eqb cache_level "always" then Ok "ca"
  else if String.eqb cache_level "global" then Ok "cg"
  else Raise (KeyError cache_level).

Definition void_pointer : TypeNode := PointerType VoidType.

(** The script function [cuda_cp_async] for one combination of parameters. *)
Definition cuda_cp_async (cp_size prefetch_bytes : Z) (cache_level : string)
    : Result Function :=
  rname <- resolve_name_cp_async cp_size cache_level prefetch_bytes ;;
  let func_name := "cuda_" +:+ rname in
  code <- cache_level_code cache_level ;;
  let template_string :=
    "cp.async." +:+ code +:+ ".shared.global"
      +:+ (if negb (prefetch_bytes =? 0)%Z then ".L2::" +:+ str_int prefetch_bytes +:+ "B" else "")
      +:+ " [%0], [%1], %2, %3;" in
  let dst := mkVar "dst" void_pointer in
  let src := mkVar "src" void_pointer in
  let src_size := mkVar "src_size" (TScalar int32) in
  let dst_smem_ptr := mkVar "dst_smem_ptr" (TScalar uint32) in
  Ok (mkFunction func_name "cuda_device" [dst; src; src_size] []
        [ DeclareStmt dst_smem_ptr
            (Some (Call (mkVar "cuda_cvta_generic_to_shared" FuncType) [EVar dst]));
          AsmStmt template_string []
            [("r", EVar dst_smem_ptr); ("l", EVar src); ("n", convert cp_size);
             ("r", EVar src_size)] false ]).

Definition register_cp_async (pool : Pool) : Result Pool :=
  for_each [4; 8; 16] (fun cp_size pool =>
    for_each [0; 64; 128; 256] (fun prefetch_bytes pool =>
      for_each ["always"; "global"] (fun cache_level pool =>
        if String.eqb cache_level "global" && negb (cp_size =? 16)%Z
        then (* cache level 'global' only support copy size of 16 bytes. *)
          Ok pool
        else
          f <- cuda_cp_async cp_size prefetch_bytes cache_level ;;
          register_primitive_function (func_name f) f pool) pool) pool) pool.

(** A script function whose body is a single [asm(template)]. *)
Definition asm_only_function (fname template : string) : Function :=
  mkFunction fname "cuda_device" [] [] [AsmStmt template [] [] false].

Definition cuda_cp_async_commit_group : Function :=
  asm_only_function "cuda_cp_async_commit_group" "cp.async.commit_group;".

Definition register_cp_async_commit_group (pool : Pool) : Result Pool :=
  register_primitive_function (func_name cuda_cp_async_commit_group)
    cuda_cp_async_commit_group pool.

Definition cuda_cp_async_wait_group (groups : Z) : Function :=
  let func_name := "cuda_cp_async_wait_group_" +:+ str_int groups in
  asm_only_function func_name ("cp.async.commit_group " +:+ str_int groups +:+ ";").

Definition register_cp_async_wait_group (pool : Pool) : Result Pool :=
  for_each (range 0 10) (fun groups pool =>
    let f := cuda_cp_async_wait_group groups in
    register_primitive_function (func_name f) f pool) pool.

Definition cuda_cp_async_wait_all : Function :=
  asm_only_function "cuda_cp_async_wait_all" "cp.async.wait_all;".

Definition register_cp_async_wait_all (pool : Pool) : Result Pool :=
  register_primitive_function (func_name cuda_cp_async_wait_all)
    cuda_cp_async_wait_all pool.

(** The pool after the initializers of the module have run, in the order of
    their definition. *)
Definition initialize : Result Pool :=
  pool <- register_cp_async [] ;;
  pool <- register_cp_async_commit_group pool ;;
  pool <- register_cp_async_wait_group pool ;;
  register_cp_async_wait_all pool.

Definition cp_async (pool : Pool) (dst src : Expr) (cp_size : Z)
    (src_size : option Expr) (cache_level : string) (prefetch_bytes : Z)
    : Result Expr :=
  if negb (int_in cp_size [4; 8; 16])
  then Raise (ValueError ("cp_size must be either 4, 8, or 16, got " +:+ str_int cp_size +:+ "."))
  else if negb (int_in prefetch_bytes [0; 64; 128; 256])
  then Raise (ValueError ("prefetch_bytes must be either None, 64, 128 or 256, got "
                            +:+ str_int prefetch_bytes +:+ "."))
  else if negb (str_in cache_level ["global"; "always"])
  then Raise (ValueError ("Cache level candidates: ['always', 'global'], got " +:+ cache_level))
  else if String.eqb cache_level "global" && negb (cp_size =? 16)%Z
  then Raise (ValueError "When cache_level is global, the cp_size must be 16.")
  else
    let src_size := match src_size with None => convert cp_size | Some s => s end in
    func_name <- resolve_name_cp_async cp_size cache_level prefetch_bytes ;;
    call_cuda pool func_name [dst; src; src_size].

Definition cp_async_commit_group (pool : Pool) : Result Expr :=
  call_cuda pool "cp_async_commit_group" [].

Definition cp_async_wait_group (pool : Pool) (n : Z) : Result Expr :=
  if negb ((0 <=? n)%Z && (n <? 10)%Z)
  then Raise (ValueError "n out of bound")
  else call_cuda pool ("cp_async_wait_group_" +:+ str_int n) [].

Definition cp_async_wait_all (pool : Pool) : Result Expr :=
  call_cuda pool "cp_async_wait_all" [].

End CpAsync.

(** The pool of primitive functions once both modules are initialized. *)
Definition primitive_pool : Result Pool :=
  pool <- CpAsync.initialize ;;
  mma_configs <- Mma.register_mma_configs ;;
  pool <- Mma.register_mma_instructions mma_configs pool ;;
  Mma.register_ldmatrix_instructions pool.

(** ** [hidet/graph/ops/schedules/common.py] *)

Module Schedules.

(** Keys of [input_map] and [new_buffer_map]: the identity of a
    [TensorNode] ([inl uid]) or of a [ScalarNode] ([inr uid]). *)
Abbreviation NodeKey := (positive + positive)%type.

(** The interface of a reduce operation, as [LoopExpander] uses it. *)
Inductive DTypeRef : Type :=
| ByName (dtype_name : string)
| ByType (dtype : ScalarType).

Class ReduceInterface : Type := {
  initial_value : ReduceOperation -> DTypeRef -> Expr;
  combine : ReduceOperation -> Expr -> Expr -> Expr;
  arg_combine : ReduceOperation -> Expr -> Expr -> Expr;
  finalize : ReduceOperation -> Expr -> Expr -> Expr
}.

(** Modelled from the spec: [hidet.utils.prod], the product of the
    reduction-dimension sizes ([1] for no dimension). *)
Definition prod (shape : list Expr) : Expr :=
  match shape with
  | [] => convert 1
  | c :: rest => fold_left (BinaryExpr Multiply) rest c
  end.

(** [scalar_var(hint, dtype)] *)
Definition scalar_var (hint : string) (dtype : ScalarType) : Var :=
  mkVar hint (TScalar dtype).

(** *** [StmtBuilder]

    Modelled from the spec: [hidet.ir.builders.StmtBuilder] is not part of
    the sources at hand.  It keeps a stack of open scopes, each the list of
    statements emitted in it so far; [enter_body] appends a statement with an
    empty body and opens its scope, [exit_body] closes the innermost scope
    and makes it the body of that statement, [finish] returns the outermost
    scope.  The head of [scope_stack] is the innermost scope
    ([scope_stack[-1]]); each scope lists its statements in program order. *)
Definition ScopeStack : Type := list (list Stmt).

Fixpoint pop_last {A : Type} (l : list A) : option (list A * A) :=
  match l with
  | [] => None
  | [x] => Some ([], x)
  | x :: rest =>
      match pop_last rest with
      | Some (init, y) => Some (x :: init, y)
      | None => None
      end
  end.

Definition sb_append (stmt : Stmt) (scope_stack : ScopeStack) : Result ScopeStack :=
  match scope_stack with
  | [] => Raise IndexError
  | top :: rest => Ok ((top ++ [stmt]) :: rest)
  end.

Definition sb_enter_body (stmt : Stmt) (scope_stack : ScopeStack) : Result ScopeStack :=
  match stmt with
  | ForStmt _ _ _ | IfStmt _ _ _ =>
      scope_stack <- sb_append stmt scope_stack ;;
      Ok ([] :: scope_stack)
  | _ => Raise AssertionError
  end.

Definition sb_exit_body (scope_stack : ScopeStack) : Result ScopeStack :=
  match scope_stack with
  | [] => Raise IndexError
  | [_] => Raise AssertionError
  | scope :: parent :: rest =>
      let body := SeqStmt scope in
      match pop_last parent with
      | None => Raise IndexError
      | Some (init, ForStmt loop_var extent None) =>
          Ok ((init ++ [ForStmt loop_var extent (Some body)]) :: rest)
      | Some (init, IfStmt cond None else_body) =>
          Ok ((init ++ [IfStmt cond (Some body) else_body]) :: rest)
      | Some (init, IfStmt cond (Some then_body) None) =>
          Ok ((init ++ [IfStmt cond (Some then_body) (Some body)]) :: rest)
      | Some _ => Raise AssertionError
      end
  end.

Definition sb_finish (scope_stack : ScopeStack) : Result Stmt :=
  match scope_stack with
  | [scope] => Ok (SeqStmt scope)
  | _ => Raise AssertionError
  end.

(** *** [LoopExpander] *)

(** The mutable part of a [LoopExpander]: its statement builder and the
    buffers it has allocated.  [input_map] is never written. *)
Record LoopExpander : Type := mkLoopExpander {
  sb : ScopeStack;
  new_buffer_map : gmap NodeKey Var
}.

(** A method of the expander: it reads and updates the expander, and returns
    or raises. *)
Definition M (A : Type) : Type := LoopExpander -> Result (A * LoopExpander).

Definition ret {A : Type} (a : A) : M A := fun self => Ok (a, self).

Definition raise {A : Type} (err : Error) : M A := fun _ => Raise err.

Definition bindM {A B : Type} (m : M A) (k : A -> M B) : M B :=
  fun self =>
    match m self with
    | Ok (a, self') => k a self'
    | Raise err => Raise err
    end.

Notation "x <~ m ;; k" := (bindM m (fun x => k))
  (at level 100, m at next level, right associativity, only parsing).
Notation "m ;;; k" := (bindM m (fun _ => k))
  (at level 100, right associativity, only parsing).

(** Lift a builder operation to the expander: [self.sb.op(...)]. *)
Definition with_sb (op : ScopeStack -> Result ScopeStack) : M unit :=
  fun self =>
    match op (sb self) with
    | Ok stack => Ok (tt, mkLoopExpander stack (new_buffer_map self))
    | Raise err => Raise err
    end.

(** [self.new_buffer_map[key] = v] *)
Definition set_new_buffer (key : NodeKey) (v : Var) : M unit :=
  fun self => Ok (tt, mkLoopExpander (sb self) (<[key := v]> (new_buffer_map self))).

(** [for x in xs: body(x)] and [[f(x) for x in xs]] *)
Definition forM {A : Type} (body : A -> M unit) : list A -> M unit :=
  fix go (xs : list A) : M unit :=
    match xs with
    | [] => ret tt
    | x :: rest => body x ;;; go rest
    end.

Definition mapM {A B : Type} (f : A -> M B) : list A -> M (list B) :=
  fix go (xs : list A) : M (list B) :=
    match xs with
    | [] => ret []
    | x :: rest => y <~ f x ;; ys <~ go rest ;; ret (y :: ys)
    end.

(** [for i in range(len(shape)): self.sb.enter_body(ForStmt(axes[i], shape[i]))] *)
Definition enter_loops (shape : list Expr) (axes : list Var) : M unit :=
  forM (fun i : nat =>
          match axes !! i, shape !! i with
          | Some axis, Some extent => with_sb (sb_enter_body (ForStmt axis extent None))
          | _, _ => raise IndexError
          end) (seq 0 (length shape)).

(** [for i in range(len(shape)): self.sb.exit_body()] *)
Definition exit_loops (shape : list Expr) : M unit :=
  forM (fun _ : nat => with_sb sb_exit_body) (seq 0 (length shape)).

Section Expander.

Context `{ReduceInterface}.
(** [hidet.ir.functors.infer_type], on scalar value expressions. *)
Variable infer_type : Expr -> ScalarType.
Variable input_map : gmap NodeKey Var.

Definition visit_TensorNode (visit : Expr -> M Expr) (uid : positive)
    (e_name : string) (data_type : TypeNode) (tensor_compute : option TensorCompute)
    : M Expr :=
  let e : NodeKey := inl uid in
  match tensor_compute with
  | None =>
      (* input tensor *)
      match input_map !! e with
      | Some v => ret (EVar v)
      | None => raise (KeyError e_name)
      end
  | Some (GridCompute shape axes value) =>
      (* declare output buffer when needed *)
      buf <~ match input_map !! e with
             | Some buf => ret buf
             | None =>
                 let buf := mkVar e_name data_type in
                 set_new_buffer e buf ;;; ret buf
             end ;;
      (* tensor compute loops *)
      enter_loops shape axes ;;;
      (* at the innermost loop body *)
      expr <~ visit value ;;
      with_sb (sb_append (BufferStoreStmt buf (map EVar axes) expr)) ;;;
      (* exit loop scope *)
      exit_loops shape ;;;
      ret (EVar buf)
  | Some (OtherTensorCompute type_name) =>
      raise (NotImplementedError ("Compute pattern " +:+ type_name))
  end.

Definition visit_ScalarNode (visit : Expr -> M Expr) (uid : positive)
    (e_name : string) (data_type : ScalarType) (scalar_compute : option ScalarCompute)
    : M Expr :=
  let e : NodeKey := inr uid in
  match scalar_compute with
  | None =>
      (* input scalar *)
      match input_map !! e with
      | Some v => ret (EVar v)
      | None => raise (KeyError e_name)
      end
  | Some (ReduceCompute shape axes value reduce_operation) =>
      (* declare accumulator *)
      let acc := scalar_var e_name (infer_type value) in
      set_new_buffer e acc ;;;
      (* init accumulator *)
      with_sb (sb_append
                 (AssignStmt acc (initial_value reduce_operation
                                    (ByName (name data_type))))) ;;;
      (* reduction loops *)
      enter_loops shape axes ;;;
      (* at the innermost loop body *)
      expr <~ visit value ;;
      with_sb (sb_append (AssignStmt acc (combine reduce_operation (EVar acc) expr))) ;;;
      (* exit loop scope *)
      exit_loops shape ;;;
      (* finalize *)
      let acc' := finalize reduce_operation (EVar acc) (prod shape) in
      (* if e is in the input buffer, we should write it back *)
      match input_map !! e with
      | Some input_var => with_sb (sb_append (AssignStmt input_var acc'))
      | None => ret tt
      end ;;;
      ret acc'
  | Some (ArgReduceCompute extent axis value reduce_operation index_dtype) =>
      let value_dtype := infer_type value in
      (* declare index accumulator *)
      let acc_index := scalar_var (e_name +:+ "_idx") index_dtype in
      let acc_value := scalar_var (e_name +:+ "_val") value_dtype in
      set_new_buffer e acc_index ;;;
      (* init accumulator *)
      with_sb (sb_append
                 (DeclareStmt acc_value
                    (Some (initial_value reduce_operation (ByType value_dtype))))) ;;;
      with_sb (sb_append (AssignStmt acc_index (convert 0))) ;;;
      (* reduction loops *)
      with_sb (sb_enter_body (ForStmt axis extent None)) ;;;
      (* compare and update index *)
      expr <~ visit value ;;
      with_sb (sb_enter_body
                 (IfStmt (arg_combine reduce_operation expr (EVar acc_value)) None None)) ;;;
      with_sb (sb_append (AssignStmt acc_value expr)) ;;;
      with_sb (sb_append (AssignStmt acc_index (EVar axis))) ;;;
      with_sb sb_exit_body ;;;
      (* exit loop *)
      with_sb sb_exit_body ;;;
      (* if e is in the input buffer, we should write it back *)
      match input_map !! e with
      | Some input_var => with_sb (sb_append (AssignStmt input_var (EVar acc_index)))
      | None => ret tt
      end ;;;
      ret (EVar acc_index)
  | Some (OtherScalarCompute type_name) =>
      raise (NotImplementedError ("Compute pattern " +:+ type_name))
  end.

(** Modelled from the spec: the dispatch of [ExprRewriter.visit]
    ([hidet.ir.functors] is not part of the sources at hand): an expression
    that is not a compute node is rewritten by visiting its immediate
    children from left to right and rebuilding the node; no result is cached
    across occurrences.  Compute nodes go to the two methods above. *)
Fixpoint visit (e : Expr) : M Expr :=
  match e with
  | EVar _ => ret e
  | Constant _ _ => ret e
  | BinaryExpr op a b => a' <~ visit a ;; b' <~ visit b ;; ret (BinaryExpr op a' b')
  | UnaryExpr op a => a' <~ visit a ;; ret (UnaryExpr op a')
  | TensorElement base indices =>
      base' <~ visit base ;; indices' <~ mapM visit indices ;;
      ret (TensorElement base' indices')
  | IfThenElse cond then_expr else_expr =>
      cond' <~ visit cond ;; then' <~ visit then_expr ;; else' <~ visit else_expr ;;
      ret (IfThenElse cond' then' else')
  | Call func_var args => args' <~ mapM visit args ;; ret (Call func_var args')
  | Cast expr target_type => expr' <~ visit expr ;; ret (Cast expr' target_type)
  | Dereference expr => expr' <~ visit expr ;; ret (Dereference expr')
  | Address expr => expr' <~ visit expr ;; ret (Address expr')
  | TensorNode uid name data_type tensor_compute =>
      visit_TensorNode visit uid name data_type tensor_compute
  | ScalarNode uid name data_type scalar_compute =>
      visit_ScalarNode visit uid name data_type scalar_compute
  end.

(** [LoopExpander(input_map).expand(e)] *)
Definition expand (e : Expr) : Result (Stmt * Expr * gmap NodeKey Var) :=
  match visit e (mkLoopExpander [[]] ∅) with
  | Ok (value, self) =>
      stmt <- sb_finish (sb self) ;;
      Ok (stmt, value, new_buffer_map self)
  | Raise err => Raise err
  end.

(** [expand_loop(expr, input_map)] *)
Definition expand_loop (expr : Expr) : Result (Stmt * Expr * gmap NodeKey Var) :=
  expand expr.

(** *** The loop nest, described directly

    [loop_nest [(a0, s0); ...; (ak, sk)] body] is the statement list
    [for a0 in range(s0): ... for ak in range(sk): body]. *)
Fixpoint loop_nest (loops : list (Var * Expr)) (body : list Stmt) : list Stmt :=
  match loops with
  | [] => body
  | (axis, extent) :: rest => [ForStmt axis extent (Some (SeqStmt (loop_nest rest body)))]
  end.

(** What an expander method does, seen from outside the builder: the value it
    returns, the statements it adds to the innermost open scope, and the
    buffer map it leaves. *)
Definition Emit (A : Type) : Type :=
  gmap NodeKey Var -> Result (A * list Stmt * gmap NodeKey Var).

Definition lowered_each (f : Expr -> Emit Expr) : list Expr -> Emit (list Expr) :=
  fix go (xs : list Expr) : Emit (list Expr) :=
    fun nbm =>
      match xs with
      | [] => Ok ([], [], nbm)
      | x :: rest =>
          match f x nbm with
          | Ok (y, s1, nbm1) =>
              match go rest nbm1 with
              | Ok (ys, s2, nbm2) => Ok (y :: ys, s1 ++ s2, nbm2)
              | Raise err => Raise err
              end
          | Raise err => Raise err
          end
      end.

(** The statements of the write-back [if e in self.input_map: ...]. *)
Definition write_back (e : NodeKey) (result : Expr) : list Stmt :=
  match input_map !! e with
  | Some input_var => [AssignStmt input_var result]
  | None => []
  end.

(** [lowered e] describes [visit e] without the builder; [visit_lowered]
    below shows that [visit] does exactly this. *)
Fixpoint lowered (e : Expr) : Emit Expr :=
  fun nbm =>
  let unary (rebuild : Expr -> Expr) (a : Expr) :=
    match lowered a nbm with
    | Ok (a', s1, nbm1) => Ok (rebuild a', s1, nbm1)
    | Raise err => Raise err
    end in
  match e with
  | EVar _ => Ok (e, [], nbm)
  | Constant _ _ => Ok (e, [], nbm)
  | BinaryExpr op a b =>
      match lowered a nbm with
      | Ok (a', s1, nbm1) =>
          match lowered b nbm1 with
          | Ok (b', s2, nbm2) => Ok (BinaryExpr op a' b', s1 ++ s2, nbm2)
          | Raise err => Raise err
          end
      | Raise err => Raise err
      end
  | UnaryExpr op a => unary (UnaryExpr op) a
  | TensorElement base indices =>
      match lowered base nbm with
      | Ok (base', s1, nbm1) =>
          match lowered_each lowered indices nbm1 with
          | Ok (indices', s2, nbm2) => Ok (TensorElement base' indices', s1 ++ s2, nbm2)
          | Raise err => Raise err
          end
      | Raise err => Raise err
      end
  | IfThenElse cond then_expr else_expr =>
      match lowered cond nbm with
      | Ok (cond', s1, nbm1) =>
          match lowered then_expr nbm1 with
          | Ok (then', s2, nbm2) =>
              match lowered else_expr nbm2 with
              | Ok (else', s3, nbm3) => Ok (IfThenElse cond' then' else', s1 ++ s2 ++ s3, nbm3)
              | Raise err => Raise err
              end
          | Raise err => Raise err
          end
      | Raise err => Raise err
      end
  | Call func_var args =>
      match lowered_each lowered args nbm with
      | Ok (args', s1, nbm1) => Ok (Call func_var args', s1, nbm1)
      | Raise err => Raise err
      end
  | Cast expr target_type => unary (fun x => Cast x target_type) expr
  | Dereference expr => unary Dereference expr
  | Address expr => unary Address expr
  | TensorNode uid e_name data_type None =>
      match input_map !! inl uid with
      | Some v => Ok (EVar v, [], nbm)
      | None => Raise (KeyError e_name)
      end
  | TensorNode uid e_name data_type (Some (GridCompute shape axes value)) =>
      let '(buf, nbm0) :=
        match input_map !! inl uid with
        | Some buf => (buf, nbm)
        | None => (mkVar e_name data_type, <[inl uid := mkVar e_name data_type]> nbm)
        end in
      if (length axes <? length shape)%nat then Raise IndexError
      else
        match lowered value nbm0 with
        | Ok (expr, inner, nbm1) =>
            Ok (EVar buf,
                loop_nest (zip axes shape)
                  (inner ++ [BufferStoreStmt buf (map EVar axes) expr]),
                nbm1)
        | Raise err => Raise err
        end
  | TensorNode _ _ _ (Some (OtherTensorCompute type_name)) =>
      Raise (NotImplementedError ("Compute pattern " +:+ type_name))
  | ScalarNode uid e_name data_type None =>
      match input_map !! inr uid with
      | Some v => Ok (EVar v, [], nbm)
      | None => Raise (KeyError e_name)
      end
  | ScalarNode uid e_name data_type (Some (ReduceCompute shape axes value op)) =>
      let acc := scalar_var e_name (infer_type value) in
      let acc' := finalize op (EVar acc) (prod shape) in
      if (length axes <? length shape)%nat then Raise IndexError
      else
        match lowered value (<[inr uid := acc]> nbm) with
        | Ok (expr, inner, nbm1) =>
            Ok (acc',
                [AssignStmt acc (initial_value op (ByName (name data_type)))]
                ++ loop_nest (zip axes shape)
                     (inner ++ [AssignStmt acc (combine op (EVar acc) expr)])
                ++ write_back (inr uid) acc',
                nbm1)
        | Raise err => Raise err
        end
  | ScalarNode uid e_name data_type
      (Some (ArgReduceCompute extent axis value op index_dtype)) =>
      let acc_index := scalar_var (e_name +:+ "_idx") index_dtype in
      let acc_value := scalar_var (e_name +:+ "_val") (infer_type value) in
      match lowered value (<[inr uid := acc_index]> nbm) with
      | Ok (expr, inner, nbm1) =>
          Ok (EVar acc_index,
              [DeclareStmt acc_value (Some (initial_value op (ByType (infer_type value))));
               AssignStmt acc_index (convert 0);
               ForStmt axis extent
                 (Some (SeqStmt
                    (inner ++
                     [IfStmt (arg_combine op expr (EVar acc_value))
                        (Some (SeqStmt [AssignStmt acc_value expr;
                                        AssignStmt acc_index (EVar axis)]))
                        None])))]
              ++ write_back (inr uid) (EVar acc_index),
              nbm1)
      | Raise err => Raise err
      end
  | ScalarNode _ _ _ (Some (OtherScalarCompute type_name)) =>
      Raise (NotImplementedError ("Compute pattern " +:+ type_name))
  end.

(** *** What a lowering call encounters

    The nodes [visit] reaches: the children of ordinary expressions and the
    value expression of a compute node (shapes and extents are copied, not
    visited). *)

(** Some reached compute node has a variant outside Grid, Reduce and
    ArgReduce. *)
Fixpoint has_unsupported (e : Expr) : bool :=
  match e with
  | EVar _ | Constant _ _ => false
  | BinaryExpr _ a b => has_unsupported a || has_unsupported b
  | UnaryExpr _ a | Cast a _ | Dereference a | Address a => has_unsupported a
  | TensorElement base indices => has_unsupported base || existsb has_unsupported indices
  | IfThenElse c t f => has_unsupported c || has_unsupported t || has_unsupported f
  | Call _ args => existsb has_unsupported args
  | TensorNode _ _ _ None => false
  | TensorNode _ _ _ (Some (GridCompute _ _ value)) => has_unsupported value
  | TensorNode _ _ _ (Some (OtherTensorCompute _)) => true
  | ScalarNode _ _ _ None => false
  | ScalarNode _ _ _ (Some (ReduceCompute _ _ value _)) => has_unsupported value
  | ScalarNode _ _ _ (Some (ArgReduceCompute _ _ value _ _)) => has_unsupported value
  | ScalarNode _ _ _ (Some (OtherScalarCompute _)) => true
  end.

(** Some reached leaf (input) node has no entry in [input_map]. *)
Fixpoint has_missing_input (e : Expr) : bool :=
  match e with
  | EVar _ | Constant _ _ => false
  | BinaryExpr _ a b => has_missing_input a || has_missing_input b
  | UnaryExpr _ a | Cast a _ | Dereference a | Address a => has_missing_input a
  | TensorElement base indices => has_missing_input base || existsb has_missing_input indices
  | IfThenElse c t f => has_missing_input c || has_missing_input t || has_missing_input f
  | Call _ args => existsb has_missing_input args
  | TensorNode uid _ _ None => bool_decide (input_map !! inl uid = None)
  | TensorNode _ _ _ (Some (GridCompute _ _ value)) => has_missing_input value
  | TensorNode _ _ _ (Some (OtherTensorCompute _)) => false
  | ScalarNode uid _ _ None => bool_decide (input_map !! inr uid = None)
  | ScalarNode _ _ _ (Some (ReduceCompute _ _ value _)) => has_missing_input value
  | ScalarNode _ _ _ (Some (ArgReduceCompute _ _ value _ _)) => has_missing_input value
  | ScalarNode _ _ _ (Some (OtherScalarCompute _)) => false
  end.

End Expander.

(** Every reached Grid and Reduce node has one axis variable per dimension
    (the invariant of the data model; [axes[i]] is then in range). *)
Fixpoint axes_cover_shape (e : Expr) : bool :=
  match e with
  | EVar _ | Constant _ _ => true
  | BinaryExpr _ a b => axes_cover_shape a && axes_cover_shape b
  | UnaryExpr _ a | Cast a _ | Dereference a | Address a => axes_cover_shape a
  | TensorElement base indices => axes_cover_shape base && forallb axes_cover_shape indices
  | IfThenElse c t f => axes_cover_shape c && axes_cover_shape t && axes_cover_shape f
  | Call _ args => forallb axes_cover_shape args
  | TensorNode _ _ _ (Some (GridCompute shape axes value)) =>
      (length shape <=? length axes)%nat && axes_cover_shape value
  | TensorNode _ _ _ _ => true
  | ScalarNode _ _ _ (Some (ReduceCompute shape axes value _)) =>
      (length shape <=? length axes)%nat && axes_cover_shape value
  | ScalarNode _ _ _ (Some (ArgReduceCompute _ _ value _ _)) => axes_cover_shape value
  | ScalarNode _ _ _ _ => true
  end.

(** No compute node is reached: the expression is an ordinary scalar
    expression over variables, constants, buffer reads of variables and
    calls. *)
Fixpoint compute_free (e : Expr) : bool :=
  match e with
  | EVar _ | Constant _ _ => true
  | BinaryExpr _ a b => compute_free a && compute_free b
  | UnaryExpr _ a | Cast a _ | Dereference a | Address a => compute_free a
  | TensorElement base indices => compute_free base && forallb compute_free indices
  | IfThenElse c t f => compute_free c && compute_free t && compute_free f
  | Call _ args => forallb compute_free args
  | TensorNode _ _ _ _ | ScalarNode _ _ _ _ => false
  end.

(** No compute node is left in a statement. *)
Fixpoint stmt_compute_free (s : Stmt) : bool :=
  match s with
  | EvaluateStmt e => compute_free e
  | DeclareStmt _ (Some init) => compute_free init
  | DeclareStmt _ None => true
  | AssignStmt _ value => compute_free value
  | BufferStoreStmt _ indices value => forallb compute_free indices && compute_free value
  | ForStmt _ extent (Some body) => compute_free extent && stmt_compute_free body
  | ForStmt _ extent None => compute_free extent
  | IfStmt cond then_body else_body =>
      compute_free cond
      && match then_body with Some b => stmt_compute_free b | None => true end
      && match else_body with Some b => stmt_compute_free b | None => true end
  | AsmStmt _ outputs inputs _ =>
      forallb (fun p => compute_free (snd p)) outputs
      && forallb (fun p => compute_free (snd p)) inputs
  | SeqStmt seq => forallb stmt_compute_free seq
  end.

(** The sizes of every reached compute node (the shape of a Grid or Reduce
    node, the extent of an ArgReduce node) are ordinary expressions. *)
Fixpoint extents_compute_free (e : Expr) : bool :=
  match e with
  | EVar _ | Constant _ _ => true
  | BinaryExpr _ a b => extents_compute_free a && extents_compute_free b
  | UnaryExpr _ a | Cast a _ | Dereference a | Address a => extents_compute_free a
  | TensorElement base indices =>
      extents_compute_free base && forallb extents_compute_free indices
  | IfThenElse c t f =>
      extents_compute_free c && extents_compute_free t && extents_compute_free f
  | Call _ args => forallb extents_compute_free args
  | TensorNode _ _ _ (Some (GridCompute shape _ value)) =>
      forallb compute_free shape && extents_compute_free value
  | TensorNode _ _ _ _ => true
  | ScalarNode _ _ _ (Some (ReduceCompute shape _ value _)) =>
      forallb compute_free shape && extents_compute_free value
  | ScalarNode _ _ _ (Some (ArgReduceCompute extent _ value _ _)) =>
      compute_free extent && extents_compute_free value
  | ScalarNode _ _ _ _ => true
  end.

(** A reduce interface that builds ordinary expressions from ordinary
    expressions. *)
Definition interface_compute_free `{ReduceInterface} : Prop :=
  (forall op ref, compute_free (initial_value op ref) = true)
  /\ (forall op lhs rhs, compute_free lhs = true -> compute_free rhs = true ->
                         compute_free (combine op lhs rhs) = true)
  /\ (forall op lhs rhs, compute_free lhs = true -> compute_free rhs = true ->
                         compute_free (arg_combine op lhs rhs) = true)
  /\ (forall op acc size, compute_free acc = true -> compute_free size = true ->
                          compute_free (finalize op acc size) = true).

(** *** The nodes a lowering visits and the storage it gives them *)

(** The tensor and scalar nodes [visit] reaches, in the order it reaches
    them: the nodes among the children of ordinary expressions and, below a
    compute node, those of its value (shapes and extents are copied, not
    visited). *)
Fixpoint reached (e : Expr) : list Expr :=
  match e with
  | EVar _ | Constant _ _ => []
  | BinaryExpr _ a b => reached a ++ reached b
  | UnaryExpr _ a | Cast a _ | Dereference a | Address a => reached a
  | TensorElement base indices => reached base ++ flat_map reached indices
  | IfThenElse c t f => reached c ++ reached t ++ reached f
  | Call _ args => flat_map reached args
  | TensorNode _ _ _ (Some (GridCompute _ _ value)) => e :: reached value
  | TensorNode _ _ _ _ => [e]
  | ScalarNode _ _ _ (Some (ReduceCompute _ _ value _)) => e :: reached value
  | ScalarNode _ _ _ (Some (ArgReduceCompute _ _ value _ _)) => e :: reached value
  | ScalarNode _ _ _ _ => [e]
  end.

(** The key of a node in [input_map] and [new_buffer_map]. *)
Definition node_key (e : Expr) : option NodeKey :=
  match e with
  | TensorNode uid _ _ _ => Some (inl uid)
  | ScalarNode uid _ _ _ => Some (inr uid)
  | _ => None
  end.

(** The storage [visit] creates for a compute node: [Var(e.name,
    e.data_type)] for a Grid node, [scalar_var(e.name, infer_type(value))]
    for a Reduce node, [scalar_var(e.name + '_idx', sc.index_dtype)] for an
    ArgReduce node. *)
Definition fresh_storage (infer_type : Expr -> ScalarType) (e : Expr) : option Var :=
  match e with
  | TensorNode _ e_name data_type (Some (GridCompute _ _ _)) =>
      Some (mkVar e_name data_type)
  | ScalarNode _ e_name _ (Some (ReduceCompute _ _ value _)) =>
      Some (scalar_var e_name (infer_type value))
  | ScalarNode _ e_name _ (Some (ArgReduceCompute _ _ _ _ index_dtype)) =>
      Some (scalar_var (e_name +:+ "_idx") index_dtype)
  | _ => None
  end.

(** The statements occurring in a statement: itself and, recursively, those
    of its bodies. *)
Fixpoint sub_stmts (s : Stmt) : list Stmt :=
  s :: match s with
       | ForStmt _ _ (Some body) => sub_stmts body
       | IfStmt _ then_body else_body =>
           match then_body with Some b => sub_stmts b | None => [] end
           ++ match else_body with Some b => sub_stmts b | None => [] end
       | SeqStmt seq => flat_map sub_stmts seq
       | _ => []
       end.

End Schedules.

(** ** The meaning of lowered statements

    A reference semantics for the statements [LoopExpander] emits, used to
    say what a loop nest writes: scalar variables live in an environment,
    input buffers are read through [read], primitive calls are evaluated by
    [call], and every [BufferStoreStmt] executed is recorded, in order, as a
    store event (buffer, coordinate, value). *)

Module Semantics.

#[export] Instance ScalarType_eq_dec : EqDecision ScalarType.
Proof. solve_decision. Defined.

#[export] Instance TypeNode_eq_dec : EqDecision TypeNode.
Proof. solve_decision. Defined.

#[export] Instance Var_eq_dec : EqDecision Var.
Proof. solve_decision. Defined.

Definition Env : Type := Var -> Z.

Definition upd (env : Env) (v : Var) (x : Z) : Env :=
  fun w => if decide (w = v) then x else env w.

(** [bind_axes env axes idx]: the environment inside the loops over [axes]
    at the iteration [idx]. *)
Fixpoint bind_axes (env : Env) (axes : list Var) (idx : list Z) : Env :=
  match axes, idx with
  | a :: axes', i :: idx' => bind_axes (upd env a i) axes' idx'
  | _, _ => env
  end.

Definition StoreEvent : Type := (Var * list Z * Z)%type.

Definition of_bool (b : bool) : Z := if b then 1 else 0.

Definition eval_binary (op : BinaryOp) (x y : Z) : Z :=
  match op with
  | Add => x + y
  | Sub => x - y
  | Multiply => x * y
  | Div => x / y
  | Mod => x mod y
  | FloorDiv => x / y
  | LessThan => of_bool (x <? y)%Z
  | LessEqual => of_bool (x <=? y)%Z
  | Equal => of_bool (x =? y)%Z
  | And => of_bool (negb (x =? 0)%Z && negb (y =? 0)%Z)
  | Or => of_bool (negb (x =? 0)%Z || negb (y =? 0)%Z)
  end.

Definition eval_unary (op : UnaryOp) (x : Z) : Z :=
  match op with
  | Neg => - x
  | Not => of_bool (x =? 0)%Z
  end.

(** Run [step] on each element in turn, threading the environment and
    concatenating the store events. *)
Definition run_each {A : Type} (step : A -> Env -> Env * list StoreEvent)
    : list A -> Env -> Env * list StoreEvent :=
  fix go (xs : list A) (env : Env) : Env * list StoreEvent :=
    match xs with
    | [] => (env, [])
    | x :: rest =>
        let '(env1, t1) := step x env in
        let '(env2, t2) := go rest env1 in
        (env2, t1 ++ t2)
    end.

Section Exec.

Variable read : Var -> list Z -> Z.
Variable call : Var -> list Z -> Z.

Fixpoint eval (env : Env) (e : Expr) : Z :=
  match e with
  | EVar v => env v
  | Constant value _ => value
  | BinaryExpr op a b => eval_binary op (eval env a) (eval env b)
  | UnaryExpr op a => eval_unary op (eval env a)
  | TensorElement (EVar b) indices => read b (map (eval env) indices)
  | TensorElement _ _ => 0
  | IfThenElse cond then_expr else_expr =>
      if (eval env cond =? 0)%Z then eval env else_expr else eval env then_expr
  | Call func_var args => call func_var (map (eval env) args)
  | Cast expr _ => eval env expr
  | Dereference _ | Address _ => 0
  | TensorNode _ _ _ _ | ScalarNode _ _ _ _ => 0
  end.

Fixpoint exec (s : Stmt) (env : Env) : Env * list StoreEvent :=
  match s with
  | EvaluateStmt _ => (env, [])
  | DeclareStmt v (Some init) => (upd env v (eval env init), [])
  | DeclareStmt _ None => (env, [])
  | AssignStmt v value => (upd env v (eval env value), [])
  | BufferStoreStmt buf indices value =>
      (env, [(buf, map (eval env) indices, eval env value)])
  | ForStmt loop_var extent (Some body) =>
      run_each (fun i env => exec body (upd env loop_var i))
        (range 0 (eval env extent)) env
  | ForStmt _ _ None => (env, [])
  | IfStmt cond then_body else_body =>
      match (if (eval env cond =? 0)%Z then else_body else then_body) with
      | Some body => exec body env
      | None => (env, [])
      end
  | AsmStmt _ _ _ _ => (env, [])
  | SeqStmt seq => run_each exec seq env
  end.

(** Running [body] once for each coordinate of [cs] in turn, with [axes]
    bound to the coordinate. *)
Definition run_coords (axes : list Var) (body : list Stmt) (cs : list (list Z))
    (env : Env) : Env * list StoreEvent :=
  run_each (fun idx env0 => run_each exec body (bind_axes env0 axes idx)) cs env.

End Exec.

(** The variables a statement may assign: those it declares or assigns and
    its loop variables. *)
Fixpoint assigned (s : Stmt) : list Var :=
  match s with
  | DeclareStmt v _ | AssignStmt v _ => [v]
  | ForStmt loop_var _ body =>
      loop_var :: match body with Some b => assigned b | None => [] end
  | IfStmt _ then_body else_body =>
      match then_body with Some b => assigned b | None => [] end
      ++ match else_body with Some b => assigned b | None => [] end
  | SeqStmt seq => flat_map assigned seq
  | EvaluateStmt _ | BufferStoreStmt _ _ _ | AsmStmt _ _ _ _ => []
  end.

(** Two runs with the same store events that leave every variable other
    than those of [but] with the same value. *)
Definition same_run (but : list Var) (r1 r2 : Env * list StoreEvent) : Prop :=
  snd r1 = snd r2 /\ forall v, v ∉ but -> fst r1 v = fst r2 v.

(** The store events of a trace that write into [buf]. *)
Definition stores_into (buf : Var) (trace : list StoreEvent) : list StoreEvent :=
  List.filter (fun ev => bool_decide (fst (fst ev) = buf)) trace.

(** The coordinates of a tensor of shape [dims], in row-major order. *)
Fixpoint coords (dims : list Z) : list (list Z) :=
  match dims with
  | [] => [[]]
  | d :: rest => flat_map (fun i => map (cons i) (coords rest)) (range 0 d)
  end.

(** The product of the dimension sizes. *)
Definition extent_product (dims : list Z) : Z := fold_right Z.mul 1 dims.

(** One comparison of an arg-reduction over the values [f]: a value for
    which the comparison with the best so far holds replaces the best value
    and its index. *)
Definition arg_step (better : Z -> Z -> bool) (f : Z -> Z) (best : Z * Z) (i : Z) : Z * Z :=
  if better (f i) (fst best) then (f i, i) else best.

(** What a reduce operation means under [eval]: its identity for the data
    type named [dtype_name] is [z0], its combine is [g], its finalize is
    [fin], and its comparison holds exactly when [better] does. *)
Definition reduce_meaning `{Schedules.ReduceInterface}
    (read call : Var -> list Z -> Z) (op : ReduceOperation)
    (dtype : Schedules.DTypeRef) (z0 : Z) (g fin : Z -> Z -> Z) (better : Z -> Z -> bool)
    : Prop :=
  (forall env, eval read call env (Schedules.initial_value op dtype) = z0)
  /\ (forall env lhs rhs,
        eval read call env (Schedules.combine op lhs rhs)
        = g (eval read call env lhs) (eval read call env rhs))
  /\ (forall env acc size,
        eval read call env (Schedules.finalize op acc size)
        = fin (eval read call env acc) (eval read call env size))
  /\ (forall env lhs rhs,
        negb (eval read call env (Schedules.arg_combine op lhs rhs) =? 0)%Z
        = better (eval read call env lhs) (eval read call env rhs)).

End Semantics.

(** ** The wait-group protocol

    Modelled from the spec: the ordered queue of pending copy groups.  A
    copy is issued into the open batch, a commit closes the batch into one
    pending group, a wait for at most [N] groups leaves the [N] most recent
    groups outstanding, a wait-all leaves none.  An instruction is read off
    the text of an [asm] template by its mnemonic. *)

Module Protocol.

Inductive Instr : Type :=
| Issue
| Commit
| WaitGroup (n : Z)
| WaitAll.

Record Queue : Type := mkQueue {
  open_copies : nat;           (* copies issued since the last commit *)
  pending : list nat           (* committed groups, oldest first *)
}.

Definition step (i : Instr) (q : Queue) : Queue :=
  match i with
  | Issue => mkQueue (S (open_copies q)) (pending q)
  | Commit => mkQueue 0 (pending q ++ [open_copies q])
  | WaitGroup n =>
      mkQueue (open_copies q)
        (drop (length (pending q) - Z.to_nat n) (pending q))
  | WaitAll => mkQueue (open_copies q) []
  end.

(** [s.startswith(prefix)] *)
Fixpoint startswith (prefix s : string) : bool :=
  match prefix, s with
  | EmptyString, _ => true
  | String a p', String b s' => Ascii.eqb a b && startswith p' s'
  | String _ _, EmptyString => false
  end.

(** The mnemonic of the instruction in an [asm] template. *)
Inductive Mnemonic : Type :=
| cp_async_copy
| cp_async_commit_group
| cp_async_wait_group
| cp_async_wait_all
| other.

Definition mnemonic (template : string) : Mnemonic :=
  if startswith "cp.async.commit_group" template then cp_async_commit_group
  else if startswith "cp.async.wait_group" template then cp_async_wait_group
  else if startswith "cp.async.wait_all" template then cp_async_wait_all
  else if startswith "cp.async." template then cp_async_copy
  else other.

(** The templates of the [asm] statements in the body of a function. *)
Definition asm_templates (f : Function) : list string :=
  omap (fun s => match s with AsmStmt t _ _ _ => Some t | _ => None end) (body f).

End Protocol.

(** The parameters [cp_async] accepts. *)
Definition cp_async_legal (cp_size : Z) (cache_level : string) (prefetch_bytes : Z)
    : Prop :=
  In cp_size [4; 8; 16]
  /\ In prefetch_bytes [0; 64; 128; 256]
  /\ In cache_level ["always"; "global"]
  /\ (cache_level = "global" -> cp_size = 16).

(** ** The operand order of an mma instruction *)

(** The operand bound to placeholder [%i] of an [asm] statement: outputs are
    numbered first, inputs after them. *)
Definition asm_operand (outputs inputs : list (string * Expr)) (i : Z)
    : option (string * Expr) :=
  (outputs ++ inputs) !! Z.to_nat i.

(** What the instruction signature asks of a configuration with [c], [a]
    and [b] registers: the template names the groups C, A, B, C over
    consecutive placeholders, and the placeholders are bound to the C
    registers (read-write), then the A registers, then the B registers. *)
Definition operand_order_ok (config : Mma.MmaConfig) : Prop :=
  let a := Mma.a_regs config in
  let b := Mma.b_regs config in
  let c := Mma.c_regs config in
  let group (lo hi : Z) := "{" +:+ join ", " (map Mma.placeholder (range lo hi)) +:+ "}" in
  exists f, f = Mma.mma_function config
  /\ func_name f = "cuda_" +:+ replace_char "."%char "_"%char (Mma.inst_name config)
  /\ exists assigns outputs inputs,
       body f = assigns ++ [AsmStmt (Mma.template_string config) outputs inputs false]
       /\ Protocol.asm_templates f = [Mma.template_string config]
       /\ Mma.template_string config
          = Mma.inst_name config +:+ " " +:+ group 0 c +:+ ", " +:+ group c (c + a)
              +:+ ", " +:+ group (c + a) (c + a + b) +:+ ", " +:+ group 0 c +:+ ";"
       /\ outputs = map (fun i => ("+r", Mma.getitem Mma.rc i)) (range 0 c)
       /\ inputs = map (fun i => ("r", Mma.getitem Mma.ra i)) (range 0 a)
                   ++ map (fun i => ("r", Mma.getitem Mma.rb i)) (range 0 b)
       /\ Forall (fun i => asm_operand outputs inputs i
                           = Some ("+r", Mma.getitem Mma.rc i)) (range 0 c)
       /\ Forall (fun i => asm_operand outputs inputs i
                           = Some ("r", Mma.getitem Mma.ra (i - c))) (range c (c + a))
       /\ Forall (fun i => asm_operand outputs inputs i
                           = Some ("r", Mma.getitem Mma.rb (i - c - a)))
            (range (c + a) (c + a + b)).

(** ** Examples *)

Module Examples.

Import Schedules.

Definition dtype_of (ref : DTypeRef) : ScalarType :=
  match ref with
  | ByName dtype_name => mkScalarType dtype_name
  | ByType dtype => dtype
  end.

(** A reduce interface that records each request as a call, by name. *)
Definition symbolic_reduce : ReduceInterface := {|
  initial_value op ref :=
    Call (mkVar (reduce_name op +:+ ".initial_value") FuncType) [Constant 0 (dtype_of ref)];
  combine op lhs rhs := Call (mkVar (reduce_name op +:+ ".combine") FuncType) [lhs; rhs];
  arg_combine op lhs rhs :=
    Call (mkVar (reduce_name op +:+ ".arg_combine") FuncType) [lhs; rhs];
  finalize op acc size := Call (mkVar (reduce_name op +:+ ".finalize") FuncType) [acc; size]
|}.

Definition float16 : ScalarType := mkScalarType "float16".
Definition float32 : ScalarType := mkScalarType "float32".
Definition int64 : ScalarType := mkScalarType "int64".

(** A type inference for the examples: the type of a constant or of a
    scalar variable, [float32] for anything else. *)
Definition infer_type (e : Expr) : ScalarType :=
  match e with
  | Constant _ data_type => data_type
  | EVar (mkVar _ (TScalar dtype)) => dtype
  | _ => float32
  end.

Definition i : Var := mkVar "i" (TScalar int32).
Definition j : Var := mkVar "j" (TScalar int32).
Definition k : Var := mkVar "k" (TScalar int32).
Definition sum : ReduceOperation := mkReduceOperation "sum".
Definition max : ReduceOperation := mkReduceOperation "max".

(** An input tensor [A], and the reduction of [A[k]] over [k < 4]. *)
Definition A : Expr := TensorNode 1 "A" (TensorType "global" float32) None.
Definition A_k : Expr := TensorElement A [EVar k].
Definition A_var : Var := mkVar "A" (TensorType "global" float32).
Definition out_var : Var := mkVar "out" (TScalar float32).

Definition reduce_A : Expr :=
  ScalarNode 2 "s" float32 (Some (ReduceCompute [convert 4] [k] A_k sum)).

Definition argmax_A : Expr :=
  ScalarNode 3 "m" float32 (Some (ArgReduceCompute (convert 4) k A_k max int64)).

(** A reduction declared [float32] over a [float16] value. *)
Definition reduce_half : Expr :=
  ScalarNode 4 "h" float32 (Some (ReduceCompute [convert 4] [k] (Constant 1 float16) sum)).

(** [compute([2, 3], (i, j) -> i * 3 + j)] *)
Definition iota : Expr :=
  TensorNode 5 "C" (TensorType "global" int32)
    (Some (GridCompute [convert 2; convert 3] [i; j]
             (BinaryExpr Add (BinaryExpr Multiply (EVar i) (convert 3)) (EVar j)))).

(** [input_map]s for the examples: [A] supplied, and [A] and the result
    of the reduction supplied. *)
Definition A_map : gmap NodeKey Var := {[inl 1%positive := A_var]}.

Definition A_out_map : gmap NodeKey Var :=
  <[inr 2%positive := out_var]> {[inl 1%positive := A_var]}.

(** The example of the docstring of [expand_loop],
    [compute([3, 3], (i, j) -> reduce_sum(A[i, k] * B[k, j], axis=k))], with
    [A] and [B] supplied, and with the result [C] supplied as well. *)
Definition B : Expr := TensorNode 6 "B" (TensorType "global" float32) None.
Definition B_var : Var := mkVar "B" (TensorType "global" float32).
Definition C_var : Var := mkVar "C" (TensorType "global" float32).

Definition matmul_sum : Expr :=
  ScalarNode 8 "s" float32
    (Some (ReduceCompute [convert 3] [k]
             (BinaryExpr Multiply (TensorElement A [EVar i; EVar k])
                (TensorElement B [EVar k; EVar j])) sum)).

Definition matmul : Expr :=
  TensorNode 9 "C" (TensorType "global" float32)
    (Some (GridCompute [convert 3; convert 3] [i; j] matmul_sum)).

Definition AB_map : gmap NodeKey Var :=
  <[inl 6%positive := B_var]> {[inl 1%positive := A_var]}.

Definition ABC_map : gmap NodeKey Var := <[inl 9%positive := C_var]> AB_map.

(** A reduce interface of sums, for the examples: identity 0, combine by
    addition, finalize unchanged, comparison by strict greater-than. *)
Definition additive_reduce : ReduceInterface := {|
  initial_value op ref := Constant 0 (dtype_of ref);
  combine op lhs rhs := BinaryExpr Add lhs rhs;
  arg_combine op lhs rhs := BinaryExpr LessThan rhs lhs;
  finalize op acc size := acc
|}.

End Examples.

(** ** Induction on expressions *)

Section ExprInduction.

Variable P : Expr -> Prop.

Hypothesis HVar : forall v, P (EVar v).
Hypothesis HConstant : forall value data_type, P (Constant value data_type).
Hypothesis HBinary : forall op a b, P a -> P b -> P (BinaryExpr op a b).
Hypothesis HUnary : forall op a, P a -> P (UnaryExpr op a).
Hypothesis HTensorElement :
  forall base indices, P base -> Forall P indices -> P (TensorElement base indices).
Hypothesis HIfThenElse : forall c t f, P c -> P t -> P f -> P (IfThenElse c t f).
Hypothesis HCall : forall func_var args, Forall P args -> P (Call func_var args).
Hypothesis HCast : forall a target_type, P a -> P (Cast a target_type).
Hypothesis HDereference : forall a, P a -> P (Dereference a).
Hypothesis HAddress : forall a, P a -> P (Address a).
Hypothesis HTensorInput : forall uid nm dt, P (TensorNode uid nm dt None).
Hypothesis HGrid :
  forall uid nm dt shape axes value,
    P value -> P (TensorNode uid nm dt (Some (GridCompute shape axes value))).
Hypothesis HOtherTensor :
  forall uid nm dt type_name, P (TensorNode uid nm dt (Some (OtherTensorCompute type_name))).
Hypothesis HScalarInput : forall uid nm dt, P (ScalarNode uid nm dt None).
Hypothesis HReduce :
  forall uid nm dt shape axes value op,
    P value -> P (ScalarNode uid nm dt (Some (ReduceCompute shape axes value op))).
Hypothesis HArgReduce :
  forall uid nm dt extent axis value op index_dtype,
    P value ->
    P (ScalarNode uid nm dt (Some (ArgReduceCompute extent axis value op index_dtype))).
Hypothesis HOtherScalar :
  forall uid nm dt type_name, P (ScalarNode uid nm dt (Some (OtherScalarCompute type_name))).

Fixpoint Expr_visit_ind (e : Expr) : P e :=
  let all :=
    fix all (l : list Expr) : Forall P l :=
      match l with
      | [] => @List.Forall_nil _ P
      | x :: rest => @List.Forall_cons _ P x rest (Expr_visit_ind x) (all rest)
      end in
  match e with
  | EVar v => HVar v
  | Constant value data_type => HConstant value data_type
  | BinaryExpr op a b => HBinary op a b (Expr_visit_ind a) (Expr_visit_ind b)
  | UnaryExpr op a => HUnary op a (Expr_visit_ind a)
  | TensorElement base indices =>
      HTensorElement base indices (Expr_visit_ind base) (all indices)
  | IfThenElse c t f =>
      HIfThenElse c t f (Expr_visit_ind c) (Expr_visit_ind t) (Expr_visit_ind f)
  | Call func_var args => HCall func_var args (all args)
  | Cast a target_type => HCast a target_type (Expr_visit_ind a)
  | Dereference a => HDereference a (Expr_visit_ind a)
  | Address a => HAddress a (Expr_visit_ind a)
  | TensorNode uid nm dt None => HTensorInput uid nm dt
  | TensorNode uid nm dt (Some (GridCompute shape axes value)) =>
      HGrid uid nm dt shape axes value (Expr_visit_ind value)
  | TensorNode uid nm dt (Some (OtherTensorCompute type_name)) =>
      HOtherTensor uid nm dt type_name
  | ScalarNode uid nm dt None => HScalarInput uid nm dt
  | ScalarNode uid nm dt (Some (ReduceCompute shape axes value op)) =>
      HReduce uid nm dt shape axes value op (Expr_visit_ind value)
  | ScalarNode uid nm dt (Some (ArgReduceCompute extent axis value op index_dtype)) =>
      HArgReduce uid nm dt extent axis value op index_dtype (Expr_visit_ind value)
  | ScalarNode uid nm dt (Some (OtherScalarCompute type_name)) =>
      HOtherScalar uid nm dt type_name
  end.

End ExprInduction.

(** ** Induction on statements *)

Section StmtInduction.

Variable P : Stmt -> Prop.

Hypothesis HEvaluate : forall e, P (EvaluateStmt e).
Hypothesis HDeclare : forall v init, P (DeclareStmt v init).
Hypothesis HAssign : forall v value, P (AssignStmt v value).
Hypothesis HBufferStore : forall buf indices value, P (BufferStoreStmt buf indices value).
Hypothesis HFor :
  forall loop_var extent body,
    match body with Some b => P b | None => True end ->
    P (ForStmt loop_var extent body).
Hypothesis HIf :
  forall cond then_body else_body,
    match then_body with Some b => P b | None => True end ->
    match else_body with Some b => P b | None => True end ->
    P (IfStmt cond then_body else_body).
Hypothesis HAsm :
  forall template outputs inputs is_volatile, P (AsmStmt template outputs inputs is_volatile).
Hypothesis HSeq : forall seq, Forall P seq -> P (SeqStmt seq).

Fixpoint Stmt_body_ind (s : Stmt) : P s :=
  match s with
  | EvaluateStmt e => HEvaluate e
  | DeclareStmt v init => HDeclare v init
  | AssignStmt v value => HAssign v value
  | BufferStoreStmt buf indices value => HBufferStore buf indices value
  | ForStmt loop_var extent body =>
      HFor loop_var extent body
        (match body as o return match o with Some b => P b | None => True end with
         | Some b => Stmt_body_ind b
         | None => I
         end)
  | IfStmt cond then_body else_body =>
      HIf cond then_body else_body
        (match then_body as o return match o with Some b => P b | None => True end with
         | Some b => Stmt_body_ind b
         | None => I
         end)
        (match else_body as o return match o with Some b => P b | None => True end with
         | Some b => Stmt_body_ind b
         | None => I
         end)
  | AsmStmt template outputs inputs is_volatile => HAsm template outputs inputs is_volatile
  | SeqStmt seq =>
      HSeq seq
        ((fix all (l : list Stmt) : Forall P l :=
            match l with
            | [] => List.Forall_nil P
            | x :: rest => @List.Forall_cons _ P x rest (Stmt_body_ind x) (all rest)
            end) seq)
  end.

End StmtInduction.

(** ** Notions used to relate [visit] to [lowered] *)

Module Lowering.

Import Schedules Semantics.

(** The scope stack after entering [loops] from the stack [top :: rest]. *)
Fixpoint entered (loops : list (Var * Expr)) (top : list Stmt) (rest : ScopeStack)
    : ScopeStack :=
  match loops with
  | [] => top :: rest
  | (axis, extent) :: loops' =>
      entered loops' [] ((top ++ [ForStmt axis extent None]) :: rest)
  end.

Definition enter_step (shape : list Expr) (axes : list Var) (i : nat) : M unit :=
  match axes !! i, shape !! i with
  | Some axis, Some extent => with_sb (sb_enter_body (ForStmt axis extent None))
  | _, _ => raise IndexError
  end.

(** A description placed in a builder whose innermost scope is [top]. *)
Definition placed {A : Type} (top : list Stmt) (rest : ScopeStack)
    (r : Result (A * list Stmt * gmap NodeKey Var)) : Result (A * LoopExpander) :=
  match r with
  | Ok (a, new, nbm) => Ok (a, mkLoopExpander ((top ++ new) :: rest) nbm)
  | Raise err => Raise err
  end.

(** The outcome of a lowering, against what the expression contains. *)
Definition outcome_explained {A : Type} (r : Result A) (unsupported missing covered : bool)
    : Prop :=
  match r with
  | Ok _ => unsupported = false /\ missing = false
  | Raise (NotImplementedError _) => unsupported = true
  | Raise (KeyError _) => missing = true
  | Raise IndexError => covered = false
  | Raise _ => False
  end.

Section Predicates.

Context `{ReduceInterface}.
Variable infer_type : Expr -> ScalarType.
Variable input_map : gmap NodeKey Var.

(** [visit e] does, in any builder, what [lowered e] describes. *)
Definition visit_as_lowered (e : Expr) : Prop :=
  forall top rest nbm,
    visit infer_type input_map e (mkLoopExpander (top :: rest) nbm)
    = placed top rest (lowered infer_type input_map e nbm).

(** From [nbm] to [nbm']: no entry is lost, and a tensor node gains an entry
    only if [input_map] has none for it. *)
Definition keys_fresh (nbm nbm' : gmap NodeKey Var) : Prop :=
  dom nbm ⊆ dom nbm'
  /\ forall uid : positive,
       inl uid ∈ dom nbm' -> inl uid ∈ dom nbm \/ input_map !! inl uid = None.

Definition keeps_keys_fresh {A : Type} (f : Emit A) : Prop :=
  forall nbm a s nbm', f nbm = Ok (a, s, nbm') -> keys_fresh nbm nbm'.

(** What the statements [new] hold for a reached node [n] once it is
    lowered.  A Grid node is stored into the storage [input_map] supplies
    for it, or else into its fresh buffer; a Reduce or ArgReduce node
    initializes its fresh accumulator and, when [input_map] has an entry for
    it, assigns its result to the variable supplied. *)
Definition emitted (n : Expr) (new : list Stmt) : Prop :=
  match n with
  | TensorNode uid e_name data_type (Some (GridCompute shape axes value)) =>
      exists expr,
        In (BufferStoreStmt (default (mkVar e_name data_type) (input_map !! inl uid))
              (map EVar axes) expr)
           (flat_map sub_stmts new)
  | ScalarNode uid e_name data_type (Some (ReduceCompute shape axes value op)) =>
      let acc := scalar_var e_name (infer_type value) in
      In (AssignStmt acc (initial_value op (ByName (name data_type))))
         (flat_map sub_stmts new)
      /\ forall input_var,
           input_map !! inr uid = Some input_var ->
           In (AssignStmt input_var (finalize op (EVar acc) (prod shape)))
              (flat_map sub_stmts new)
  | ScalarNode uid e_name data_type
      (Some (ArgReduceCompute extent axis value op index_dtype)) =>
      let acc_index := scalar_var (e_name +:+ "_idx") index_dtype in
      In (AssignStmt acc_index (convert 0)) (flat_map sub_stmts new)
      /\ forall input_var,
           input_map !! inr uid = Some input_var ->
           In (AssignStmt input_var (EVar acc_index)) (flat_map sub_stmts new)
  | _ => True
  end.

(** What lowering the nodes [ns] leaves in the buffer map and in the
    statements: every entry added is the fresh storage of one of the nodes,
    under that node's key; every compute node among them, a Grid node only if
    [input_map] has no entry for it, has an entry afterwards; and each of
    them is [emitted]. *)
Definition records_storage (ns : list Expr) (nbm : gmap NodeKey Var) (new : list Stmt)
    (nbm' : gmap NodeKey Var) : Prop :=
  (forall key var,
      nbm' !! key = Some var ->
      nbm !! key = Some var
      \/ exists n, In n ns /\ node_key n = Some key
                   /\ fresh_storage infer_type n = Some var)
  /\ (forall n key var,
        In n ns -> node_key n = Some key ->
        fresh_storage infer_type n = Some var ->
        (forall uid : positive, key = inl uid -> input_map !! key = None) ->
        key ∈ dom nbm')
  /\ (forall n, In n ns -> emitted n new).

Definition lowering_records (e : Expr) : Prop :=
  forall nbm v new nbm',
    lowered infer_type input_map e nbm = Ok (v, new, nbm') ->
    records_storage (reached e) nbm new nbm'.

(** The value and the statements of a lowering hold no compute node. *)
Definition lowers_compute_free (e : Expr) : Prop :=
  extents_compute_free e = true ->
  forall nbm v new nbm',
    lowered infer_type input_map e nbm = Ok (v, new, nbm') ->
    compute_free v = true /\ forallb stmt_compute_free new = true.

End Predicates.

Section Events.

Variable read : Var -> list Z -> Z.
Variable call : Var -> list Z -> Z.

(** The store events of the nest over [axes] with extents [dims] around a
    single store: one event per coordinate, in row-major order, each with the
    indices and the value evaluated under the binding of the axes. *)
Definition nest_events (env : Env) (axes : list Var) (dims : list Z)
    (buf : Var) (indices : list Expr) (value : Expr) : list StoreEvent :=
  map (fun idx => (buf, map (eval read call (bind_axes env axes idx)) indices,
                   eval read call (bind_axes env axes idx) value)) (coords dims).

End Events.

End Lowering.

(** * Properties *)

Import Schedules Semantics Lowering.

(** ** [uint64] constants *)

Lemma uint64_in_range_dec (v : Z) :
  negb ((0 <=? v)%Z && (v <=? 18446744073709551615)%Z) = false
  <-> 0 <= v <= 18446744073709551615.
Proof.
  rewrite negb_false_iff, andb_true_iff, Z.leb_le, Z.leb_le. tauto.
Qed.

(** C10: [uint64.constant(v)] on an integer [v] returns the constant carrying
    [v] exactly when [0 <= v <= 2^64 - 1] and raises a [ValueError]
    otherwise, without a warning; on a float it warns and then behaves as on
    the truncated integer; [zero], [one], [min_value] and [max_value] return
    the constants 0, 1, 0 and 2^64 - 1. *)
Theorem C10_uint64_constant_range :
  (forall v : Z,
      (UInt64.constant (UInt64.PyInt v) = ([], Ok (Constant v UInt64.uint64))
       <-> 0 <= v <= 18446744073709551615)
      /\ (~ 0 <= v <= 18446744073709551615 <->
          exists msg, UInt64.constant (UInt64.PyInt v) = ([], Raise (ValueError msg))))
  /\ (forall q : Q,
        let v := Z.quot (Qnum q) (Z.pos (Qden q)) in
        UInt64.constant (UInt64.PyFloat q)
        = (["Converting float to int when creating uint64 constant."],
           snd (UInt64.constant (UInt64.PyInt v))))
  /\ UInt64.zero = ([], Ok (Constant 0 UInt64.uint64))
  /\ UInt64.one = ([], Ok (Constant 1 UInt64.uint64))
  /\ UInt64.min_value = ([], Ok (Constant 0 UInt64.uint64))
  /\ UInt64.max_value = ([], Ok (Constant (2 ^ 64 - 1) UInt64.uint64)).
Proof.
  split; [| split; [| repeat split]].
  - intros v. unfold UInt64.constant. cbn [UInt64.isinstance_float UInt64.int].
    destruct (negb ((0 <=? v)%Z && (v <=? 18446744073709551615)%Z)) eqn:E.
    + assert (Hn : ~ 0 <= v <= 18446744073709551615).
      { intros Hr. apply uint64_in_range_dec in Hr. congruence. }
      split; split.
      * intros Hc. inversion Hc.
      * intros Hr. tauto.
      * intros _. eexists. reflexivity.
      * intros _. exact Hn.
    + apply uint64_in_range_dec in E.
      split; split.
      * intros _. exact E.
      * intros _. reflexivity.
      * intros Hn. tauto.
      * intros [msg Hm]. inversion Hm.
  - intros q v. unfold UInt64.constant. cbn [UInt64.isinstance_float UInt64.int].
    fold v. destruct (negb _); reflexivity.
Qed.

(** ** Registers per operand *)

Lemma bits_bytes_divisible (num_bytes : Z) :
  (8 * num_bytes) mod (32 * 32) = 0 <-> num_bytes mod (4 * 32) = 0.
Proof.
  change (32 * 32) with (8 * 128). change (4 * 32) with 128.
  rewrite Zmult_mod_distr_l. lia.
Qed.

Lemma num_regs_unfold (short_dtype : string) (nbytes num_elements : Z) :
  Mma.ScalarType_nbytes short_dtype = Ok nbytes ->
  Mma.num_regs short_dtype num_elements
  = if decide ((nbytes * num_elements) mod (4 * 32) = 0)
    then Ok (nbytes * num_elements / (4 * 32))
    else Raise AssertionError.
Proof.
  intros Hn. unfold Mma.num_regs. rewrite Hn. cbn [bind].
  destruct (decide _) as [E | E].
  - rewrite E. reflexivity.
  - apply Z.eqb_neq in E. rewrite E. reflexivity.
Qed.

(** C5 (as the code has it): for 128 elements of 16 bits [num_regs] returns 2
    registers per lane (256 bytes over 4 bytes times 32 lanes); and for every
    element type and count, [num_regs] fails its assertion when the total
    bit count is not divisible by 32 * 32 (the byte count by 4 * 32), and
    otherwise returns the byte count divided by 4 * 32. *)
Theorem C5_num_regs (short_dtype : string) (nbytes num_elements : Z)
    (Hdtype : Mma.ScalarType_nbytes short_dtype = Ok nbytes) :
  Mma.num_regs "f16" 128 = Ok 2
  /\ ((8 * (nbytes * num_elements)) mod (32 * 32) <> 0 ->
      Mma.num_regs short_dtype num_elements = Raise AssertionError)
  /\ ((8 * (nbytes * num_elements)) mod (32 * 32) = 0 ->
      Mma.num_regs short_dtype num_elements = Ok (nbytes * num_elements / (4 * 32))).
Proof.
  split; [reflexivity |].
  rewrite (num_regs_unfold _ _ _ Hdtype), bits_bytes_divisible.
  destruct (decide _); split; intros; tauto || reflexivity.
Qed.

Lemma C5_num_regs_witness :
  Mma.num_regs "bf16" 100 = Raise AssertionError
  /\ Mma.num_regs "f32" 64 = Ok 2.
Proof.
  pose proof (C5_num_regs "bf16" 2 100 eq_refl) as (_ & Hbad & _).
  pose proof (C5_num_regs "f32" 4 64 eq_refl) as (_ & _ & Hgood).
  split; [apply Hbad | apply Hgood]; vm_compute; congruence.
Defined.

(** C5 as stated fails: 128 elements of 16 bits need 2 registers per lane,
    not 1. *)
Lemma C5_counterexample :
  Mma.num_regs "f16" 128 = Ok 2 /\ Mma.num_regs "f16" 128 <> Ok 1.
Proof. split; [reflexivity | vm_compute; congruence]. Qed.

(** ** The wait-group functions *)

(** C6 (what the code registers): the function registered as
    [cuda_cp_async_wait_group_n], for each [n] of [range(10)], consists of
    the single instruction [cp.async.commit_group n;]: its mnemonic is the
    commit's, not [cp.async.wait_group]; [cuda_cp_async_wait_all] is
    [cp.async.wait_all;].  In the protocol, with one group outstanding, a
    commit leaves two groups pending where a wait-all leaves none. *)
Theorem C6_wait_group_emits_commit :
  exists pool, CpAsync.initialize = Ok pool
  /\ Forall (fun n =>
       exists f, pool_lookup pool ("cuda_cp_async_wait_group_" +:+ str_int n) = Some f
       /\ Protocol.asm_templates f = ["cp.async.commit_group " +:+ str_int n +:+ ";"]
       /\ Forall (fun t => Protocol.mnemonic t = Protocol.cp_async_commit_group)
            (Protocol.asm_templates f)) (range 0 10)
  /\ (exists f, pool_lookup pool "cuda_cp_async_wait_all" = Some f
      /\ Protocol.asm_templates f = ["cp.async.wait_all;"]
      /\ Protocol.mnemonic "cp.async.wait_all;" = Protocol.cp_async_wait_all)
  /\ (exists f, pool_lookup pool "cuda_cp_async_commit_group" = Some f
      /\ Protocol.asm_templates f = ["cp.async.commit_group;"])
  /\ (forall group : nat,
        let q := Protocol.mkQueue 0 [group] in
        Protocol.step (Protocol.WaitGroup 0) q = Protocol.step Protocol.WaitAll q
        /\ Protocol.step Protocol.Commit q = Protocol.mkQueue 0 [group; 0%nat]
        /\ Protocol.step Protocol.Commit q <> Protocol.step Protocol.WaitAll q).
Proof.
  eexists. split; [vm_compute; reflexivity |].
  split; [| split; [| split]].
  - let r := eval vm_compute in (range 0 10) in change (range 0 10) with r.
    repeat (apply Forall_cons_2;
            [eexists; split; [vm_compute; reflexivity |];
             split; [reflexivity | apply Forall_cons_2; [reflexivity | apply Forall_nil_2]] |]).
    apply Forall_nil_2.
  - eexists. split; [vm_compute; reflexivity |]. split; reflexivity.
  - eexists. split; [vm_compute; reflexivity |]. reflexivity.
  - intros group q. split; [reflexivity |]. split; [reflexivity |].
    cbn. intros Heq. discriminate Heq.
Qed.

(** ** Validation at call construction *)

Lemma int_in_true (x : Z) (l : list Z) : int_in x l = true <-> In x l.
Proof.
  unfold int_in. rewrite existsb_exists. split.
  - intros (y & Hy & E). apply Z.eqb_eq in E. subst. exact Hy.
  - intros Hx. exists x. split; [exact Hx | apply Z.eqb_refl].
Qed.

Lemma str_in_true (x : string) (l : list string) : str_in x l = true <-> In x l.
Proof.
  unfold str_in. rewrite existsb_exists. split.
  - intros (y & Hy & E). apply String.eqb_eq in E. subst. exact Hy.
  - intros Hx. exists x. split; [exact Hx | apply String.eqb_refl].
Qed.

Lemma cp_async_rejects (pool : Pool) (dst src : Expr) (cp_size : Z)
    (src_size : option Expr) (cache_level : string) (prefetch_bytes : Z) :
  ~ cp_async_legal cp_size cache_level prefetch_bytes ->
  exists msg, CpAsync.cp_async pool dst src cp_size src_size cache_level prefetch_bytes
              = Raise (ValueError msg) /\ msg <> "".
Proof.
  intros Hbad. unfold CpAsync.cp_async.
  destruct (int_in cp_size [4; 8; 16]) eqn:E1; cbn [negb];
    [| eexists; split; [reflexivity | discriminate]].
  destruct (int_in prefetch_bytes [0; 64; 128; 256]) eqn:E2; cbn [negb];
    [| eexists; split; [reflexivity | discriminate]].
  destruct (str_in cache_level ["global"; "always"]) eqn:E3; cbn [negb];
    [| eexists; split; [reflexivity | discriminate]].
  destruct (String.eqb cache_level "global" && negb (cp_size =? 16)%Z) eqn:E4;
    [eexists; split; [reflexivity | discriminate] |].
  exfalso. apply Hbad. apply int_in_true in E1, E2. apply str_in_true in E3.
  repeat split; try assumption.
  - cbn in E3. cbn. tauto.
  - intros ->. cbn in E4. apply negb_false_iff, Z.eqb_eq in E4. exact E4.
Qed.

Lemma cp_async_accepts (pool : Pool) (dst src : Expr) (cp_size : Z)
    (src_size : option Expr) (cache_level : string) (prefetch_bytes : Z) :
  primitive_pool = Ok pool ->
  cp_async_legal cp_size cache_level prefetch_bytes ->
  exists rname f,
    CpAsync.resolve_name_cp_async cp_size cache_level prefetch_bytes = Ok rname
    /\ pool_lookup pool ("cuda_" +:+ rname) = Some f
    /\ func_name f = "cuda_" +:+ rname
    /\ CpAsync.cp_async pool dst src cp_size src_size cache_level prefetch_bytes
       = Ok (Call (mkVar ("cuda_" +:+ rname) FuncType)
               [dst; src; default (convert cp_size) src_size]).
Proof.
  intros Hpool (H1 & H2 & H3 & H4).
  vm_compute in Hpool. injection Hpool as <-.
  cbn [In] in H1, H2, H3.
  destruct H3 as [<- | [<- | []]];
    [| specialize (H4 eq_refl); subst cp_size];
    destruct H2 as [<- | [<- | [<- | [<- | []]]]];
    try (destruct H1 as [<- | [<- | [<- | []]]]);
    (do 2 eexists; split; [vm_compute; reflexivity |];
     split; [vm_compute; reflexivity |];
     split; [reflexivity |]; destruct src_size; reflexivity).
Qed.

Lemma classic_legal (cp_size : Z) (cache_level : string) (prefetch_bytes : Z) :
  cp_async_legal cp_size cache_level prefetch_bytes
  \/ ~ cp_async_legal cp_size cache_level prefetch_bytes.
Proof.
  unfold cp_async_legal.
  destruct (decide (In cp_size [4; 8; 16])); [| tauto].
  destruct (decide (In prefetch_bytes [0; 64; 128; 256])); [| tauto].
  destruct (decide (In cache_level ["always"; "global"])); [| tauto].
  destruct (decide (cache_level = "global")) as [-> | Hg]; [| tauto].
  destruct (decide (cp_size = 16)); tauto.
Qed.

(** C7: call construction validates its parameters eagerly.  [cp_async]
    raises a [ValueError] with a message exactly when the copy size is not
    in {4, 8, 16}, the prefetch distance not in {0, 64, 128, 256}, the cache
    level not in {always, global}, or the cache level is global with a size
    other than 16; otherwise it returns the call to the registered function,
    whose source-size argument is [cp_size] when none is given.
    [cp_async_wait_group(n)] raises exactly when [n] is outside [0, 10), and
    [resolve_ldmatrix_func_name] exactly when the count is not in
    {1, 2, 4}. *)
Theorem C7_eager_validation :
  exists pool, primitive_pool = Ok pool
  /\ (forall dst src cp_size src_size cache_level prefetch_bytes,
        let r := CpAsync.cp_async pool dst src cp_size src_size cache_level prefetch_bytes in
        ((exists msg, r = Raise (ValueError msg) /\ msg <> "")
         <-> ~ cp_async_legal cp_size cache_level prefetch_bytes)
        /\ ((exists f, r = Ok (Call f [dst; src; default (convert cp_size) src_size]))
            <-> cp_async_legal cp_size cache_level prefetch_bytes))
  /\ (forall dst src,
        is_ok (CpAsync.cp_async pool dst src 16 None "global" 0) = true
        /\ is_ok (CpAsync.cp_async pool dst src 8 None "global" 0) = false
        /\ is_ok (CpAsync.cp_async pool dst src 4 None "always" 100) = false)
  /\ (forall n,
        ((exists msg, CpAsync.cp_async_wait_group pool n = Raise (ValueError msg) /\ msg <> "")
         <-> ~ 0 <= n < 10)
        /\ ((exists f, CpAsync.cp_async_wait_group pool n = Ok (Call f []))
            <-> 0 <= n < 10))
  /\ (forall num shared_space_addr trans,
        ((exists msg, Mma.resolve_ldmatrix_func_name num shared_space_addr trans
                      = Raise (ValueError msg) /\ msg <> "")
         <-> ~ In num [1; 2; 4])
        /\ ((exists fname, Mma.resolve_ldmatrix_func_name num shared_space_addr trans
                           = Ok fname)
            <-> In num [1; 2; 4])).
Proof.
  destruct primitive_pool as [pool |] eqn:Hpool; [| vm_compute in Hpool; discriminate].
  exists pool. split; [reflexivity |].
  split; [| split; [| split]].
  - intros dst src cp_size src_size cache_level prefetch_bytes r.
    destruct (classic_legal cp_size cache_level prefetch_bytes) as [Hl | Hl].
    + destruct (cp_async_accepts pool dst src cp_size src_size cache_level
                  prefetch_bytes Hpool Hl) as (rname & f & _ & _ & _ & Hr).
      fold r in Hr. rewrite Hr. split; split; intros Hx.
      * destruct Hx as (msg & Hm & _). discriminate Hm.
      * tauto.
      * exact Hl.
      * eexists. reflexivity.
    + destruct (cp_async_rejects pool dst src cp_size src_size cache_level
                  prefetch_bytes Hl) as (msg & Hr & Hmsg).
      fold r in Hr. rewrite Hr. split; split; intros Hx.
      * exact Hl.
      * exists msg. split; [reflexivity | exact Hmsg].
      * destruct Hx as (f & Hf). discriminate Hf.
      * tauto.
  - intros dst src. vm_compute in Hpool. injection Hpool as <-.
    repeat split; vm_compute; reflexivity.
  - intros n. unfold CpAsync.cp_async_wait_group.
    destruct (negb ((0 <=? n)%Z && (n <? 10)%Z)) eqn:E.
    + assert (Hn : ~ 0 <= n < 10).
      { apply negb_true_iff, andb_false_iff in E.
        rewrite Z.leb_gt, Z.ltb_ge in E. lia. }
      split; split; intros Hx.
      * exact Hn.
      * eexists. split; [reflexivity | discriminate].
      * destruct Hx as (f & Hf). discriminate Hf.
      * tauto.
    + assert (Hn : 0 <= n < 10).
      { apply negb_false_iff, andb_true_iff in E.
        rewrite Z.leb_le, Z.ltb_lt in E. exact E. }
      assert (Hcall : exists f, call_cuda pool ("cp_async_wait_group_" +:+ str_int n) []
                                = Ok (Call f [])).
      { vm_compute in Hpool. injection Hpool as <-.
        rewrite <- (Z2Nat.id n) by lia.
        assert (Hk : (Z.to_nat n < 10)%nat) by lia.
        revert Hk. generalize (Z.to_nat n). intros k Hk.
        do 10 (destruct k as [| k]; [eexists; vm_compute; reflexivity |]).
        lia. }
      destruct Hcall as (f & Hf). rewrite Hf.
      split; split; intros Hx.
      * destruct Hx as (msg & Hm & _). discriminate Hm.
      * tauto.
      * exact Hn.
      * eexists. reflexivity.
  - intros num shared_space_addr trans. unfold Mma.resolve_ldmatrix_func_name.
    destruct (int_in num [1; 2; 4]) eqn:E; cbn [negb].
    + apply int_in_true in E. split; split; intros Hx.
      * destruct Hx as (msg & Hm & _). discriminate Hm.
      * tauto.
      * exact E.
      * eexists. reflexivity.
    + assert (Hn : ~ In num [1; 2; 4]).
      { rewrite <- int_in_true, E. discriminate. }
      split; split; intros Hx.
      * exact Hn.
      * eexists. split; [reflexivity | discriminate].
      * destruct Hx as (f & Hf). discriminate Hf.
      * tauto.
Qed.

(** ** Operand order of the mma instruction *)

(** C4: for every registered MMA configuration, the asm template of the
    generated device function lists the placeholder groups in the order C
    ([%0] to [%{c_regs-1}]), A, B, and C again as the accumulator, and the
    statement binds the C registers as read-write outputs and the A registers
    followed by the B registers as inputs; the function is registered under
    its name. *)
Theorem C4_mma_operand_order :
  exists mma_configs pool,
    Mma.register_mma_configs = Ok mma_configs
    /\ primitive_pool = Ok pool
    /\ length mma_configs = 8%nat
    /\ Forall (fun entry =>
                 operand_order_ok (snd entry)
                 /\ pool_lookup pool (func_name (Mma.mma_function (snd entry)))
                    = Some (Mma.mma_function (snd entry))) mma_configs
    /\ map (fun entry => Mma.template_string (snd entry)) mma_configs
       = [ "mma.sync.aligned.m16n8k8.row.col.f16.f16.f16.f16 {%0, %1}, {%2, %3}, {%4}, {%0, %1};";
           "mma.sync.aligned.m16n8k16.row.col.f16.f16.f16.f16 {%0, %1}, {%2, %3, %4, %5}, {%6, %7}, {%0, %1};";
           "mma.sync.aligned.m16n8k8.row.col.f32.f16.f16.f32 {%0, %1, %2, %3}, {%4, %5}, {%6}, {%0, %1, %2, %3};";
           "mma.sync.aligned.m16n8k16.row.col.f32.f16.f16.f32 {%0, %1, %2, %3}, {%4, %5, %6, %7}, {%8, %9}, {%0, %1, %2, %3};";
           "mma.sync.aligned.m16n8k8.row.col.f32.bf16.bf16.f32 {%0, %1, %2, %3}, {%4, %5}, {%6}, {%0, %1, %2, %3};";
           "mma.sync.aligned.m16n8k16.row.col.f32.bf16.bf16.f32 {%0, %1, %2, %3}, {%4, %5, %6, %7}, {%8, %9}, {%0, %1, %2, %3};";
           "mma.sync.aligned.m16n8k4.row.col.f32.tf32.tf32.f32 {%0, %1, %2, %3}, {%4, %5}, {%6}, {%0, %1, %2, %3};";
           "mma.sync.aligned.m16n8k8.row.col.f32.tf32.tf32.f32 {%0, %1, %2, %3}, {%4, %5, %6, %7}, {%8, %9}, {%0, %1, %2, %3};" ].
Proof.
  destruct Mma.register_mma_configs as [mma_configs |] eqn:Hc;
    [| vm_compute in Hc; discriminate].
  destruct primitive_pool as [pool |] eqn:Hp; [| vm_compute in Hp; discriminate].
  exists mma_configs, pool.
  vm_compute in Hc. injection Hc as <-.
  vm_compute in Hp. injection Hp as <-.
  split; [reflexivity |]. split; [reflexivity |]. split; [reflexivity |].
  split; [| vm_compute; reflexivity].
  repeat (apply Forall_cons_2;
          [split;
           [eexists; split; [reflexivity |]; split; [vm_compute; reflexivity |];
            eexists (take 3 (body (Mma.mma_function _))); do 2 eexists;
            split; [reflexivity |];
            split; [vm_compute; reflexivity |];
            split; [vm_compute; reflexivity |];
            split; [reflexivity |]; split; [reflexivity |];
            split; [| split];
            vm_compute; repeat (apply Forall_cons_2; [reflexivity |]); apply Forall_nil_2
           | vm_compute; reflexivity] |]).
  apply Forall_nil_2.
Qed.

(** ** The statement builder *)

Lemma pop_last_app {A : Type} (l : list A) (x : A) : pop_last (l ++ [x]) = Some (l, x).
Proof.
  induction l as [| y l IH]; [reflexivity |].
  cbn [app pop_last]. rewrite IH. destruct (l ++ [x]) eqn:E; [| reflexivity].
  destruct l; discriminate E.
Qed.

Lemma entered_nonempty loops top rest :
  exists inner outer, entered loops top rest = inner :: outer.
Proof.
  revert top rest. induction loops as [| [a s] loops IH]; intros top rest.
  - exists top, rest. reflexivity.
  - cbn [entered]. apply IH.
Qed.

Lemma enter_from (shape : list Expr) (axes : list Var) (n : nat) :
  forall off top rest nbm,
    (off + n <= length axes)%nat -> (off + n <= length shape)%nat ->
    forM (enter_step shape axes) (seq off n) (mkLoopExpander (top :: rest) nbm)
    = Ok (tt, mkLoopExpander
                (entered (zip (take n (drop off axes)) (take n (drop off shape))) top rest)
                nbm).
Proof.
  induction n as [| n IH]; intros off top rest nbm Ha Hs.
  - reflexivity.
  - destruct (lookup_lt_is_Some_2 axes off) as [a Hla]; [lia |].
    destruct (lookup_lt_is_Some_2 shape off) as [s Hls]; [lia |].
    rewrite (drop_S _ _ _ Hla), (drop_S _ _ _ Hls).
    cbn [seq forM take zip zip_with entered]. unfold bindM at 1.
    unfold enter_step at 1. rewrite Hla, Hls. cbn.
    apply IH; lia.
Qed.

Lemma zip_take_shape (shape : list Expr) (axes : list Var) :
  zip (take (length shape) axes) shape = zip axes shape.
Proof.
  revert axes. induction shape as [| s shape IH]; intros [| a axes]; try reflexivity.
  cbn. f_equal. apply IH.
Qed.

Lemma enter_loops_ok shape axes top rest nbm :
  (length shape <= length axes)%nat ->
  enter_loops shape axes (mkLoopExpander (top :: rest) nbm)
  = Ok (tt, mkLoopExpander (entered (zip axes shape) top rest) nbm).
Proof.
  intros Hlen. unfold enter_loops.
  change (fun i : nat => match axes !! i with
                         | Some axis =>
                             match shape !! i with
                             | Some extent => with_sb (sb_enter_body (ForStmt axis extent None))
                             | None => raise IndexError
                             end
                         | None => raise IndexError
                         end) with (enter_step shape axes).
  rewrite enter_from by (cbn; lia).
  rewrite !drop_0, firstn_all, zip_take_shape. reflexivity.
Qed.

Lemma enter_short (shape : list Expr) (axes : list Var) (n : nat) :
  forall off top rest nbm,
    (off <= length axes < off + n)%nat -> (off + n <= length shape)%nat ->
    forM (enter_step shape axes) (seq off n) (mkLoopExpander (top :: rest) nbm)
    = Raise IndexError.
Proof.
  induction n as [| n IH]; intros off top rest nbm Ha Hs; [lia |].
  cbn [seq forM]. unfold bindM at 1. unfold enter_step at 1.
  destruct (axes !! off) as [a |] eqn:Hla.
  - destruct (lookup_lt_is_Some_2 shape off) as [s Hls]; [lia |].
    rewrite Hls. cbn. apply IH; [| lia].
    apply lookup_lt_Some in Hla. lia.
  - reflexivity.
Qed.

Lemma enter_loops_short shape axes top rest nbm :
  (length axes < length shape)%nat ->
  enter_loops shape axes (mkLoopExpander (top :: rest) nbm) = Raise IndexError.
Proof.
  intros Hlen. unfold enter_loops.
  change (fun i : nat => match axes !! i with
                         | Some axis =>
                             match shape !! i with
                             | Some extent => with_sb (sb_enter_body (ForStmt axis extent None))
                             | None => raise IndexError
                             end
                         | None => raise IndexError
                         end) with (enter_step shape axes).
  apply enter_short; lia.
Qed.

Lemma forM_cons {A : Type} (f : A -> M unit) (x : A) (xs : list A) self :
  forM f (x :: xs) self
  = match f x self with
    | Ok (_, self') => forM f xs self'
    | Raise err => Raise err
    end.
Proof. reflexivity. Qed.

Lemma forM_const_last (m : M unit) (n : nat) :
  forall off self,
    forM (fun _ : nat => m) (seq off (S n)) self
    = match forM (fun _ : nat => m) (seq off n) self with
      | Ok (_, self') => m self'
      | Raise err => Raise err
      end.
Proof.
  induction n as [| n IH]; intros off self.
  - cbn [seq]. rewrite forM_cons. cbn.
    destruct (m self) as [[[] self'] |]; reflexivity.
  - change (seq off (S (S n))) with (off :: seq (S off) (S n)).
    change (seq off (S n)) with (off :: seq (S off) n).
    rewrite !forM_cons.
    destruct (m self) as [[[] self'] |]; [apply IH | reflexivity].
Qed.

Lemma exit_entered (loops : list (Var * Expr)) (body : list Stmt) nbm :
  forall top rest inner outer,
    entered loops top rest = inner :: outer ->
    forM (fun _ : nat => with_sb sb_exit_body) (seq 0 (length loops))
      (mkLoopExpander ((inner ++ body) :: outer) nbm)
    = Ok (tt, mkLoopExpander ((top ++ loop_nest loops body) :: rest) nbm).
Proof.
  induction loops as [| [a s] loops IH]; intros top rest inner outer He.
  - cbn in He. injection He as <- <-. reflexivity.
  - cbn [entered] in He. cbn [length]. rewrite forM_const_last.
    rewrite (IH _ _ _ _ He). cbn [app].
    unfold with_sb. cbn [sb sb_exit_body new_buffer_map].
    rewrite pop_last_app. reflexivity.
Qed.

(** ** [visit] does what [lowered] describes *)

Section Refinement.

Context `{ReduceInterface}.
Variable infer_type : Expr -> ScalarType.
Variable input_map : gmap NodeKey Var.

Abbreviation visit := (visit infer_type input_map).
Abbreviation lowered := (lowered infer_type input_map).
Abbreviation visit_as_lowered := (Lowering.visit_as_lowered infer_type input_map).

Lemma mapM_as_lowered (l : list Expr) :
  Forall visit_as_lowered l ->
  forall top rest nbm,
    mapM visit l (mkLoopExpander (top :: rest) nbm)
    = placed top rest (lowered_each lowered l nbm).
Proof.
  induction 1 as [| x l Hx _ IH]; intros top rest nbm.
  - cbn. rewrite app_nil_r. reflexivity.
  - cbn [mapM lowered_each]. unfold bindM at 1. rewrite Hx.
    destruct (lowered x nbm) as [[[y s1] nbm1] |]; [| reflexivity].
    cbn [placed]. unfold bindM at 1. rewrite IH.
    destruct (lowered_each lowered l nbm1) as [[[ys s2] nbm2] |]; [| reflexivity].
    cbn. rewrite app_assoc. reflexivity.
Qed.

Lemma length_loops (shape : list Expr) (axes : list Var) :
  (length shape <= length axes)%nat -> length (zip axes shape) = length shape.
Proof. intros Hlen. rewrite length_zip_with. lia. Qed.

(** The block [enter_loops; body; exit_loops] around a body that adds
    [new] to the innermost scope. *)
Lemma exit_loops_entered shape axes top rest inner outer body nbm :
  (length shape <= length axes)%nat ->
  entered (zip axes shape) top rest = inner :: outer ->
  exit_loops shape (mkLoopExpander ((inner ++ body) :: outer) nbm)
  = Ok (tt, mkLoopExpander ((top ++ loop_nest (zip axes shape) body) :: rest) nbm).
Proof.
  intros Hlen He. unfold exit_loops. rewrite <- (length_loops shape axes Hlen).
  apply exit_entered. exact He.
Qed.

Lemma loops_around_value {B : Type} shape axes value (mk_stmt : Expr -> Stmt)
    (cont : Expr -> M B) top rest nbm :
  visit_as_lowered value ->
  bindM (enter_loops shape axes)
    (fun _ => bindM (visit value)
       (fun expr => bindM (with_sb (sb_append (mk_stmt expr)))
          (fun _ => bindM (exit_loops shape) (fun _ => cont expr))))
    (mkLoopExpander (top :: rest) nbm)
  = if (length axes <? length shape)%nat then Raise IndexError
    else match lowered value nbm with
         | Ok (expr, inner, nbm1) =>
             cont expr
               (mkLoopExpander
                  ((top ++ loop_nest (zip axes shape) (inner ++ [mk_stmt expr])) :: rest)
                  nbm1)
         | Raise err => Raise err
         end.
Proof.
  intros IHv. unfold bindM at 1.
  destruct (length axes <? length shape)%nat eqn:Hlen.
  - apply Nat.ltb_lt in Hlen. rewrite enter_loops_short by exact Hlen. reflexivity.
  - apply Nat.ltb_ge in Hlen. rewrite enter_loops_ok by exact Hlen.
    destruct (entered_nonempty (zip axes shape) top rest) as (inner & outer & He).
    rewrite He. unfold bindM at 1. rewrite IHv.
    destruct (lowered value nbm) as [[[expr new] nbm1] |]; [| reflexivity].
    cbn [placed]. unfold bindM at 1.
    unfold with_sb at 1. cbn [sb sb_append new_buffer_map].
    rewrite <- app_assoc. unfold bindM at 1.
    rewrite (exit_loops_entered shape axes top rest inner outer _ nbm1 Hlen He).
    reflexivity.
Qed.

Ltac unary_case IH nbm :=
  cbn [Schedules.visit Schedules.lowered]; unfold bindM at 1; rewrite IH;
  destruct (lowered _ nbm) as [[[? ?] ?] |]; reflexivity.

Lemma visit_lowered (e : Expr) : visit_as_lowered e.
Proof.
  revert e. apply Expr_visit_ind.
  - intros v top rest nbm. cbn. rewrite app_nil_r. reflexivity.
  - intros value dt top rest nbm. cbn. rewrite app_nil_r. reflexivity.
  - intros op a b IHa IHb top rest nbm.
    cbn [Schedules.visit Schedules.lowered]. unfold bindM at 1. rewrite IHa.
    destruct (lowered a nbm) as [[[a' s1] nbm1] |]; [| reflexivity].
    cbn [placed]. unfold bindM at 1. rewrite IHb.
    destruct (lowered b nbm1) as [[[b' s2] nbm2] |]; [| reflexivity].
    cbn. rewrite app_assoc. reflexivity.
  - intros op a IHa top rest nbm. unary_case IHa nbm.
  - intros base indices IHb IHi top rest nbm.
    cbn [Schedules.visit Schedules.lowered]. unfold bindM at 1. rewrite IHb.
    destruct (lowered base nbm) as [[[b' s1] nbm1] |]; [| reflexivity].
    cbn [placed]. unfold bindM at 1. rewrite (mapM_as_lowered _ IHi).
    destruct (lowered_each lowered indices nbm1) as [[[i' s2] nbm2] |]; [| reflexivity].
    cbn. rewrite app_assoc. reflexivity.
  - intros c t f IHc IHt IHf top rest nbm.
    cbn [Schedules.visit Schedules.lowered]. unfold bindM at 1. rewrite IHc.
    destruct (lowered c nbm) as [[[c' s1] nbm1] |]; [| reflexivity].
    cbn [placed]. unfold bindM at 1. rewrite IHt.
    destruct (lowered t nbm1) as [[[t' s2] nbm2] |]; [| reflexivity].
    cbn [placed]. unfold bindM at 1. rewrite IHf.
    destruct (lowered f nbm2) as [[[f' s3] nbm3] |]; [| reflexivity].
    cbn. rewrite !app_assoc. reflexivity.
  - intros func_var args IHargs top rest nbm.
    cbn [Schedules.visit Schedules.lowered]. unfold bindM at 1.
    rewrite (mapM_as_lowered _ IHargs).
    destruct (lowered_each lowered args nbm) as [[[a' s1] nbm1] |]; reflexivity.
  - intros a target_type IHa top rest nbm. unary_case IHa nbm.
  - intros a IHa top rest nbm. unary_case IHa nbm.
  - intros a IHa top rest nbm. unary_case IHa nbm.
  - (* input tensor *)
    intros uid nm dt top rest nbm.
    cbn [Schedules.visit Schedules.lowered visit_TensorNode].
    destruct (input_map !! inl uid); cbn; [rewrite app_nil_r |]; reflexivity.
  - (* grid compute *)
    intros uid nm dt shape axes value IHv top rest nbm.
    cbn [Schedules.visit Schedules.lowered visit_TensorNode].
    unfold bindM at 1.
    destruct (input_map !! inl uid) as [buf |].
    + cbn [ret]. rewrite loops_around_value by exact IHv.
      destruct (length axes <? length shape)%nat; [reflexivity |].
      destruct (lowered value nbm) as [[[expr inner] nbm1] |]; reflexivity.
    + unfold bindM at 1. cbn [set_new_buffer sb new_buffer_map ret].
      rewrite loops_around_value by exact IHv.
      destruct (length axes <? length shape)%nat; [reflexivity |].
      destruct (lowered value _) as [[[expr inner] nbm1] |]; reflexivity.
  - intros uid nm dt type_name top rest nbm. reflexivity.
  - (* input scalar *)
    intros uid nm dt top rest nbm.
    cbn [Schedules.visit Schedules.lowered visit_ScalarNode].
    destruct (input_map !! inr uid); cbn; [rewrite app_nil_r |]; reflexivity.
  - (* reduce compute *)
    intros uid nm dt shape axes value op IHv top rest nbm.
    cbn [Schedules.visit Schedules.lowered visit_ScalarNode].
    unfold bindM at 1. cbn [set_new_buffer sb new_buffer_map].
    unfold bindM at 1. unfold with_sb at 1. cbn [sb sb_append new_buffer_map].
    rewrite loops_around_value by exact IHv.
    destruct (length axes <? length shape)%nat; [reflexivity |].
    destruct (lowered value _) as [[[expr inner] nbm1] |]; [| reflexivity].
    unfold write_back. unfold bindM at 1.
    destruct (input_map !! inr uid) as [input_var |].
    + unfold with_sb. cbn [sb sb_append new_buffer_map ret placed].
      rewrite <- !app_assoc. reflexivity.
    + cbn [ret placed]. rewrite app_nil_r, <- !app_assoc. reflexivity.
  - (* arg-reduce compute *)
    intros uid nm dt extent axis value op index_dtype IHv top rest nbm.
    cbn [Schedules.visit Schedules.lowered visit_ScalarNode].
    unfold bindM at 1. cbn [set_new_buffer sb new_buffer_map].
    do 3 (unfold bindM at 1; unfold with_sb at 1;
          cbn [sb sb_append sb_enter_body new_buffer_map bind]).
    unfold bindM at 1. rewrite IHv.
    destruct (lowered value _) as [[[expr inner] nbm1] |]; [| reflexivity].
    cbn [placed app].
    do 3 (unfold bindM at 1; unfold with_sb at 1;
          cbn [sb sb_append sb_enter_body new_buffer_map bind app]).
    unfold bindM at 1; unfold with_sb at 1. cbn [sb sb_exit_body new_buffer_map].
    rewrite pop_last_app.
    unfold bindM at 1; unfold with_sb at 1. cbn [sb sb_exit_body new_buffer_map].
    rewrite pop_last_app.
    unfold write_back. unfold bindM at 1.
    destruct (input_map !! inr uid) as [input_var |].
    + unfold with_sb. cbn [sb sb_append new_buffer_map ret placed].
      rewrite <- !app_assoc. reflexivity.
    + cbn [ret placed]. rewrite <- !app_assoc. reflexivity.
  - intros uid nm dt type_name top rest nbm. reflexivity.
Qed.

End Refinement.

Section LoweredFacts.

Context `{ReduceInterface}.
Variable infer_type : Expr -> ScalarType.
Variable input_map : gmap NodeKey Var.

Abbreviation visit := (visit infer_type input_map).
Abbreviation lowered := (lowered infer_type input_map).
Abbreviation expand := (expand infer_type input_map).
Abbreviation keys_fresh := (Lowering.keys_fresh input_map).
Abbreviation keeps_keys_fresh := (Lowering.keeps_keys_fresh input_map).

Lemma expand_lowered (e : Expr) :
  expand e = match lowered e ∅ with
             | Ok (value, new, nbm) => Ok (SeqStmt new, value, nbm)
             | Raise err => Raise err
             end.
Proof.
  unfold Schedules.expand. rewrite (visit_lowered infer_type input_map e).
  destruct (lowered e ∅) as [[[value new] nbm] |]; reflexivity.
Qed.

(** Lowering in a fresh builder shows the statements a value emits. *)
Lemma fresh_visit (e : Expr) nbm expr inner nbm1 :
  visit e (mkLoopExpander [[]] nbm) = Ok (expr, mkLoopExpander [inner] nbm1) ->
  lowered e nbm = Ok (expr, inner, nbm1).
Proof.
  rewrite (visit_lowered infer_type input_map e).
  destruct (lowered e nbm) as [[[v new] nbm'] |]; cbn; [| discriminate].
  intros Heq. injection Heq as -> -> ->. reflexivity.
Qed.

(** *** Expressions without compute nodes are left as they are *)

Lemma lowered_each_compute_free (l : list Expr) :
  Forall (fun e => compute_free e = true ->
                   forall nbm, lowered e nbm = Ok (e, [], nbm)) l ->
  forallb compute_free l = true ->
  forall nbm, lowered_each lowered l nbm = Ok (l, [], nbm).
Proof.
  induction 1 as [| x l Hx _ IH]; intros Hall nbm; [reflexivity |].
  cbn in Hall. apply andb_true_iff in Hall as [Hx' Hl].
  cbn [lowered_each]. rewrite (Hx Hx'), (IH Hl). reflexivity.
Qed.

Lemma lowered_compute_free (e : Expr) :
  compute_free e = true -> forall nbm, lowered e nbm = Ok (e, [], nbm).
Proof.
  elim e using Expr_visit_ind; clear e;
    try (intros; reflexivity); try (intros; discriminate).
  - intros op a b IHa IHb Hf nbm. cbn in Hf. apply andb_true_iff in Hf as [Ha Hb].
    cbn [Schedules.lowered]. rewrite (IHa Ha), (IHb Hb). reflexivity.
  - intros op a IHa Hf nbm. cbn [Schedules.lowered]. rewrite (IHa Hf). reflexivity.
  - intros base indices IHb IHi Hf nbm. cbn in Hf. apply andb_true_iff in Hf as [Hb Hi].
    cbn [Schedules.lowered].
    rewrite (IHb Hb), (lowered_each_compute_free _ IHi Hi). reflexivity.
  - intros c t f IHc IHt IHf Hf nbm. cbn in Hf.
    apply andb_true_iff in Hf as [Hf Hf3]. apply andb_true_iff in Hf as [Hf1 Hf2].
    cbn [Schedules.lowered]. rewrite (IHc Hf1), (IHt Hf2), (IHf Hf3). reflexivity.
  - intros func_var args IHargs Hf nbm. cbn in Hf.
    cbn [Schedules.lowered]. rewrite (lowered_each_compute_free _ IHargs Hf). reflexivity.
  - intros a target_type IHa Hf nbm. cbn [Schedules.lowered]. rewrite (IHa Hf). reflexivity.
  - intros a IHa Hf nbm. cbn [Schedules.lowered]. rewrite (IHa Hf). reflexivity.
  - intros a IHa Hf nbm. cbn [Schedules.lowered]. rewrite (IHa Hf). reflexivity.
Qed.

(** *** How a lowering call ends *)

Ltac close_outcome :=
  cbn in *;
  repeat match goal with
         | Hb : _ /\ _ |- _ => destruct Hb
         | Hb : _ = true |- _ => rewrite Hb
         | Hb : _ = false |- _ => rewrite Hb
         end;
  rewrite ?orb_true_r, ?andb_false_r; cbn; auto.

Ltac step_outcome IH nbm :=
  let err := fresh "err" in
  specialize (IH nbm);
  destruct (lowered _ nbm) as [[[? ?] ?] | err];
  [| destruct err; close_outcome].

Lemma lowered_each_outcome (l : list Expr) :
  Forall (fun e => forall nbm,
            outcome_explained (lowered e nbm) (has_unsupported e)
              (has_missing_input input_map e) (axes_cover_shape e)) l ->
  forall nbm,
    outcome_explained (lowered_each lowered l nbm) (existsb has_unsupported l)
      (existsb (has_missing_input input_map) l) (forallb axes_cover_shape l).
Proof.
  induction 1 as [| x l Hx _ IH]; intros nbm; [cbn; auto |].
  cbn [lowered_each existsb forallb]. specialize (Hx nbm).
  destruct (lowered x nbm) as [[[y s1] nbm1] | err].
  - destruct Hx as [-> ->]. specialize (IH nbm1).
    destruct (lowered_each lowered l nbm1) as [[[ys s2] nbm2] | err].
    + destruct IH as [-> ->]. cbn. auto.
    + destruct err; cbn in *; auto. rewrite IH. apply andb_false_r.
  - destruct err; cbn in *; auto; rewrite Hx; reflexivity.
Qed.

Lemma lowered_outcome (e : Expr) :
  forall nbm,
    outcome_explained (lowered e nbm) (has_unsupported e)
      (has_missing_input input_map e) (axes_cover_shape e).
Proof.
  elim e using Expr_visit_ind; clear e.
  - intros v nbm. cbn. auto.
  - intros value dt nbm. cbn. auto.
  - intros op a b IHa IHb nbm. cbn [Schedules.lowered has_unsupported
      has_missing_input axes_cover_shape].
    specialize (IHa nbm). destruct (lowered a nbm) as [[[a' s1] nbm1] | err].
    + destruct IHa as [-> ->]. specialize (IHb nbm1).
      destruct (lowered b nbm1) as [[[b' s2] nbm2] | err].
      * destruct IHb as [-> ->]. cbn. auto.
      * destruct err; cbn in *; auto. rewrite IHb. apply andb_false_r.
    + destruct err; cbn in *; auto; rewrite IHa; reflexivity.
  - intros op a IHa nbm. cbn [Schedules.lowered has_unsupported
      has_missing_input axes_cover_shape].
    specialize (IHa nbm). destruct (lowered a nbm) as [[[a' s1] nbm1] | err]; exact IHa.
  - intros base indices IHb IHi nbm. cbn [Schedules.lowered has_unsupported
      has_missing_input axes_cover_shape].
    step_outcome IHb nbm.
    pose proof (lowered_each_outcome _ IHi g) as Hi.
    destruct (lowered_each lowered indices g) as [[[? ?] ?] | err];
      [| destruct err]; close_outcome.
  - intros c t f IHc IHt IHf nbm. cbn [Schedules.lowered has_unsupported
      has_missing_input axes_cover_shape].
    step_outcome IHc nbm. step_outcome IHt g. step_outcome IHf g0. close_outcome.
  - intros func_var args IHargs nbm. cbn [Schedules.lowered has_unsupported
      has_missing_input axes_cover_shape].
    pose proof (lowered_each_outcome _ IHargs nbm) as Hi.
    destruct (lowered_each lowered args nbm) as [[[? ?] ?] | err];
      [| destruct err]; close_outcome.
  - intros a target_type IHa nbm. cbn [Schedules.lowered has_unsupported
      has_missing_input axes_cover_shape].
    specialize (IHa nbm). destruct (lowered a nbm) as [[[a' s1] nbm1] | err]; exact IHa.
  - intros a IHa nbm. cbn [Schedules.lowered has_unsupported
      has_missing_input axes_cover_shape].
    specialize (IHa nbm). destruct (lowered a nbm) as [[[a' s1] nbm1] | err]; exact IHa.
  - intros a IHa nbm. cbn [Schedules.lowered has_unsupported
      has_missing_input axes_cover_shape].
    specialize (IHa nbm). destruct (lowered a nbm) as [[[a' s1] nbm1] | err]; exact IHa.
  - intros uid nm dt nbm. cbn [Schedules.lowered has_unsupported
      has_missing_input axes_cover_shape].
    destruct (input_map !! inl uid); cbn; auto.
  - intros uid nm dt shape axes value IHv nbm. cbn [Schedules.lowered has_unsupported
      has_missing_input axes_cover_shape].
    destruct (input_map !! inl uid) as [buf |];
      (destruct (length axes <? length shape)%nat eqn:Hlen;
       [apply Nat.ltb_lt in Hlen; cbn;
        apply andb_false_iff; left; apply Nat.leb_gt; exact Hlen |]);
      match goal with |- context [lowered value ?m] => step_outcome IHv m end;
      close_outcome.
  - intros uid nm dt type_name nbm. reflexivity.
  - intros uid nm dt nbm. cbn [Schedules.lowered has_unsupported
      has_missing_input axes_cover_shape].
    destruct (input_map !! inr uid); cbn; auto.
  - intros uid nm dt shape axes value op IHv nbm. cbn [Schedules.lowered has_unsupported
      has_missing_input axes_cover_shape].
    destruct (length axes <? length shape)%nat eqn:Hlen;
      [apply Nat.ltb_lt in Hlen; cbn;
       apply andb_false_iff; left; apply Nat.leb_gt; exact Hlen |].
    match goal with |- context [lowered value ?m] => step_outcome IHv m end.
    close_outcome.
  - intros uid nm dt extent axis value op index_dtype IHv nbm.
    cbn [Schedules.lowered has_unsupported has_missing_input axes_cover_shape].
    match goal with |- context [lowered value ?m] => step_outcome IHv m end.
    close_outcome.
  - intros uid nm dt type_name nbm. reflexivity.
Qed.

(** *** Which nodes receive fresh storage *)

Lemma keys_fresh_refl nbm : keys_fresh nbm nbm.
Proof. split; [reflexivity | auto]. Qed.

Lemma keys_fresh_trans nbm1 nbm2 nbm3 :
  keys_fresh nbm1 nbm2 -> keys_fresh nbm2 nbm3 -> keys_fresh nbm1 nbm3.
Proof.
  intros [Hs1 Hk1] [Hs2 Hk2]. split; [set_solver |].
  intros uid Hin. destruct (Hk2 uid Hin) as [Hin2 | Hn]; auto.
Qed.

Lemma keys_fresh_scalar nbm uid acc : keys_fresh nbm (<[inr uid := acc]> nbm).
Proof.
  split; [set_solver |]. intros uid' Hin. left.
  rewrite dom_insert in Hin. set_solver.
Qed.

Lemma keys_fresh_tensor nbm uid buf :
  input_map !! inl uid = None -> keys_fresh nbm (<[inl uid := buf]> nbm).
Proof.
  intros Hnone. split; [set_solver |]. intros uid' Hin.
  rewrite dom_insert in Hin. apply elem_of_union in Hin as [Hin | Hin]; [| auto].
  apply elem_of_singleton in Hin. simplify_eq. auto.
Qed.

Lemma lowered_each_keys (l : list Expr) :
  Forall (fun e => keeps_keys_fresh (lowered e)) l ->
  keeps_keys_fresh (lowered_each lowered l).
Proof.
  induction 1 as [| x l Hx _ IH]; intros nbm a s nbm' Heq.
  - cbn in Heq. injection Heq as <- <- <-. apply keys_fresh_refl.
  - cbn [lowered_each] in Heq.
    destruct (lowered x nbm) as [[[y s1] nbm1] |] eqn:E1; [| discriminate].
    destruct (lowered_each lowered l nbm1) as [[[ys s2] nbm2] |] eqn:E2; [| discriminate].
    injection Heq as <- <- <-.
    eapply keys_fresh_trans; [eapply Hx | eapply IH]; eassumption.
Qed.

Ltac keys_step :=
  match goal with
  | Heq : match Schedules.lowered ?it ?im ?e ?m with _ => _ end = Ok _ |- _ =>
      let E := fresh "E" in
      destruct (Schedules.lowered it im e m) as [[[? ?] ?] |] eqn:E; [| discriminate Heq]
  | Heq : match lowered_each ?f ?l ?m with _ => _ end = Ok _ |- _ =>
      let E := fresh "E" in
      destruct (lowered_each f l m) as [[[? ?] ?] |] eqn:E; [| discriminate Heq]
  end.

Ltac keys_close :=
  match goal with
  | Heq : Ok _ = Ok _ |- _ => injection Heq as <- <- <-
  end;
  repeat first
    [ apply keys_fresh_refl
    | eassumption
    | match goal with
      | IH : keeps_keys_fresh ?f, E : ?f ?m = Ok (_, _, ?m') |- keys_fresh ?m ?m' =>
          exact (IH _ _ _ _ E)
      | IH : keeps_keys_fresh ?f, E : ?f ?m = Ok (_, _, ?m') |- keys_fresh _ ?m' =>
          apply (keys_fresh_trans _ m); [| exact (IH _ _ _ _ E)]
      end ].

Lemma lowered_keys (e : Expr) : keeps_keys_fresh (lowered e).
Proof.
  elim e using Expr_visit_ind; clear e.
  - intros v nbm a s nbm' Heq. cbn in Heq. keys_close.
  - intros value dt nbm a s nbm' Heq. cbn in Heq. keys_close.
  - intros op a b IHa IHb nbm r s nbm' Heq. cbn [Schedules.lowered] in Heq.
    repeat keys_step. keys_close.
  - intros op a IHa nbm r s nbm' Heq. cbn [Schedules.lowered] in Heq.
    repeat keys_step. keys_close.
  - intros base indices IHb IHi nbm r s nbm' Heq. cbn [Schedules.lowered] in Heq.
    apply lowered_each_keys in IHi.
    repeat keys_step. keys_close.
  - intros c t f IHc IHt IHf nbm r s nbm' Heq. cbn [Schedules.lowered] in Heq.
    repeat keys_step. keys_close.
  - intros func_var args IHargs nbm r s nbm' Heq. cbn [Schedules.lowered] in Heq.
    apply lowered_each_keys in IHargs.
    repeat keys_step. keys_close.
  - intros a target_type IHa nbm r s nbm' Heq. cbn [Schedules.lowered] in Heq.
    repeat keys_step. keys_close.
  - intros a IHa nbm r s nbm' Heq. cbn [Schedules.lowered] in Heq.
    repeat keys_step. keys_close.
  - intros a IHa nbm r s nbm' Heq. cbn [Schedules.lowered] in Heq.
    repeat keys_step. keys_close.
  - intros uid nm dt nbm r s nbm' Heq. cbn [Schedules.lowered] in Heq.
    destruct (input_map !! inl uid); [| discriminate]. keys_close.
  - intros uid nm dt shape axes value IHv nbm r s nbm' Heq.
    cbn [Schedules.lowered] in Heq.
    destruct (input_map !! inl uid) as [buf |] eqn:Hin;
      (destruct (length axes <? length shape)%nat; [discriminate |]);
      repeat keys_step.
    + keys_close.
    + injection Heq as <- <- <-.
      eapply keys_fresh_trans; [apply keys_fresh_tensor; exact Hin | eapply IHv; eassumption].
  - intros uid nm dt type_name nbm r s nbm' Heq. discriminate.
  - intros uid nm dt nbm r s nbm' Heq. cbn [Schedules.lowered] in Heq.
    destruct (input_map !! inr uid); [| discriminate]. keys_close.
  - intros uid nm dt shape axes value op IHv nbm r s nbm' Heq.
    cbn [Schedules.lowered] in Heq.
    destruct (length axes <? length shape)%nat; [discriminate |].
    repeat keys_step. injection Heq as <- <- <-.
    eapply keys_fresh_trans; [apply keys_fresh_scalar | eapply IHv; eassumption].
  - intros uid nm dt extent axis value op index_dtype IHv nbm r s nbm' Heq.
    cbn [Schedules.lowered] in Heq.
    repeat keys_step. injection Heq as <- <- <-.
    eapply keys_fresh_trans; [apply keys_fresh_scalar | eapply IHv; eassumption].
  - intros uid nm dt type_name nbm r s nbm' Heq. discriminate.
Qed.

End LoweredFacts.

(** ** The storage of the nodes a lowering reaches *)

Lemma occurs_app_l (s : Stmt) (l1 l2 : list Stmt) :
  In s (flat_map sub_stmts l1) -> In s (flat_map sub_stmts (l1 ++ l2)).
Proof. intros Hin. rewrite flat_map_app. apply in_or_app. left. exact Hin. Qed.

Lemma occurs_app_r (s : Stmt) (l1 l2 : list Stmt) :
  In s (flat_map sub_stmts l2) -> In s (flat_map sub_stmts (l1 ++ l2)).
Proof. intros Hin. rewrite flat_map_app. apply in_or_app. right. exact Hin. Qed.

Lemma occurs_here (s : Stmt) (l : list Stmt) :
  In s l -> In s (flat_map sub_stmts l).
Proof.
  intros Hin. apply in_flat_map. exists s. split; [exact Hin |].
  destruct s; left; reflexivity.
Qed.

Lemma occurs_cons (s x : Stmt) (l : list Stmt) :
  In s (flat_map sub_stmts l) -> In s (flat_map sub_stmts (x :: l)).
Proof. intros Hin. cbn [flat_map]. apply in_or_app. right. exact Hin. Qed.

Lemma occurs_loop_nest (s : Stmt) (loops : list (Var * Expr)) (body : list Stmt) :
  In s (flat_map sub_stmts body) -> In s (flat_map sub_stmts (loop_nest loops body)).
Proof.
  induction loops as [| [axis extent] loops IH]; intros Hin; [exact Hin |].
  cbn [loop_nest flat_map sub_stmts]. rewrite app_nil_r.
  right. right. apply IH. exact Hin.
Qed.

Lemma occurs_for (s : Stmt) (axis : Var) (extent : Expr) (body : list Stmt) :
  In s (flat_map sub_stmts body) ->
  In s (sub_stmts (ForStmt axis extent (Some (SeqStmt body)))).
Proof. intros Hin. cbn [sub_stmts]. right. right. exact Hin. Qed.

Section Storage.

Context `{ReduceInterface}.
Variable infer_type : Expr -> ScalarType.
Variable input_map : gmap NodeKey Var.

Abbreviation lowered := (lowered infer_type input_map).
Abbreviation emitted := (Lowering.emitted infer_type input_map).

Abbreviation records := (Lowering.records_storage infer_type input_map).
Abbreviation lowering_records := (Lowering.lowering_records infer_type input_map).

Lemma emitted_mono (n : Expr) (new new' : list Stmt) :
  (forall s, In s (flat_map sub_stmts new) -> In s (flat_map sub_stmts new')) ->
  emitted n new -> emitted n new'.
Proof.
  intros Hsub. destruct n as [| | | | | | | | | | uid nm dt [[shape axes value | tn] |]
                              | uid nm dt [[shape axes value op
                                           | extent axis value op index_dtype | tn] |]];
    cbn [Lowering.emitted]; try (intros; exact I).
  - intros [expr Hin]. exists expr. apply Hsub. exact Hin.
  - intros [Hinit Hback]. split; [apply Hsub; exact Hinit |].
    intros input_var Hmap. apply Hsub. apply Hback. exact Hmap.
  - intros [Hinit Hback]. split; [apply Hsub; exact Hinit |].
    intros input_var Hmap. apply Hsub. apply Hback. exact Hmap.
Qed.

Lemma records_nil (nbm : gmap NodeKey Var) : records [] nbm [] nbm.
Proof.
  split; [| split].
  - intros key var Hl. left. exact Hl.
  - intros n key var [].
  - intros n [].
Qed.

Lemma records_app ns1 ns2 nbm s1 nbm1 s2 nbm2 :
  records ns1 nbm s1 nbm1 -> records ns2 nbm1 s2 nbm2 -> dom nbm1 ⊆ dom nbm2 ->
  records (ns1 ++ ns2) nbm (s1 ++ s2) nbm2.
Proof.
  intros (A1 & B1 & C1) (A2 & B2 & C2) Hdom. split; [| split].
  - intros key var Hl. destruct (A2 key var Hl) as [Hl1 | (n & Hn & Hk & Hf)].
    + destruct (A1 key var Hl1) as [Hl0 | (n & Hn & Hk & Hf)]; [left; exact Hl0 |].
      right. exists n. split; [apply in_or_app; left; exact Hn | tauto].
    + right. exists n. split; [apply in_or_app; right; exact Hn | tauto].
  - intros n key var Hn Hk Hf Hnone. apply in_app_or in Hn as [Hn | Hn].
    + apply Hdom. eapply B1; eassumption.
    + eapply B2; eassumption.
  - intros n Hn. apply in_app_or in Hn as [Hn | Hn].
    + eapply emitted_mono; [| apply C1; exact Hn]. intros s. apply occurs_app_l.
    + eapply emitted_mono; [| apply C2; exact Hn]. intros s. apply occurs_app_r.
Qed.

(** A compute node: its own storage is recorded in [nbm0], its value is
    lowered inside, and its statements [new] hold those of the value. *)
Lemma records_node (n : Expr) ns nbm nbm0 inner nbm1 new :
  records ns nbm0 inner nbm1 ->
  dom nbm0 ⊆ dom nbm1 ->
  (forall key var, nbm0 !! key = Some var ->
     nbm !! key = Some var
     \/ (node_key n = Some key /\ fresh_storage infer_type n = Some var)) ->
  (forall key var, node_key n = Some key -> fresh_storage infer_type n = Some var ->
     (forall uid : positive, key = inl uid -> input_map !! key = None) ->
     key ∈ dom nbm0) ->
  (forall s, In s (flat_map sub_stmts inner) -> In s (flat_map sub_stmts new)) ->
  emitted n new ->
  records (n :: ns) nbm new nbm1.
Proof.
  intros (A & B & C) Hdom Hown Hin Hsub Hn. split; [| split].
  - intros key var Hl. destruct (A key var Hl) as [Hl0 | (n' & Hn' & Hk & Hf)].
    + destruct (Hown key var Hl0) as [Hl1 | [Hk Hf]]; [left; exact Hl1 |].
      right. exists n. split; [left; reflexivity | tauto].
    + right. exists n'. split; [right; exact Hn' | tauto].
  - intros n' key var [<- | Hn'] Hk Hf Hnone.
    + apply Hdom. eapply Hin; eassumption.
    + eapply B; eassumption.
  - intros n' [<- | Hn']; [exact Hn |].
    eapply emitted_mono; [exact Hsub | apply C; exact Hn'].
Qed.

Lemma lowered_each_records (l : list Expr) :
  Forall lowering_records l ->
  forall nbm vs new nbm',
    lowered_each lowered l nbm = Ok (vs, new, nbm') ->
    records (flat_map reached l) nbm new nbm'.
Proof.
  induction 1 as [| x l Hx _ IH]; intros nbm vs new nbm' Heq.
  - cbn in Heq. injection Heq as <- <- <-. apply records_nil.
  - cbn [lowered_each] in Heq.
    destruct (lowered x nbm) as [[[y s1] nbm1] |] eqn:E1; [| discriminate].
    destruct (lowered_each lowered l nbm1) as [[[ys s2] nbm2] |] eqn:E2; [| discriminate].
    injection Heq as <- <- <-. cbn [flat_map].
    apply (records_app _ _ _ _ nbm1); [exact (Hx _ _ _ _ E1) | exact (IH _ _ _ _ E2) |].
    assert (Hk : keeps_keys_fresh input_map (lowered_each lowered l)).
    { apply lowered_each_keys. apply Forall_forall. intros e _. apply lowered_keys. }
    exact (proj1 (Hk _ _ _ _ E2)).
Qed.

Lemma lowered_dom (e : Expr) nbm v new nbm' :
  lowered e nbm = Ok (v, new, nbm') -> dom nbm ⊆ dom nbm'.
Proof. intros E. exact (proj1 (lowered_keys infer_type input_map e _ _ _ _ E)). Qed.

Lemma lowered_each_dom (l : list Expr) nbm vs new nbm' :
  lowered_each lowered l nbm = Ok (vs, new, nbm') -> dom nbm ⊆ dom nbm'.
Proof.
  intros E.
  assert (Hk : keeps_keys_fresh input_map (lowered_each lowered l)).
  { apply lowered_each_keys. apply Forall_forall. intros e _. apply lowered_keys. }
  exact (proj1 (Hk _ _ _ _ E)).
Qed.

Ltac lower_one :=
  match goal with
  | Heq : match Schedules.lowered _ _ ?e ?m with _ => _ end = Ok _ |- _ =>
      let E := fresh "E" in
      destruct (Schedules.lowered infer_type input_map e m) as [[[? ?] ?] |] eqn:E;
      [| discriminate Heq]
  | Heq : match lowered_each _ ?l ?m with _ => _ end = Ok _ |- _ =>
      let E := fresh "E" in
      destruct (lowered_each (Schedules.lowered infer_type input_map) l m)
        as [[[? ?] ?] |] eqn:E;
      [| discriminate Heq]
  end.

Lemma lowered_records (e : Expr) : lowering_records e.
Proof.
  elim e using Expr_visit_ind; clear e; unfold Lowering.lowering_records.
  - intros v0 nbm v new nbm' Heq. cbn in Heq. injection Heq as <- <- <-. apply records_nil.
  - intros value dt nbm v new nbm' Heq. cbn in Heq. injection Heq as <- <- <-.
    apply records_nil.
  - intros op a b IHa IHb nbm v new nbm' Heq. cbn [Schedules.lowered] in Heq.
    repeat lower_one. injection Heq as <- <- <-. cbn [reached].
    eapply records_app; [eapply IHa | eapply IHb | eapply lowered_dom]; eassumption.
  - intros op a IHa nbm v new nbm' Heq. cbn [Schedules.lowered] in Heq.
    lower_one. injection Heq as <- <- <-. cbn [reached]. eapply IHa; eassumption.
  - intros base indices IHb IHi nbm v new nbm' Heq. cbn [Schedules.lowered] in Heq.
    repeat lower_one. injection Heq as <- <- <-. cbn [reached].
    eapply records_app;
      [eapply IHb | eapply lowered_each_records | eapply lowered_each_dom]; eassumption.
  - intros c t f IHc IHt IHf nbm v new nbm' Heq. cbn [Schedules.lowered] in Heq.
    repeat lower_one. injection Heq as <- <- <-. cbn [reached].
    eapply records_app; [eapply IHc; eassumption | |].
    + eapply records_app; [eapply IHt | eapply IHf | eapply lowered_dom]; eassumption.
    + etransitivity; eapply lowered_dom; eassumption.
  - intros func_var args IHargs nbm v new nbm' Heq. cbn [Schedules.lowered] in Heq.
    lower_one. injection Heq as <- <- <-. cbn [reached].
    eapply lowered_each_records; eassumption.
  - intros a target_type IHa nbm v new nbm' Heq. cbn [Schedules.lowered] in Heq.
    lower_one. injection Heq as <- <- <-. cbn [reached]. eapply IHa; eassumption.
  - intros a IHa nbm v new nbm' Heq. cbn [Schedules.lowered] in Heq.
    lower_one. injection Heq as <- <- <-. cbn [reached]. eapply IHa; eassumption.
  - intros a IHa nbm v new nbm' Heq. cbn [Schedules.lowered] in Heq.
    lower_one. injection Heq as <- <- <-. cbn [reached]. eapply IHa; eassumption.
  - (* input tensor *)
    intros uid nm dt nbm v new nbm' Heq. cbn [Schedules.lowered] in Heq.
    destruct (input_map !! inl uid); [| discriminate]. injection Heq as <- <- <-.
    cbn [reached]. apply (records_node _ [] nbm nbm [] nbm []);
      [apply records_nil | reflexivity | auto | | auto | exact I].
    intros key var _ Hf. discriminate Hf.
  - (* Grid *)
    intros uid nm dt shape axes value IHv nbm v new nbm' Heq.
    cbn [Schedules.lowered] in Heq. cbn [reached].
    destruct (input_map !! inl uid) as [buf |] eqn:Hmap;
      (destruct (length axes <? length shape)%nat; [discriminate |]);
      lower_one; injection Heq as <- <- <-.
    + eapply records_node;
        [eapply IHv; eassumption | eapply lowered_dom; eassumption | auto | | |].
      * intros key var Hk _ Hnone. cbn in Hk. injection Hk as <-.
        rewrite (Hnone uid eq_refl) in Hmap. discriminate Hmap.
      * intros s Hs. apply occurs_loop_nest, occurs_app_l. exact Hs.
      * cbn [Lowering.emitted]. rewrite Hmap. cbn [default]. eexists.
        apply occurs_loop_nest, occurs_app_r. left. reflexivity.
    + eapply records_node;
        [eapply IHv; eassumption | eapply lowered_dom; eassumption | | | |].
      * intros key var Hl. destruct (decide (key = inl uid)) as [-> | Hne].
        -- rewrite lookup_insert_eq in Hl. injection Hl as <-. right. split; reflexivity.
        -- rewrite lookup_insert_ne in Hl by congruence. left. exact Hl.
      * intros key var Hk _ _. cbn in Hk. injection Hk as <-.
        rewrite dom_insert. set_solver.
      * intros s Hs. apply occurs_loop_nest, occurs_app_l. exact Hs.
      * cbn [Lowering.emitted]. rewrite Hmap. cbn [default]. eexists.
        apply occurs_loop_nest, occurs_app_r. left. reflexivity.
  - intros uid nm dt type_name nbm v new nbm' Heq. discriminate.
  - (* input scalar *)
    intros uid nm dt nbm v new nbm' Heq. cbn [Schedules.lowered] in Heq.
    destruct (input_map !! inr uid); [| discriminate]. injection Heq as <- <- <-.
    cbn [reached]. apply (records_node _ [] nbm nbm [] nbm []);
      [apply records_nil | reflexivity | auto | | auto | exact I].
    intros key var _ Hf. discriminate Hf.
  - (* Reduce *)
    intros uid nm dt shape axes value op IHv nbm v new nbm' Heq.
    cbn [Schedules.lowered] in Heq. cbn [reached].
    destruct (length axes <? length shape)%nat; [discriminate |].
    lower_one. injection Heq as <- <- <-.
    eapply records_node;
      [eapply IHv; eassumption | eapply lowered_dom; eassumption | | | |].
    + intros key var Hl. destruct (decide (key = inr uid)) as [-> | Hne].
      * rewrite lookup_insert_eq in Hl. injection Hl as <-. right. split; reflexivity.
      * rewrite lookup_insert_ne in Hl by congruence. left. exact Hl.
    + intros key var Hk _ _. cbn in Hk. injection Hk as <-.
      rewrite dom_insert. set_solver.
    + intros s Hs. apply occurs_cons, occurs_app_l, occurs_loop_nest, occurs_app_l.
      exact Hs.
    + cbn [Lowering.emitted]. split.
      * apply occurs_here. left. reflexivity.
      * intros input_var Hmap. apply occurs_cons, occurs_app_r, occurs_here.
        unfold write_back. rewrite Hmap. left. reflexivity.
  - (* ArgReduce *)
    intros uid nm dt extent axis value op index_dtype IHv nbm v new nbm' Heq.
    cbn [Schedules.lowered] in Heq. cbn [reached].
    lower_one. injection Heq as <- <- <-.
    eapply records_node;
      [eapply IHv; eassumption | eapply lowered_dom; eassumption | | | |].
    + intros key var Hl. destruct (decide (key = inr uid)) as [-> | Hne].
      * rewrite lookup_insert_eq in Hl. injection Hl as <-. right. split; reflexivity.
      * rewrite lookup_insert_ne in Hl by congruence. left. exact Hl.
    + intros key var Hk _ _. cbn in Hk. injection Hk as <-.
      rewrite dom_insert. set_solver.
    + intros s Hs. apply occurs_cons, occurs_cons. cbn [flat_map].
      apply in_or_app. left. apply occurs_for, occurs_app_l. exact Hs.
    + cbn [Lowering.emitted]. split.
      * apply occurs_here. right. left. reflexivity.
      * intros input_var Hmap. apply occurs_here. do 3 right.
        unfold write_back. rewrite Hmap. left. reflexivity.
  - intros uid nm dt type_name nbm v new nbm' Heq. discriminate.
Qed.

End Storage.

Section Claims.

Context `{ReduceInterface}.
Variable infer_type : Expr -> ScalarType.
Variable input_map : gmap NodeKey Var.

Abbreviation visit := (visit infer_type input_map).
Abbreviation lowered := (lowered infer_type input_map).
Abbreviation expand := (expand infer_type input_map).

Lemma expand_grid uid nm dt shape axes value expr inner nbm1 :
  length axes = length shape ->
  let buf := default (mkVar nm dt) (input_map !! inl uid) in
  let nbm0 : gmap NodeKey Var :=
    match input_map !! inl uid with Some _ => ∅ | None => {[inl uid := buf]} end in
  visit value (mkLoopExpander [[]] nbm0) = Ok (expr, mkLoopExpander [inner] nbm1) ->
  expand (TensorNode uid nm dt (Some (GridCompute shape axes value)))
  = Ok (SeqStmt (loop_nest (zip axes shape)
                   (inner ++ [BufferStoreStmt buf (map EVar axes) expr])),
        EVar buf, nbm1).
Proof.
  intros Hlen buf nbm0 Hv. apply fresh_visit in Hv.
  rewrite expand_lowered. cbn [Schedules.lowered].
  subst buf nbm0. destruct (input_map !! inl uid) as [b |]; cbn [default] in *;
    (replace (length axes <? length shape)%nat with false
      by (symmetry; apply Nat.ltb_ge; lia)).
  - rewrite Hv. reflexivity.
  - rewrite insert_empty, Hv. reflexivity.
Qed.

(** C2 (as the code has it): for a Reduce node, [expand] allocates one
    accumulator typed to the inferred type of the value, initializes it to
    the operation's identity for the node's declared data type (by name),
    emits one loop per reduction axis, outermost first, whose innermost body
    lowers the value and updates the accumulator with [combine], finalizes
    with the product of the reduction-dimension sizes, stores the finalized
    value into the node's [input_map] entry when there is one, and returns
    the finalized accumulator. *)
Theorem C2_reduce_compute uid nm (dt : ScalarType) shape axes value op
    expr inner nbm1 :
  let e := ScalarNode uid nm dt (Some (ReduceCompute shape axes value op)) in
  let acc := scalar_var nm (infer_type value) in
  let result := finalize op (EVar acc) (prod shape) in
  length axes = length shape ->
  visit value (mkLoopExpander [[]] {[inr uid := acc]})
  = Ok (expr, mkLoopExpander [inner] nbm1) ->
  expand e
  = Ok (SeqStmt
          ([AssignStmt acc (initial_value op (ByName (name dt)))]
           ++ loop_nest (zip axes shape)
                (inner ++ [AssignStmt acc (combine op (EVar acc) expr)])
           ++ match input_map !! inr uid with
              | Some input_var => [AssignStmt input_var result]
              | None => []
              end),
        result, nbm1)
  /\ var_type acc = TScalar (infer_type value)
  /\ length (zip axes shape) = length shape
  /\ forall dims read call env,
       shape = map convert dims ->
       Semantics.eval read call env (prod shape) = Semantics.extent_product dims.
Proof.
  intros e acc result Hlen Hv. apply fresh_visit in Hv.
  split; [| split; [reflexivity | split]].
  - subst e. rewrite expand_lowered. cbn [Schedules.lowered].
    replace (length axes <? length shape)%nat with false
      by (symmetry; apply Nat.ltb_ge; lia).
    rewrite insert_empty. fold acc. rewrite Hv. reflexivity.
  - apply length_loops. lia.
  - intros dims read call env ->. unfold prod, Semantics.extent_product.
    destruct dims as [| d dims]; [reflexivity |].
    cbn [map fold_right].
    assert (Hgen : forall (l : list Z) (acc0 : Expr),
               Semantics.eval read call env
                 (fold_left (BinaryExpr Multiply) (map convert l) acc0)
               = Semantics.eval read call env acc0 * fold_right Z.mul 1 l).
    { induction l as [| x l IH]; intros acc0; cbn [map fold_left fold_right]; [lia |].
      rewrite IH. cbn. lia. }
    rewrite Hgen. reflexivity.
Qed.

(** C3: for an ArgReduce node, [expand] allocates a best-value accumulator
    typed to the inferred type of the value and a best-index accumulator
    typed to the declared index type, initializes the first to the
    operation's identity and the second to zero, emits a single loop over the
    reduction axis whose body lowers the value and, guarded by the
    operation's comparison of (candidate, best value), sets both accumulators
    to the candidate and the axis position, stores the best index into the
    node's [input_map] entry when there is one, and returns the best-index
    accumulator. *)
Theorem C3_arg_reduce_compute uid nm (dt : ScalarType) extent axis value op index_dtype
    expr inner nbm1 :
  let e := ScalarNode uid nm dt
             (Some (ArgReduceCompute extent axis value op index_dtype)) in
  let acc_index := scalar_var (nm +:+ "_idx") index_dtype in
  let acc_value := scalar_var (nm +:+ "_val") (infer_type value) in
  visit value (mkLoopExpander [[]] {[inr uid := acc_index]})
  = Ok (expr, mkLoopExpander [inner] nbm1) ->
  expand e
  = Ok (SeqStmt
          ([DeclareStmt acc_value (Some (initial_value op (ByType (infer_type value))));
            AssignStmt acc_index (convert 0);
            ForStmt axis extent
              (Some (SeqStmt
                 (inner ++
                  [IfStmt (arg_combine op expr (EVar acc_value))
                     (Some (SeqStmt [AssignStmt acc_value expr;
                                     AssignStmt acc_index (EVar axis)]))
                     None])))]
           ++ match input_map !! inr uid with
              | Some input_var => [AssignStmt input_var (EVar acc_index)]
              | None => []
              end),
        EVar acc_index, nbm1)
  /\ var_type acc_value = TScalar (infer_type value)
  /\ var_type acc_index = TScalar index_dtype.
Proof.
  intros e acc_index acc_value Hv. apply fresh_visit in Hv.
  split; [| split; reflexivity].
  subst e. rewrite expand_lowered. cbn [Schedules.lowered].
  rewrite insert_empty. fold acc_index. rewrite Hv. reflexivity.
Qed.

(** C8 (as the code has it): a lowering call that reaches a compute node
    whose variant is outside Grid, Reduce and ArgReduce, or an input node
    without an entry in [input_map], fails: with [NotImplementedError] only
    if an unsupported variant is reached, with [KeyError] only if an input
    without entry is reached; and when neither is reached (every Grid and
    Reduce node having an axis per dimension) [expand] returns. *)
Theorem C8_expand_failure (e : Expr) :
  axes_cover_shape e = true ->
  (has_unsupported e = false /\ has_missing_input input_map e = false
   <-> exists r, expand e = Ok r)
  /\ (has_unsupported e = true \/ has_missing_input input_map e = true
      <-> exists err, expand e = Raise err)
  /\ (forall msg, expand e = Raise (NotImplementedError msg) -> has_unsupported e = true)
  /\ (forall key, expand e = Raise (KeyError key) -> has_missing_input input_map e = true)
  /\ (forall err, expand e = Raise err ->
      (exists msg, err = NotImplementedError msg) \/ (exists key, err = KeyError key)).
Proof.
  intros Hcover. rewrite expand_lowered.
  pose proof (lowered_outcome infer_type input_map e ∅) as Ho.
  rewrite Hcover in Ho.
  destruct (lowered e ∅) as [[[v s] nbm] | err].
  - destruct Ho as [Hu Hm]. rewrite Hu, Hm.
    split; [| split; [| split; [| split]]].
    + split; [eauto | auto].
    + split; [intros [Hx | Hx]; discriminate | intros [err Hx]; discriminate].
    + intros msg Hx. discriminate.
    + intros key Hx. discriminate.
    + intros err Hx. discriminate.
  - destruct err; cbn in Ho; try contradiction; try discriminate.
    + split; [| split; [| split; [| split]]].
      * rewrite Ho. split; [intros [Hx _]; discriminate | intros [r Hx]; discriminate].
      * split; [eauto | auto].
      * auto.
      * intros key Hx. discriminate.
      * intros err Hx. injection Hx as <-. eauto.
    + split; [| split; [| split; [| split]]].
      * rewrite Ho. split; [intros [_ Hx]; discriminate | intros [r Hx]; discriminate].
      * split; [eauto | auto].
      * intros m Hx. discriminate.
      * auto.
      * intros err Hx. injection Hx as <-. eauto.
Qed.

(** C9 (as the code has it): the tensor nodes of [new_buffer_map] are absent
    from [input_map].  Every Grid node the lowering reaches, at the root or
    nested in a value, that has an entry in [input_map] is stored into that
    supplied storage (which is its handle) and gets no entry in
    [new_buffer_map]; one without an entry is stored into its fresh buffer,
    which is recorded.  Every reached Reduce or ArgReduce node has an entry
    in [new_buffer_map] whether or not [input_map] has one for it, its fresh
    accumulator is the variable the statements initialize, and when
    [input_map] has an entry the result is also assigned to the variable
    supplied.  Every entry of [new_buffer_map] is the fresh storage of a
    reached node under that node's key; when no two reached nodes share a
    key, each node's own fresh storage is the one recorded. *)
Theorem C9_fresh_storage (e : Expr) stmt value new_buffer_map :
  expand e = Ok (stmt, value, new_buffer_map) ->
  (forall uid : positive, inl uid ∈ dom new_buffer_map -> inl uid ∉ dom input_map)
  /\ (forall uid nm dt shape axes v buf,
        e = TensorNode uid nm dt (Some (GridCompute shape axes v)) ->
        input_map !! inl uid = Some buf ->
        value = EVar buf /\ inl uid ∉ dom new_buffer_map)
  /\ (forall uid nm dt sc,
        e = ScalarNode uid nm dt (Some sc) -> inr uid ∈ dom new_buffer_map)
  /\ (forall uid nm dt shape axes v,
        In (TensorNode uid nm dt (Some (GridCompute shape axes v))) (reached e) ->
        match input_map !! inl uid with
        | Some buf =>
            (inl uid ∉ dom new_buffer_map)
            /\ exists expr, In (BufferStoreStmt buf (map EVar axes) expr) (sub_stmts stmt)
        | None =>
            inl uid ∈ dom new_buffer_map
            /\ exists expr,
                 In (BufferStoreStmt (mkVar nm dt) (map EVar axes) expr) (sub_stmts stmt)
        end)
  /\ (forall uid nm dt shape axes v op,
        In (ScalarNode uid nm dt (Some (ReduceCompute shape axes v op))) (reached e) ->
        let acc := scalar_var nm (infer_type v) in
        inr uid ∈ dom new_buffer_map
        /\ In (AssignStmt acc (initial_value op (ByName (name dt)))) (sub_stmts stmt)
        /\ forall input_var,
             input_map !! inr uid = Some input_var ->
             In (AssignStmt input_var (finalize op (EVar acc) (prod shape)))
                (sub_stmts stmt))
  /\ (forall uid nm dt extent axis v op index_dtype,
        In (ScalarNode uid nm dt (Some (ArgReduceCompute extent axis v op index_dtype)))
           (reached e) ->
        let acc_index := scalar_var (nm +:+ "_idx") index_dtype in
        inr uid ∈ dom new_buffer_map
        /\ In (AssignStmt acc_index (convert 0)) (sub_stmts stmt)
        /\ forall input_var,
             input_map !! inr uid = Some input_var ->
             In (AssignStmt input_var (EVar acc_index)) (sub_stmts stmt))
  /\ (forall key var,
        new_buffer_map !! key = Some var ->
        exists n, In n (reached e) /\ node_key n = Some key
                  /\ fresh_storage infer_type n = Some var)
  /\ ((forall n1 n2, In n1 (reached e) -> In n2 (reached e) ->
                     node_key n1 = node_key n2 -> n1 = n2) ->
      forall n key var,
        In n (reached e) -> node_key n = Some key ->
        fresh_storage infer_type n = Some var ->
        (forall uid : positive, key = inl uid -> input_map !! key = None) ->
        new_buffer_map !! key = Some var).
Proof.
  rewrite expand_lowered.
  destruct (lowered e ∅) as [[[v s] nbm] |] eqn:E; [| discriminate].
  intros Heq. injection Heq as <- <- <-.
  pose proof (lowered_keys infer_type input_map e _ _ _ _ E) as [_ Hk].
  pose proof (lowered_records infer_type input_map e _ _ _ _ E) as (HA & HB & HC).
  assert (Htensor : forall uid : positive, inl uid ∈ dom nbm -> inl uid ∉ dom input_map).
  { intros uid Hin. destruct (Hk uid Hin) as [Hin0 | Hnone].
    - rewrite dom_empty in Hin0. set_solver.
    - apply not_elem_of_dom. exact Hnone. }
  assert (Hsub : forall x, In x (flat_map sub_stmts s) -> In x (sub_stmts (SeqStmt s))).
  { intros x Hx. cbn [sub_stmts]. right. exact Hx. }
  assert (Hentry : forall key var,
             nbm !! key = Some var ->
             exists n, In n (reached e) /\ node_key n = Some key
                       /\ fresh_storage infer_type n = Some var).
  { intros key var Hl. destruct (HA key var Hl) as [Hl0 | Hn]; [| exact Hn].
    rewrite lookup_empty in Hl0. discriminate Hl0. }
  split; [exact Htensor |].
  split; [| split; [| split; [| split; [| split; [| split; [exact Hentry |]]]]]].
  - intros uid nm dt shape axes v0 buf -> Hbuf. cbn [Schedules.lowered] in E.
    rewrite Hbuf in E.
    destruct (length axes <? length shape)%nat; [discriminate |].
    destruct (lowered v0 ∅) as [[[expr inner] nbm1] |]; [| discriminate].
    injection E as <- <- <-. split; [reflexivity |].
    intros Hin. apply (Htensor uid Hin). apply elem_of_dom. eauto.
  - intros uid nm dt sc ->. cbn [Schedules.lowered] in E.
    destruct sc as [shape axes v0 op | extent axis v0 op index_dtype | type_name];
      [| | discriminate].
    + destruct (length axes <? length shape)%nat; [discriminate |].
      destruct (lowered v0 _) as [[[expr inner] nbm1] |] eqn:Ev; [| discriminate].
      injection E as <- <- <-.
      pose proof (lowered_keys infer_type input_map v0 _ _ _ _ Ev) as [Hs _].
      apply Hs. rewrite dom_insert. set_solver.
    + destruct (lowered v0 _) as [[[expr inner] nbm1] |] eqn:Ev; [| discriminate].
      injection E as <- <- <-.
      pose proof (lowered_keys infer_type input_map v0 _ _ _ _ Ev) as [Hs _].
      apply Hs. rewrite dom_insert. set_solver.
  - intros uid nm dt shape axes v0 Hin.
    pose proof (HC _ Hin) as [expr Hstore]. cbn [Lowering.emitted] in Hstore.
    destruct (input_map !! inl uid) as [buf |] eqn:Hmap; cbn [default] in Hstore.
    + split; [| exists expr; apply Hsub; exact Hstore].
      intros Hdom. apply (Htensor uid Hdom). apply elem_of_dom. eauto.
    + split; [| exists expr; apply Hsub; exact Hstore].
      apply (HB _ (inl uid) (mkVar nm dt) Hin eq_refl eq_refl).
      intros uid' Heq. injection Heq as <-. exact Hmap.
  - intros uid nm dt shape axes v0 op Hin acc.
    pose proof (HC _ Hin) as [Hinit Hback]. cbn [Lowering.emitted] in Hinit, Hback.
    split; [| split; [apply Hsub; exact Hinit |]].
    + apply (HB _ (inr uid) acc Hin eq_refl eq_refl). intros uid' Heq. discriminate Heq.
    + intros input_var Hmap. apply Hsub. apply Hback. exact Hmap.
  - intros uid nm dt extent axis v0 op index_dtype Hin acc_index.
    pose proof (HC _ Hin) as [Hinit Hback]. cbn [Lowering.emitted] in Hinit, Hback.
    split; [| split; [apply Hsub; exact Hinit |]].
    + apply (HB _ (inr uid) acc_index Hin eq_refl eq_refl).
      intros uid' Heq. discriminate Heq.
    + intros input_var Hmap. apply Hsub. apply Hback. exact Hmap.
  - intros Hunique n key var Hin Hkey Hfresh Hnone.
    pose proof (HB n key var Hin Hkey Hfresh Hnone) as Hdom.
    apply elem_of_dom in Hdom as [var' Hvar'].
    destruct (Hentry key var' Hvar') as (n' & Hin' & Hkey' & Hfresh').
    assert (Hsame : n = n').
    { apply Hunique; [exact Hin | exact Hin' |]. rewrite Hkey, Hkey'. reflexivity. }
    subst n'. congruence.
Qed.

End Claims.

(** ** What a loop nest writes *)

Lemma in_range (lo hi i : Z) : In i (range lo hi) <-> lo <= i < hi.
Proof.
  unfold range. rewrite in_map_iff. split.
  - intros (k & <- & Hk). apply in_seq in Hk. lia.
  - intros Hi. exists (Z.to_nat (i - lo)). split; [lia |].
    apply in_seq. lia.
Qed.

Lemma NoDup_range (lo hi : Z) : NoDup (range lo hi).
Proof.
  unfold range. apply (NoDup_fmap_2_strong (fun i : nat => lo + Z.of_nat i));
    [| apply NoDup_seq].
  intros x y _ _ Hxy. lia.
Qed.

Lemma coords_length (dims : list Z) (idx : list Z) :
  In idx (coords dims) -> length idx = length dims.
Proof.
  revert idx. induction dims as [| d dims IH]; intros idx Hin.
  - cbn in Hin. destruct Hin as [<- | []]. reflexivity.
  - cbn [coords] in Hin. apply in_flat_map in Hin as (i & _ & Hin).
    apply in_map_iff in Hin as (idx' & <- & Hin). cbn. f_equal. auto.
Qed.

Lemma in_coords (dims : list Z) (idx : list Z) :
  In idx (coords dims) <-> Forall2 (fun i d => 0 <= i < d) idx dims.
Proof.
  revert idx. induction dims as [| d dims IH]; intros idx.
  - cbn. split.
    + intros [<- | []]. constructor.
    + intros Hf. inversion Hf. left. reflexivity.
  - cbn [coords]. rewrite in_flat_map. split.
    + intros (i & Hi & Hin). apply in_map_iff in Hin as (idx' & <- & Hin).
      constructor; [apply in_range; exact Hi | apply IH; exact Hin].
    + intros Hf. inversion Hf as [| i d' idx' dims' Hi Hrest]; subst.
      exists i. split; [apply in_range; exact Hi |].
      apply in_map_iff. exists idx'. split; [reflexivity | apply IH; exact Hrest].
Qed.

Lemma NoDup_flat_map {A B : Type} (f : A -> list B) (l : list A) :
  NoDup l ->
  (forall x, NoDup (f x)) ->
  (forall x1 x2 y, In y (f x1) -> In y (f x2) -> x1 = x2) ->
  NoDup (flat_map f l).
Proof.
  intros Hl Hf Hinj. induction Hl as [| x l Hx Hl IH]; cbn; [constructor |].
  apply NoDup_app. split; [apply Hf | split; [| exact IH]].
  intros y Hy Hy'. apply list_elem_of_In in Hy, Hy'.
  apply in_flat_map in Hy' as (x' & Hx' & Hy').
  rewrite (Hinj x x' y Hy Hy') in Hx. apply Hx. apply list_elem_of_In. exact Hx'.
Qed.

Lemma NoDup_coords (dims : list Z) : NoDup (coords dims).
Proof.
  induction dims as [| d dims IH]; [apply NoDup_singleton |].
  cbn [coords]. apply NoDup_flat_map.
  - apply NoDup_range.
  - intros i. apply (NoDup_fmap_2_strong (cons i)); [| exact IH].
    intros x y _ _ Hxy. congruence.
  - intros i1 i2 idx H1 H2.
    apply in_map_iff in H1 as (x1 & <- & _).
    apply in_map_iff in H2 as (x2 & Heq & _). congruence.
Qed.

Lemma map_flat_map {A B C : Type} (g : B -> C) (f : A -> list B) (l : list A) :
  map g (flat_map f l) = flat_map (fun x => map g (f x)) l.
Proof.
  induction l as [| x l IH]; [reflexivity |].
  cbn. rewrite map_app, IH. reflexivity.
Qed.

(** *** Environments *)

Lemma bind_axes_outside (axes : list Var) :
  forall env idx v, v ∉ axes -> bind_axes env axes idx v = env v.
Proof.
  induction axes as [| a axes IH]; intros env idx v Hv; [reflexivity |].
  destruct idx as [| i idx]; [reflexivity |]. cbn [bind_axes].
  rewrite IH by set_solver. unfold upd.
  destruct (decide (v = a)) as [-> | Hne]; [set_solver | reflexivity].
Qed.

Lemma bind_axes_agree (axes : list Var) :
  forall env1 env2 idx,
    length idx = length axes ->
    (forall v, v ∉ axes -> env1 v = env2 v) ->
    forall v, bind_axes env1 axes idx v = bind_axes env2 axes idx v.
Proof.
  induction axes as [| a axes IH]; intros env1 env2 idx Hlen Hout v.
  - destruct idx; [| discriminate]. cbn. apply Hout. set_solver.
  - destruct idx as [| i idx]; [discriminate |]. cbn [bind_axes].
    apply IH; [cbn in Hlen; lia |].
    intros w Hw. unfold upd. destruct (decide (w = a)) as [-> | Hne]; [reflexivity |].
    apply Hout. set_solver.
Qed.

Lemma bind_axes_read (axes : list Var) :
  forall env idx,
    NoDup axes -> length idx = length axes ->
    map (bind_axes env axes idx) axes = idx.
Proof.
  induction axes as [| a axes IH]; intros env idx Hnd Hlen.
  - destruct idx; [reflexivity | discriminate].
  - destruct idx as [| i idx]; [discriminate |].
    apply NoDup_cons in Hnd as [Ha Hnd]. cbn [map bind_axes]. f_equal.
    + rewrite bind_axes_outside by exact Ha. unfold upd.
      destruct (decide (a = a)); [reflexivity | contradiction].
    + apply IH; [exact Hnd | cbn in Hlen; lia].
Qed.

Section NestExecution.

Variable read : Var -> list Z -> Z.
Variable call : Var -> list Z -> Z.

Abbreviation eval := (eval read call).
Abbreviation exec := (exec read call).
Abbreviation nest_events := (Lowering.nest_events read call).

Lemma eval_agree (e : Expr) :
  forall env1 env2, (forall v, env1 v = env2 v) -> eval env1 e = eval env2 e.
Proof.
  elim e using Expr_visit_ind; clear e; try (intros; reflexivity).
  - intros v env1 env2 Hag. apply Hag.
  - intros op a b IHa IHb env1 env2 Hag. cbn.
    rewrite (IHa _ _ Hag), (IHb _ _ Hag). reflexivity.
  - intros op a IHa env1 env2 Hag. cbn. rewrite (IHa _ _ Hag). reflexivity.
  - intros base indices _ IHi env1 env2 Hag. cbn.
    destruct base; try reflexivity. f_equal.
    apply map_ext_Forall. eapply Forall_impl; [exact IHi |].
    intros x Hx. apply Hx. exact Hag.
  - intros c t f IHc IHt IHf env1 env2 Hag. cbn.
    rewrite (IHc _ _ Hag), (IHt _ _ Hag), (IHf _ _ Hag). reflexivity.
  - intros func_var args IHargs env1 env2 Hag. cbn. f_equal.
    apply map_ext_Forall. eapply Forall_impl; [exact IHargs |].
    intros x Hx. apply Hx. exact Hag.
  - intros a target_type IHa env1 env2 Hag. cbn. apply IHa. exact Hag.
Qed.

Lemma nest_events_agree (env1 env2 : Env) (axes : list Var) (dims : list Z)
    (buf : Var) (indices : list Expr) (value : Expr) :
  length dims = length axes ->
  (forall v, v ∉ axes -> env1 v = env2 v) ->
  nest_events env1 axes dims buf indices value
  = nest_events env2 axes dims buf indices value.
Proof.
  intros Hlen Hout. unfold Lowering.nest_events. apply map_ext_in. intros idx Hin.
  apply coords_length in Hin.
  assert (Hag : forall v, bind_axes env1 axes idx v = bind_axes env2 axes idx v).
  { apply bind_axes_agree; [lia | exact Hout]. }
  f_equal; [f_equal |].
  - apply map_ext. intros x. apply eval_agree. exact Hag.
  - apply eval_agree. exact Hag.
Qed.

Lemma exec_nest (buf : Var) (indices : list Expr) (value : Expr) (axes : list Var) :
  forall dims env,
    length dims = length axes ->
    exists env',
      run_each exec
        (loop_nest (zip axes (map convert dims)) [BufferStoreStmt buf indices value]) env
      = (env', nest_events env axes dims buf indices value)
      /\ forall v, v ∉ axes -> env' v = env v.
Proof.
  induction axes as [| a axes IH]; intros dims env Hlen.
  - destruct dims; [| discriminate]. exists env. split; [reflexivity | auto].
  - destruct dims as [| d dims]; [discriminate |].
    assert (Hlen' : length dims = length axes) by (cbn in Hlen; lia).
    cbn [map zip zip_with loop_nest run_each Semantics.exec].
    cbn [Semantics.eval convert].
    assert (Hiter : forall (ixs : list Z) (env_k : Env),
               (forall v, v ∉ a :: axes -> env_k v = env v) ->
               exists env',
                 run_each
                   (fun i env0 =>
                      run_each exec
                        (loop_nest (zip axes (map convert dims))
                           [BufferStoreStmt buf indices value]) (upd env0 a i))
                   ixs env_k
                 = (env',
                    flat_map (fun i => nest_events (upd env a i) axes dims buf indices value)
                      ixs)
                 /\ forall v, v ∉ a :: axes -> env' v = env v).
    { induction ixs as [| i ixs IHis]; intros env_k Hk.
      - exists env_k. split; [reflexivity | exact Hk].
      - cbn [run_each flat_map].
        destruct (IH dims (upd env_k a i) Hlen') as (env1 & Hrun & Henv1).
        rewrite Hrun.
        destruct (IHis env1) as (env2 & Hrun2 & Henv2).
        { intros v Hv. rewrite Henv1 by set_solver. unfold upd.
          destruct (decide (v = a)) as [-> | _]; [set_solver | apply Hk; exact Hv]. }
        rewrite Hrun2. exists env2. split; [| exact Henv2].
        f_equal. f_equal. apply nest_events_agree; [exact Hlen' |].
        intros v Hv. unfold upd. destruct (decide (v = a)); [reflexivity |].
        apply Hk. set_solver. }
    destruct (Hiter (range 0 d) env) as (env' & Hrun & Henv'); [auto |].
    rewrite Hrun. exists env'. split; [| exact Henv'].
    f_equal. rewrite app_nil_r. unfold Lowering.nest_events at 2. cbn [coords].
    rewrite map_flat_map. apply flat_map_ext. intros i.
    unfold Lowering.nest_events. rewrite map_map. reflexivity.
Qed.

End NestExecution.

(** ** Running a loop nest *)

Lemma run_each_app {A : Type} (step : A -> Env -> Env * list StoreEvent) (l1 l2 : list A) :
  forall env,
    run_each step (l1 ++ l2) env
    = (fst (run_each step l2 (fst (run_each step l1 env))),
       snd (run_each step l1 env) ++ snd (run_each step l2 (fst (run_each step l1 env)))).
Proof.
  induction l1 as [| x l1 IH]; intros env.
  - cbn. destruct (run_each step l2 env). reflexivity.
  - cbn [app run_each]. destruct (step x env) as [env1 t1]. rewrite IH.
    destruct (run_each step l1 env1) as [env2 t2]. cbn [fst snd].
    destruct (run_each step l2 env2) as [env3 t3]. cbn [fst snd].
    rewrite app_assoc. reflexivity.
Qed.

Lemma run_each_cons {A : Type} (step : A -> Env -> Env * list StoreEvent) (x : A)
    (l : list A) (env : Env) :
  run_each step (x :: l) env
  = (fst (run_each step l (fst (step x env))),
     snd (step x env) ++ snd (run_each step l (fst (step x env)))).
Proof.
  cbn [run_each]. destruct (step x env) as [env1 t1]. cbn [fst snd].
  destruct (run_each step l env1) as [env2 t2]. reflexivity.
Qed.

Lemma run_each_map {A B : Type} (step : B -> Env -> Env * list StoreEvent) (h : A -> B)
    (l : list A) :
  forall env, run_each step (map h l) env = run_each (fun x => step (h x)) l env.
Proof.
  induction l as [| x l IH]; intros env; [reflexivity |].
  cbn [map]. rewrite !run_each_cons, IH. reflexivity.
Qed.

Lemma run_each_flat_map {A B : Type} (step : B -> Env -> Env * list StoreEvent)
    (h : A -> list B) (l : list A) :
  forall env,
    run_each step (flat_map h l) env = run_each (fun x => run_each step (h x)) l env.
Proof.
  induction l as [| x l IH]; intros env; [reflexivity |].
  cbn [flat_map]. rewrite run_each_app, run_each_cons, IH. reflexivity.
Qed.

(** Steps that keep a relation between environments, run in sequence. *)
Lemma run_each_same {A B : Type} (step1 : A -> Env -> Env * list StoreEvent)
    (step2 : B -> Env -> Env * list StoreEvent) (related : Env -> Env -> Prop)
    (l1 : list A) (l2 : list B) :
  Forall2 (fun x y => forall env1 env2,
             related env1 env2 ->
             snd (step1 x env1) = snd (step2 y env2)
             /\ related (fst (step1 x env1)) (fst (step2 y env2))) l1 l2 ->
  forall env1 env2,
    related env1 env2 ->
    snd (run_each step1 l1 env1) = snd (run_each step2 l2 env2)
    /\ related (fst (run_each step1 l1 env1)) (fst (run_each step2 l2 env2)).
Proof.
  induction 1 as [| x y l1 l2 Hxy _ IH]; intros env1 env2 Henv.
  - split; [reflexivity | exact Henv].
  - rewrite !run_each_cons. cbn [fst snd].
    destruct (Hxy env1 env2 Henv) as [Ht Hnext].
    destruct (IH _ _ Hnext) as [Ht' Hnext'].
    split; [congruence | exact Hnext'].
Qed.

Lemma Forall2_diag {A : Type} (R : A -> A -> Prop) (l : list A) :
  (forall x, In x l -> R x x) -> Forall2 R l l.
Proof.
  induction l as [| x l IH]; intros HR; constructor.
  - apply HR. left. reflexivity.
  - apply IH. intros y Hy. apply HR. right. exact Hy.
Qed.

Section Frames.

Variable read : Var -> list Z -> Z.
Variable call : Var -> list Z -> Z.

Abbreviation eval := (eval read call).
Abbreviation exec := (exec read call).
Abbreviation run_coords := (run_coords read call).

(** A statement leaves the variables it does not assign as they are. *)
Lemma exec_frame (s : Stmt) :
  forall env v, v ∉ assigned s -> fst (exec s env) v = env v.
Proof.
  elim s using Stmt_body_ind; clear s.
  - intros e env v _. reflexivity.
  - intros w init env v Hv. destruct init; cbn; [| reflexivity].
    unfold upd. destruct (decide (v = w)) as [-> | _]; [| reflexivity].
    exfalso. apply Hv. cbn. set_solver.
  - intros w value env v Hv. cbn. unfold upd.
    destruct (decide (v = w)) as [-> | _]; [| reflexivity].
    exfalso. apply Hv. cbn. set_solver.
  - intros buf indices value env v _. reflexivity.
  - intros loop_var extent body IH env v Hv. destruct body as [b |]; [| reflexivity].
    cbn [Semantics.exec]. cbn [assigned] in Hv.
    generalize (range 0 (eval env extent)). intros ixs. revert env.
    induction ixs as [| i ixs IHis]; intros env; [reflexivity |].
    rewrite run_each_cons. cbn [fst]. rewrite IHis, IH by set_solver.
    unfold upd. destruct (decide (v = loop_var)) as [-> | _]; [| reflexivity].
    exfalso. apply Hv. set_solver.
  - intros cond then_body else_body IHt IHe env v Hv. cbn [Semantics.exec].
    cbn [assigned] in Hv.
    destruct (eval env cond =? 0)%Z.
    + destruct else_body as [b |]; [| reflexivity]. apply IHe. set_solver.
    + destruct then_body as [b |]; [| reflexivity]. apply IHt. set_solver.
  - intros template outputs inputs is_volatile env v _. reflexivity.
  - intros seq IH env v Hv. cbn [Semantics.exec]. cbn [assigned] in Hv.
    revert env. induction IH as [| x seq Hx _ IHseq]; intros env; [reflexivity |].
    rewrite run_each_cons. cbn [fst]. cbn [flat_map] in Hv.
    rewrite IHseq, Hx by set_solver. reflexivity.
Qed.

Lemma run_frame (l : list Stmt) :
  forall env v, v ∉ flat_map assigned l -> fst (run_each exec l env) v = env v.
Proof.
  intros env v Hv. exact (exec_frame (SeqStmt l) env v Hv).
Qed.

(** Statements run from environments that agree do the same. *)
Lemma exec_agree (s : Stmt) :
  forall env1 env2,
    (forall v, env1 v = env2 v) -> same_run [] (exec s env1) (exec s env2).
Proof.
  assert (Hall : forall r1 r2 : Env * list StoreEvent,
             snd r1 = snd r2 /\ (forall v, fst r1 v = fst r2 v) -> same_run [] r1 r2).
  { intros r1 r2 [Ht He]. split; [exact Ht | intros v _; apply He]. }
  assert (Hback : forall r1 r2 : Env * list StoreEvent,
             same_run [] r1 r2 -> forall v, fst r1 v = fst r2 v).
  { intros r1 r2 [_ He] v. apply He. set_solver. }
  elim s using Stmt_body_ind; clear s.
  - intros e env1 env2 Hag. apply Hall. split; [reflexivity | exact Hag].
  - intros w init env1 env2 Hag. apply Hall.
    destruct init as [init |]; cbn; [| split; auto].
    split; [reflexivity |]. intros v. unfold upd.
    rewrite (eval_agree read call init env1 env2 Hag), Hag. reflexivity.
  - intros w value env1 env2 Hag. apply Hall. cbn. split; [reflexivity |].
    intros v. unfold upd.
    rewrite (eval_agree read call value env1 env2 Hag), Hag. reflexivity.
  - intros buf indices value env1 env2 Hag. apply Hall. cbn. split; [| exact Hag].
    rewrite (eval_agree read call value env1 env2 Hag). do 3 f_equal.
    apply map_ext. intros x. apply eval_agree. exact Hag.
  - intros loop_var extent body IH env1 env2 Hag. apply Hall.
    destruct body as [b |]; [| split; [reflexivity | exact Hag]].
    cbn [Semantics.exec]. rewrite (eval_agree read call extent env1 env2 Hag).
    generalize (range 0 (eval env2 extent)). intros ixs.
    apply (run_each_same _ _ (fun e1 e2 => forall v, e1 v = e2 v)); [| exact Hag].
    apply Forall2_diag. intros i _ e1 e2 He.
    assert (Hb : same_run [] (exec b (upd e1 loop_var i)) (exec b (upd e2 loop_var i))).
    { apply IH. intros v. unfold upd. rewrite He. reflexivity. }
    split; [exact (proj1 Hb) | exact (Hback _ _ Hb)].
  - intros cond then_body else_body IHt IHe env1 env2 Hag. cbn [Semantics.exec].
    rewrite (eval_agree read call cond env1 env2 Hag).
    destruct (eval env2 cond =? 0)%Z.
    + destruct else_body as [b |]; [apply IHe; exact Hag | apply Hall; split; auto].
    + destruct then_body as [b |]; [apply IHt; exact Hag | apply Hall; split; auto].
  - intros template outputs inputs is_volatile env1 env2 Hag. apply Hall. split; auto.
  - intros seq IH env1 env2 Hag. apply Hall. cbn [Semantics.exec].
    apply (run_each_same _ _ (fun e1 e2 => forall v, e1 v = e2 v)); [| exact Hag].
    induction IH as [| x seq Hx _ IHseq]; constructor; [| exact IHseq].
    intros e1 e2 He. split; [exact (proj1 (Hx e1 e2 He)) | exact (Hback _ _ (Hx e1 e2 He))].
Qed.

Lemma run_agree (l : list Stmt) :
  forall env1 env2,
    (forall v, env1 v = env2 v) ->
    snd (run_each exec l env1) = snd (run_each exec l env2)
    /\ forall v, fst (run_each exec l env1) v = fst (run_each exec l env2) v.
Proof.
  intros env1 env2 Hag. destruct (exec_agree (SeqStmt l) env1 env2 Hag) as [Ht He].
  split; [exact Ht |]. intros v. apply He. set_solver.
Qed.

Section Nest.

Variable body : list Stmt.
Variable nest_vars : list Var.
Variable env0 : Env.

Hypothesis Hbody : forall v, v ∈ flat_map assigned body -> v ∈ nest_vars.

(** The loops of a nest assign its axes and what its body assigns. *)
Lemma nest_assigned (axes : list Var) :
  forall shape v,
    v ∈ flat_map assigned (loop_nest (zip axes shape) body) ->
    v ∈ axes \/ v ∈ flat_map assigned body.
Proof.
  induction axes as [| a axes IH]; intros shape v Hv; [right; exact Hv |].
  destruct shape as [| s shape]; [right; exact Hv |].
  cbn [zip zip_with loop_nest flat_map assigned] in Hv. rewrite app_nil_r in Hv.
  apply elem_of_cons in Hv as [-> | Hv]; [left; set_solver |].
  destruct (IH shape v Hv) as [Hin | Hin]; [left; set_solver | right; exact Hin].
Qed.

(** Rebinding the outer axis at every coordinate changes nothing when the
    body leaves it alone. *)
Lemma rebind_outer (a : Var) (i : Z) (axes : list Var) (cs : list (list Z)) :
  a ∉ flat_map assigned body ->
  Forall (fun idx => length idx = length axes) cs ->
  forall env1 env2,
    (forall v, v ∉ a :: axes -> env1 v = env2 v) ->
    (a ∈ axes \/ env1 a = i) ->
    same_run (a :: axes) (run_coords axes body cs env1)
      (run_each (fun idx env => run_each exec body (bind_axes (upd env a i) axes idx))
         cs env2).
Proof.
  intros Ha Hcs env1 env2 Hout Hinv.
  pose (related := fun e1 e2 : Env =>
                     (forall v, v ∉ a :: axes -> e1 v = e2 v) /\ (a ∈ axes \/ e1 a = i)).
  destruct (run_each_same
              (fun idx env => run_each exec body (bind_axes env axes idx))
              (fun idx env => run_each exec body (bind_axes (upd env a i) axes idx))
              related cs cs) with (env1 := env1) (env2 := env2) as [Ht [He _]].
  - apply Forall2_diag. intros idx Hidx e1 e2 [Hne Hai].
    assert (Hlen : length idx = length axes).
    { rewrite Forall_forall in Hcs. apply Hcs. apply list_elem_of_In. exact Hidx. }
    assert (Hbound : forall v, bind_axes e1 axes idx v = bind_axes (upd e2 a i) axes idx v).
    { apply bind_axes_agree; [exact Hlen |]. intros v Hv. unfold upd.
      destruct (decide (v = a)) as [-> | Hva].
      - destruct Hai as [Hin | Hi]; [contradiction | exact Hi].
      - apply Hne. set_solver. }
    destruct (run_agree body _ _ Hbound) as [Ht He].
    split; [exact Ht |]. split.
    + intros v _. apply He.
    + destruct (decide (a ∈ axes)) as [Hin | Hnin]; [left; exact Hin | right].
      rewrite run_frame by exact Ha. rewrite bind_axes_outside by exact Hnin.
      destruct Hai as [Hin | Hi]; [contradiction | exact Hi].
  - split; assumption.
  - split; [exact Ht | exact He].
Qed.

(** A loop nest runs its body once for each coordinate of the product of
    its sizes, in row-major order, with the axes bound to the coordinate. *)
Lemma nest_run (axes : list Var) :
  forall shape dims,
    length axes = length shape ->
    (forall a, a ∈ axes -> a ∈ nest_vars) ->
    (forall a, a ∈ axes -> a ∉ flat_map assigned body) ->
    Forall2 (fun s d => forall env',
               (forall v, v ∉ nest_vars -> env' v = env0 v) -> eval env' s = d)
      shape dims ->
    forall env1 env2,
      (forall v, v ∉ axes -> env1 v = env2 v) ->
      (forall v, v ∉ nest_vars -> env1 v = env0 v) ->
      same_run axes (run_each exec (loop_nest (zip axes shape) body) env1)
        (run_coords axes body (coords dims) env2).
Proof.
  induction axes as [| a axes IH];
    intros shape dims Hlen Hvars Hfree Hsizes env1 env2 Hag Hframe.
  - destruct shape; [| discriminate]. inversion Hsizes; subst.
    cbn [zip zip_with loop_nest coords]. unfold Semantics.run_coords.
    rewrite run_each_cons. cbn [run_each bind_axes fst snd]. rewrite app_nil_r.
    destruct (run_agree body env1 env2) as [Ht He]; [intros v; apply Hag; set_solver |].
    split; [exact Ht | intros v _; apply He].
  - destruct shape as [| s shape]; [discriminate |].
    inversion Hsizes as [| s0 d shape0 dims' Hs Hrest]; subst.
    assert (Hlen' : length axes = length shape) by (cbn in Hlen; lia).
    assert (Hcs : Forall (fun idx => length idx = length axes) (coords dims')).
    { apply Forall_forall. intros idx Hidx. apply list_elem_of_In in Hidx.
      apply coords_length in Hidx. apply Forall2_length in Hrest. lia. }
    assert (Ha : a ∉ flat_map assigned body) by (apply Hfree; set_solver).
    assert (HaW : a ∈ nest_vars) by (apply Hvars; set_solver).
    cbn [zip zip_with loop_nest]. rewrite run_each_cons.
    cbn [run_each fst snd Semantics.exec]. rewrite app_nil_r.
    rewrite (Hs env1 Hframe).
    unfold Semantics.run_coords. cbn [coords]. rewrite run_each_flat_map.
    pose (related := fun e1 e2 : Env =>
                       (forall v, v ∉ a :: axes -> e1 v = e2 v)
                       /\ (forall v, v ∉ nest_vars -> e1 v = env0 v)).
    destruct (run_each_same
                (fun i env =>
                   run_each exec (loop_nest (zip axes shape) body) (upd env a i))
                (fun i =>
                   run_each (fun idx env => run_each exec body
                                              (bind_axes env (a :: axes) idx))
                     (map (cons i) (coords dims')))
                related (range 0 d) (range 0 d)) with (env1 := env1) (env2 := env2)
      as [Ht [He _]].
    + apply Forall2_diag. intros i _ e1 e2 [Hne Hfr].
      rewrite run_each_map. cbn [bind_axes].
      destruct (IH shape dims' Hlen'
                  ltac:(intros x Hx; apply Hvars; set_solver)
                  ltac:(intros x Hx; apply Hfree; set_solver)
                  Hrest (upd e1 a i) (upd e1 a i)) as [Ht1 He1].
      { auto. }
      { intros v Hv. unfold upd. destruct (decide (v = a)) as [-> | _];
          [contradiction | apply Hfr; exact Hv]. }
      destruct (rebind_outer a i axes (coords dims') Ha Hcs (upd e1 a i) e2)
        as [Ht2 He2].
      { intros v Hv. unfold upd. destruct (decide (v = a)) as [-> | _];
          [set_solver | apply Hne; exact Hv]. }
      { right. unfold upd. destruct (decide (a = a)); [reflexivity | contradiction]. }
      split; [congruence |]. split.
      * intros v Hv. rewrite He1 by set_solver. apply He2. exact Hv.
      * intros v Hv. rewrite run_frame.
        -- unfold upd. destruct (decide (v = a)) as [-> | _];
             [contradiction | apply Hfr; exact Hv].
        -- intros Hin. apply nest_assigned in Hin as [Hin | Hin].
           ++ apply Hv. apply Hvars. set_solver.
           ++ apply Hv. apply Hbody. exact Hin.
    + split; [exact Hag | exact Hframe].
    + split; [exact Ht | exact He].
Qed.

End Nest.

(** Binding the axes keeps two environments in agreement where they
    agreed, and makes them agree on the axes. *)
Lemma bind_axes_agree_outside (vars : list Var) (axes : list Var) :
  forall env1 env2 idx,
    length idx = length axes ->
    (forall v, v ∉ axes -> v ∉ vars -> env1 v = env2 v) ->
    forall v, v ∉ vars -> bind_axes env1 axes idx v = bind_axes env2 axes idx v.
Proof.
  induction axes as [| a axes IH]; intros env1 env2 idx Hlen Hout v Hv.
  - destruct idx; [| discriminate]. cbn. apply Hout; [set_solver | exact Hv].
  - destruct idx as [| i idx]; [discriminate |]. cbn [bind_axes].
    apply IH; [cbn in Hlen; lia | | exact Hv].
    intros w Hw Hwv. unfold upd. destruct (decide (w = a)) as [-> | Hne]; [reflexivity |].
    apply Hout; [set_solver | exact Hwv].
Qed.

Lemma stores_into_app (buf : Var) (t1 t2 : list StoreEvent) :
  stores_into buf (t1 ++ t2) = stores_into buf t1 ++ stores_into buf t2.
Proof. apply List.filter_app. Qed.

(** What the nest stores into the buffer of its node: at each coordinate
    the statements of the value run, then the value is stored at the
    coordinate. *)
Lemma coords_stores (inner : list Stmt) (buf : Var) (expr : Expr) (axes : list Var)
    (f : list Z -> Z) (env0 : Env) (good : list Z -> Prop) :
  NoDup axes ->
  (forall a, a ∈ axes -> a ∉ flat_map assigned inner) ->
  (forall idx env1,
      good idx ->
      (forall v, v ∉ flat_map assigned inner -> env1 v = bind_axes env0 axes idx v) ->
      eval (fst (run_each exec inner env1)) expr = f idx
      /\ stores_into buf (snd (run_each exec inner env1)) = []) ->
  forall cs,
    Forall (fun idx => length idx = length axes /\ good idx) cs ->
    forall env,
      (forall v, v ∉ axes -> v ∉ flat_map assigned inner -> env v = env0 v) ->
      stores_into buf
        (snd (run_coords axes (inner ++ [BufferStoreStmt buf (map EVar axes) expr]) cs env))
      = map (fun idx => (buf, idx, f idx)) cs.
Proof.
  intros Hnd Hfree Hpure cs Hcs. unfold Semantics.run_coords.
  induction Hcs as [| idx cs [Hlen Hgood] _ IH]; intros env Henv; [reflexivity |].
  rewrite run_each_cons. cbn [fst snd map].
  rewrite run_each_app. cbn [fst snd run_each Semantics.exec].
  set (env_i := bind_axes env axes idx).
  set (env_v := fst (run_each exec inner env_i)).
  assert (Hstart : forall v, v ∉ flat_map assigned inner ->
                             env_i v = bind_axes env0 axes idx v).
  { intros v Hv. unfold env_i.
    apply (bind_axes_agree_outside (flat_map assigned inner)); [exact Hlen | | exact Hv].
    intros w Hw1 Hw2. apply Henv; assumption. }
  destruct (Hpure idx env_i Hgood Hstart) as [Hvalue Hquiet]. fold env_v in Hvalue.
  assert (Hidx : map (eval env_v) (map EVar axes) = idx).
  { rewrite map_map. cbn [Semantics.eval].
    rewrite <- (bind_axes_read axes env idx Hnd Hlen). fold env_i.
    apply map_ext_in. intros a Ha. unfold env_v. apply run_frame.
    apply Hfree. apply list_elem_of_In. exact Ha. }
  rewrite Hidx, Hvalue, app_nil_r. rewrite !stores_into_app, Hquiet. cbn [app].
  unfold stores_into at 1. cbn [List.filter fst]. rewrite bool_decide_eq_true_2 by reflexivity.
  cbn [app]. f_equal. apply IH.
  intros v Hv1 Hv2. unfold env_v. rewrite run_frame by exact Hv2.
  unfold env_i. rewrite bind_axes_outside by exact Hv1. apply Henv; assumption.
Qed.

End Frames.

(** A nest around a single store writes the stored expression at each
    coordinate. *)
Lemma coords_store_only (read call : Var -> list Z -> Z) (buf : Var) (expr : Expr)
    (axes : list Var) (env0 : Env) :
  NoDup axes ->
  forall cs,
    Forall (fun idx => length idx = length axes) cs ->
    forall env,
      (forall v, v ∉ axes -> env v = env0 v) ->
      snd (run_coords read call axes [BufferStoreStmt buf (map EVar axes) expr] cs env)
      = map (fun idx => (buf, idx, eval read call (bind_axes env0 axes idx) expr)) cs.
Proof.
  intros Hnd cs Hcs. unfold run_coords.
  induction Hcs as [| idx cs Hlen _ IH]; intros env Henv; [reflexivity |].
  rewrite run_each_cons. cbn [fst snd map run_each exec app].
  assert (Hidx : map (eval read call (bind_axes env axes idx)) (map EVar axes) = idx).
  { rewrite map_map. etransitivity; [| apply (bind_axes_read axes env idx Hnd Hlen)].
    apply map_ext. intros a. reflexivity. }
  rewrite Hidx. f_equal.
  - f_equal. apply eval_agree. apply bind_axes_agree; assumption.
  - apply IH. intros v Hv. rewrite bind_axes_outside by exact Hv. apply Henv. exact Hv.
Qed.


(** ** Instances *)

#[local] Existing Instance Examples.symbolic_reduce.

Abbreviation expand_example := (@expand Examples.symbolic_reduce Examples.infer_type).


(** The sum of [A[k]] over [k < 4], with [A] supplied and the result wanted
    in [out]. *)
Lemma C2_reduce_compute_witness :
  let acc := scalar_var "s" Examples.float32 in
  let a_k := TensorElement (EVar Examples.A_var) [EVar Examples.k] in
  let result := finalize Examples.sum (EVar acc) (convert 4) in
  expand_example Examples.A_out_map Examples.reduce_A
  = Ok (SeqStmt
          [AssignStmt acc (initial_value Examples.sum (ByName "float32"));
           ForStmt Examples.k (convert 4)
             (Some (SeqStmt [AssignStmt acc (combine Examples.sum (EVar acc) a_k)]));
           AssignStmt Examples.out_var result],
        result, ({[inr 2%positive := acc]} : gmap NodeKey Var)).
Proof.
  intros acc a_k result.
  pose proof (@C2_reduce_compute Examples.symbolic_reduce Examples.infer_type Examples.A_out_map
                2%positive "s" Examples.float32 [convert 4] [Examples.k] Examples.A_k
                Examples.sum a_k [] {[inr 2%positive := acc]} eq_refl) as Hc.
  destruct Hc as (Hexp & _); [vm_compute; reflexivity |].
  exact Hexp.
Defined.

(** C2 as stated fails: a Reduce node declared [float32] over a [float16]
    value has a [float16] accumulator initialized to the identity for
    [float32]. *)
Lemma C2_counterexample :
  let acc := scalar_var "h" (Examples.infer_type (Constant 1 Examples.float16)) in
  exists init rest result nbm,
    expand_example ∅ Examples.reduce_half
    = Ok (SeqStmt (AssignStmt acc init :: rest), result, nbm)
    /\ var_type acc = TScalar Examples.float16
    /\ init = initial_value Examples.sum (ByName "float32")
    /\ init <> initial_value Examples.sum (ByName "float16")
    /\ init <> initial_value Examples.sum (ByType Examples.float16).
Proof.
  intros acc. do 4 eexists. split; [vm_compute; reflexivity |].
  split; [reflexivity |]. split; [reflexivity |].
  split; vm_compute; intros Heq; discriminate Heq.
Qed.

(** The position of the maximum of [A[k]] over [k < 4]. *)
Lemma C3_arg_reduce_compute_witness :
  let acc_index := scalar_var "m_idx" Examples.int64 in
  let acc_value := scalar_var "m_val" Examples.float32 in
  let a_k := TensorElement (EVar Examples.A_var) [EVar Examples.k] in
  expand_example Examples.A_map Examples.argmax_A
  = Ok (SeqStmt
          [DeclareStmt acc_value (Some (initial_value Examples.max (ByType Examples.float32)));
           AssignStmt acc_index (convert 0);
           ForStmt Examples.k (convert 4)
             (Some (SeqStmt
                [IfStmt (arg_combine Examples.max a_k (EVar acc_value))
                   (Some (SeqStmt [AssignStmt acc_value a_k;
                                   AssignStmt acc_index (EVar Examples.k)]))
                   None]))],
        EVar acc_index, ({[inr 3%positive := acc_index]} : gmap NodeKey Var)).
Proof.
  intros acc_index acc_value a_k.
  pose proof (@C3_arg_reduce_compute Examples.symbolic_reduce Examples.infer_type Examples.A_map
                3%positive "m" Examples.float32 (convert 4) Examples.k Examples.A_k
                Examples.max Examples.int64 a_k [] {[inr 3%positive := acc_index]}) as Hc.
  destruct Hc as (Hexp & _); [vm_compute; reflexivity |].
  exact Hexp.
Defined.

(** With [A] supplied the reduction lowers; without it the lowering fails. *)
Lemma C8_expand_failure_witness :
  (exists r, expand_example Examples.A_map Examples.reduce_A = Ok r)
  /\ (exists err, expand_example ∅ Examples.reduce_A = Raise err).
Proof.
  split.
  - apply (@C8_expand_failure Examples.symbolic_reduce Examples.infer_type Examples.A_map
             Examples.reduce_A eq_refl).
    split; vm_compute; reflexivity.
  - apply (@C8_expand_failure Examples.symbolic_reduce Examples.infer_type ∅
             Examples.reduce_A eq_refl).
    right. vm_compute. reflexivity.
Defined.

(** C8 as stated fails: an input node without entry in [input_map] makes the
    lowering fail with a [KeyError], not with the unsupported-pattern
    error. *)
Lemma C8_counterexample :
  has_unsupported Examples.A = false
  /\ expand_example ∅ Examples.A = Raise (KeyError "A")
  /\ forall msg, expand_example ∅ Examples.A <> Raise (NotImplementedError msg).
Proof.
  split; [reflexivity |]. split; [vm_compute; reflexivity |].
  intros msg. vm_compute. intros Heq. discriminate Heq.
Qed.

(** The docstring example lowered with [A], [B] and the result [C] supplied:
    the Grid node stores into [C] and gets no buffer; the Reduce node nested
    in it gets its accumulator. *)
Lemma C9_fresh_storage_witness :
  exists stmt value new_buffer_map,
    @expand Examples.symbolic_reduce Examples.infer_type Examples.ABC_map Examples.matmul
    = Ok (stmt, value, new_buffer_map)
    /\ value = EVar Examples.C_var
    /\ (inl 9%positive ∉ dom new_buffer_map)
    /\ (exists expr,
          In (BufferStoreStmt Examples.C_var [EVar Examples.i; EVar Examples.j] expr)
             (sub_stmts stmt))
    /\ new_buffer_map !! inr 8%positive = Some (scalar_var "s" Examples.float32).
Proof.
  destruct (@expand Examples.symbolic_reduce Examples.infer_type Examples.ABC_map
              Examples.matmul) as [[[stmt value] nbm] |] eqn:E;
    [| vm_compute in E; discriminate E].
  exists stmt, value, nbm. split; [reflexivity |].
  pose proof (@C9_fresh_storage Examples.symbolic_reduce Examples.infer_type Examples.ABC_map
                Examples.matmul stmt value nbm E)
    as (_ & Hroot & _ & Hgrid & _ & _ & _ & Hexact).
  destruct (Hroot 9%positive "C" (TensorType "global" Examples.float32)
              [convert 3; convert 3] [Examples.i; Examples.j] Examples.matmul_sum
              Examples.C_var eq_refl eq_refl) as [Hvalue Hnone].
  split; [exact Hvalue |]. split; [exact Hnone |]. split.
  - specialize (Hgrid 9%positive "C" (TensorType "global" Examples.float32)
                  [convert 3; convert 3] [Examples.i; Examples.j] Examples.matmul_sum).
    change (Examples.ABC_map !! inl 9%positive) with (Some Examples.C_var) in Hgrid.
    apply Hgrid. left. reflexivity.
  - apply (Hexact) with (n := Examples.matmul_sum).
    + intros n1 n2 H1 H2 Hkey. cbn in H1, H2.
      destruct H1 as [<- | [<- | [<- | [<- | []]]]];
        destruct H2 as [<- | [<- | [<- | [<- | []]]]];
        first [reflexivity | discriminate Hkey].
    + right. left. reflexivity.
    + reflexivity.
    + reflexivity.
    + intros uid Heq. discriminate Heq.
Defined.

(** C9 as stated fails: the Reduce node has an entry in [input_map] and still
    receives a fresh accumulator, recorded in [new_buffer_map]. *)
Lemma C9_counterexample :
  exists stmt value new_buffer_map,
    expand_example Examples.A_out_map Examples.reduce_A = Ok (stmt, value, new_buffer_map)
    /\ inr 2%positive ∈ dom Examples.A_out_map
    /\ new_buffer_map !! inr 2%positive = Some (scalar_var "s" Examples.float32)
    /\ inr 2%positive ∈ dom new_buffer_map
    /\ dom new_buffer_map ∩ dom Examples.A_out_map <> ∅.
Proof.
  do 3 eexists. split; [vm_compute; reflexivity |].
  assert (Hin : (inr 2%positive : NodeKey) ∈ dom Examples.A_out_map).
  { apply elem_of_dom. eexists. vm_compute. reflexivity. }
  assert (Hnew : (inr 2%positive : NodeKey)
                 ∈ dom (<[inr 2%positive := scalar_var "s" Examples.float32]>
                          (∅ : gmap NodeKey Var))).
  { apply elem_of_dom. eexists. apply lookup_insert_eq. }
  split; [exact Hin |]. split; [vm_compute; reflexivity |].
  split; [apply elem_of_dom; eexists; vm_compute; reflexivity |].
  intros Hempty.
  assert (Hboth : (inr 2%positive : NodeKey) ∈ (∅ : gset NodeKey)).
  { rewrite <- Hempty. apply elem_of_intersection. split; [| exact Hin].
    apply elem_of_dom. eexists. vm_compute. reflexivity. }
  set_solver.
Qed.

(** * Further properties of the code *)

(** ** Further properties of the loop expander *)

(** X1: an expression without compute nodes is returned as it is: no
    statement is emitted and no buffer is allocated. *)
Theorem expand_compute_free `{ReduceInterface} (infer_type : Expr -> ScalarType)
    (input_map : gmap NodeKey Var) (e : Expr) :
  compute_free e = true ->
  expand infer_type input_map e = Ok (SeqStmt [], e, ∅).
Proof.
  intros Hfree. rewrite expand_lowered.
  rewrite (lowered_compute_free infer_type input_map e Hfree). reflexivity.
Qed.

Lemma expand_compute_free_witness :
  let e := BinaryExpr Add (BinaryExpr Multiply (EVar Examples.i) (convert 3))
             (EVar Examples.j) in
  @expand Examples.symbolic_reduce Examples.infer_type Examples.A_map e
  = Ok (SeqStmt [], e, ∅).
Proof.
  intros e.
  apply (@expand_compute_free Examples.symbolic_reduce Examples.infer_type Examples.A_map e).
  reflexivity.
Defined.

(** X2: a visit keeps the builder's scopes in balance.  Whatever the open
    scopes are, a successful visit leaves the enclosing scopes untouched and
    only appends to the innermost one; the statements it appends, its result
    and the buffers it allocates do not depend on the scopes it started
    in. *)
Theorem visit_scope_balance `{ReduceInterface} (infer_type : Expr -> ScalarType)
    (input_map : gmap NodeKey Var) (e : Expr) top rest nbm value self' :
  visit infer_type input_map e (mkLoopExpander (top :: rest) nbm) = Ok (value, self') ->
  exists new,
    sb self' = (top ++ new) :: rest
    /\ forall top' rest',
         visit infer_type input_map e (mkLoopExpander (top' :: rest') nbm)
         = Ok (value, mkLoopExpander ((top' ++ new) :: rest') (new_buffer_map self')).
Proof.
  rewrite (visit_lowered infer_type input_map e).
  destruct (lowered infer_type input_map e nbm) as [[[v new] nbm'] |] eqn:E;
    cbn [placed]; [| discriminate].
  intros Heq. injection Heq as <- <-. exists new. split; [reflexivity |].
  intros top' rest'. rewrite (visit_lowered infer_type input_map e), E. reflexivity.
Qed.

Lemma visit_scope_balance_witness :
  exists new,
    new = [AssignStmt (scalar_var "s" Examples.float32)
             (@initial_value Examples.symbolic_reduce Examples.sum (ByName "float32"));
           ForStmt Examples.k (convert 4)
             (Some (SeqStmt
                [AssignStmt (scalar_var "s" Examples.float32)
                   (@combine Examples.symbolic_reduce Examples.sum
                      (EVar (scalar_var "s" Examples.float32))
                      (TensorElement (EVar Examples.A_var) [EVar Examples.k]))]))]
    /\ forall top' rest',
         sb <$> (snd <$> match @visit Examples.symbolic_reduce Examples.infer_type
                                  Examples.A_map Examples.reduce_A
                                  (mkLoopExpander (top' :: rest') ∅) with
                         | Ok r => Some r
                         | Raise _ => None
                         end)
         = Some ((top' ++ new) :: rest').
Proof.
  destruct (@visit Examples.symbolic_reduce Examples.infer_type Examples.A_map
              Examples.reduce_A (mkLoopExpander ([] :: []) ∅)) as [[value self'] |] eqn:E;
    [| vm_compute in E; discriminate E].
  destruct (@visit_scope_balance Examples.symbolic_reduce Examples.infer_type
              Examples.A_map Examples.reduce_A [] [] ∅ value self' E) as (new & Hsb & Hany).
  exists new. split.
  - vm_compute in E. injection E as _ <-. cbn [sb app] in Hsb.
    injection Hsb as <-. reflexivity.
  - intros top' rest'. rewrite Hany. reflexivity.
Defined.

(** X3: the only errors of a lowering call are [NotImplementedError], from
    a reached compute node of unsupported variant, [KeyError], from a reached
    input node without entry in [input_map], and [IndexError], from a reached
    Grid or Reduce node with fewer axes than dimensions; the builder's
    assertions never fail. *)
Theorem expand_error_kinds `{ReduceInterface} (infer_type : Expr -> ScalarType)
    (input_map : gmap NodeKey Var) (e : Expr) (err : Error) :
  expand infer_type input_map e = Raise err ->
  (exists msg, err = NotImplementedError msg /\ has_unsupported e = true)
  \/ (exists key, err = KeyError key /\ has_missing_input input_map e = true)
  \/ (err = IndexError /\ axes_cover_shape e = false).
Proof.
  rewrite expand_lowered.
  pose proof (lowered_outcome infer_type input_map e ∅) as Ho.
  destruct (lowered infer_type input_map e ∅) as [[[v s] nbm] | err0];
    [discriminate |].
  intros Heq. injection Heq as ->.
  destruct err; cbn in Ho; try contradiction; eauto.
Qed.

Lemma expand_error_kinds_witness :
  has_missing_input (∅ : gmap NodeKey Var) Examples.reduce_A = true
  /\ @expand Examples.symbolic_reduce Examples.infer_type ∅ Examples.reduce_A
     = Raise (KeyError "A").
Proof.
  assert (E : @expand Examples.symbolic_reduce Examples.infer_type ∅ Examples.reduce_A
              = Raise (KeyError "A")) by (vm_compute; reflexivity).
  split; [| exact E].
  destruct (@expand_error_kinds Examples.symbolic_reduce Examples.infer_type ∅
              Examples.reduce_A _ E) as [(msg & Hm & _) | [(key & _ & Hk) | (Hi & _)]].
  - discriminate Hm.
  - exact Hk.
  - discriminate Hi.
Defined.

(** X4: a Grid or Reduce node with fewer axis variables than dimensions
    cannot be lowered: [axes[i]] is out of range and the call raises
    [IndexError], whatever the value expression and [input_map] are. *)
Theorem expand_too_few_axes `{ReduceInterface} (infer_type : Expr -> ScalarType)
    (input_map : gmap NodeKey Var) (shape : list Expr) (axes : list Var) :
  (length axes < length shape)%nat ->
  (forall uid nm dt value,
      expand infer_type input_map
        (TensorNode uid nm dt (Some (GridCompute shape axes value)))
      = Raise IndexError)
  /\ (forall uid nm dt value op,
        expand infer_type input_map
          (ScalarNode uid nm dt (Some (ReduceCompute shape axes value op)))
        = Raise IndexError).
Proof.
  intros Hlen. apply Nat.ltb_lt in Hlen.
  split; intros; rewrite expand_lowered; cbn [Schedules.lowered].
  - destruct (input_map !! inl uid); rewrite Hlen; reflexivity.
  - rewrite Hlen. reflexivity.
Qed.

Lemma expand_too_few_axes_witness :
  @expand Examples.symbolic_reduce Examples.infer_type ∅
    (TensorNode 7 "T" (TensorType "global" int32)
       (Some (GridCompute [convert 2; convert 3] [Examples.i] (convert 0))))
  = Raise IndexError.
Proof.
  apply (@expand_too_few_axes Examples.symbolic_reduce Examples.infer_type ∅
           [convert 2; convert 3] [Examples.i]).
  cbn. lia.
Defined.

(** ** Call sites and generated functions *)

Lemma cp_async_legal_cases (cp_size : Z) (cache_level : string) (prefetch_bytes : Z) :
  cp_async_legal cp_size cache_level prefetch_bytes ->
  In (cp_size, cache_level, prefetch_bytes)
    (flat_map (fun p => [(4, "always", p); (8, "always", p); (16, "always", p);
                         (16, "global", p)]) [0; 64; 128; 256]).
Proof.
  intros (H1 & H2 & H3 & H4). cbn [In] in H1, H2, H3.
  destruct H3 as [<- | [<- | []]];
    [| specialize (H4 eq_refl); subst cp_size];
    destruct H2 as [<- | [<- | [<- | [<- | []]]]];
    try (destruct H1 as [<- | [<- | [<- | []]]]);
    cbn; tauto.
Qed.

(** X5: the call built by [cp_async] refers to the device function that
    [register_cp_async] generated for the same copy size, cache level and
    prefetch distance, and passes as many arguments as that function has
    parameters. *)
Theorem cp_async_calls_generated (pool : Pool) (dst src : Expr) (cp_size : Z)
    (src_size : option Expr) (cache_level : string) (prefetch_bytes : Z) :
  primitive_pool = Ok pool ->
  cp_async_legal cp_size cache_level prefetch_bytes ->
  exists f args,
    CpAsync.cuda_cp_async cp_size prefetch_bytes cache_level = Ok f
    /\ pool_lookup pool (func_name f) = Some f
    /\ CpAsync.cp_async pool dst src cp_size src_size cache_level prefetch_bytes
       = Ok (Call (mkVar (func_name f) FuncType) args)
    /\ length args = length (params f).
Proof.
  intros Hpool Hlegal. apply cp_async_legal_cases in Hlegal.
  vm_compute in Hpool. injection Hpool as <-.
  cbn [flat_map app In] in Hlegal.
  set (arg := default (convert cp_size) src_size).
  assert (Harg : forall c, c = cp_size ->
                           match src_size with Some s => s | None => convert c end = arg).
  { intros c ->. subst arg. destruct src_size; reflexivity. }
  clearbody arg.
  repeat (destruct Hlegal as [Heq | Hlegal];
          [injection Heq as <- <- <-;
           eexists; exists [dst; src; arg];
           split; [vm_compute; reflexivity |];
           split; [vm_compute; reflexivity |];
           split; [| reflexivity];
           unfold CpAsync.cp_async; cbn [int_in str_in existsb negb Z.eqb Pos.eqb orb
                                            String.eqb Ascii.eqb Bool.eqb andb];
           rewrite (Harg _ eq_refl); vm_compute; reflexivity |]).
  destruct Hlegal.
Qed.

Lemma cp_async_calls_generated_witness :
  exists pool f,
    primitive_pool = Ok pool
    /\ CpAsync.cuda_cp_async 16 128 "global" = Ok f
    /\ pool_lookup pool "cuda_cp_async_size_16_cg_l2_128B" = Some f
    /\ Protocol.asm_templates f
       = ["cp.async.cg.shared.global.L2::128B [%0], [%1], %2, %3;"].
Proof.
  destruct primitive_pool as [pool |] eqn:Hpool; [| vm_compute in Hpool; discriminate].
  destruct (cp_async_calls_generated pool (EVar Examples.A_var) (EVar Examples.A_var)
              16 None "global" 128 Hpool) as (f & args & Hf & Hlook & _ & _).
  { repeat split; cbn; tauto. }
  exists pool, f. split; [reflexivity |]. split; [exact Hf |].
  vm_compute in Hf. injection Hf as <-. split; [exact Hlook | reflexivity].
Defined.

(** X6: [register_cp_async] skips exactly the combinations [cp_async]
    rejects: among the enumerated sizes and prefetch distances, no function
    is registered for the cache level [global] with a size other than 16. *)
Theorem cp_async_global_needs_16 :
  exists pool, primitive_pool = Ok pool
  /\ Forall (fun cp_size =>
       Forall (fun prefetch_bytes =>
         exists rname,
           CpAsync.resolve_name_cp_async cp_size "global" prefetch_bytes = Ok rname
           /\ (pool_lookup pool ("cuda_" +:+ rname) = None <-> cp_size <> 16)
           /\ (exists rname',
                 CpAsync.resolve_name_cp_async cp_size "always" prefetch_bytes = Ok rname'
                 /\ pool_lookup pool ("cuda_" +:+ rname') <> None))
         [0; 64; 128; 256]) [4; 8; 16].
Proof.
  eexists. split; [vm_compute; reflexivity |].
  repeat (apply Forall_cons_2;
          [repeat (apply Forall_cons_2;
                   [eexists; split; [vm_compute; reflexivity |];
                    split; [vm_compute; split; intros Hx; congruence |
                            eexists; split; [vm_compute; reflexivity | vm_compute; discriminate]]
                   |]); apply Forall_nil_2 |]).
  apply Forall_nil_2.
Qed.

(** X7: on the parameters [cp_async] accepts, the generated name determines
    the copy size, the cache level and the prefetch distance. *)
Theorem resolve_name_cp_async_injective (cp_size1 cp_size2 : Z)
    (cache_level1 cache_level2 : string) (prefetch_bytes1 prefetch_bytes2 : Z) :
  cp_async_legal cp_size1 cache_level1 prefetch_bytes1 ->
  cp_async_legal cp_size2 cache_level2 prefetch_bytes2 ->
  CpAsync.resolve_name_cp_async cp_size1 cache_level1 prefetch_bytes1
  = CpAsync.resolve_name_cp_async cp_size2 cache_level2 prefetch_bytes2 ->
  cp_size1 = cp_size2 /\ cache_level1 = cache_level2 /\ prefetch_bytes1 = prefetch_bytes2.
Proof.
  intros H1 H2. apply cp_async_legal_cases in H1, H2.
  cbn [flat_map app In] in H1, H2.
  repeat (destruct H1 as [Heq1 | H1]; [injection Heq1 as <- <- <- |]);
    try contradiction;
    repeat (destruct H2 as [Heq2 | H2]; [injection Heq2 as <- <- <- |]);
    try contradiction;
    vm_compute; intros Hname; first [discriminate Hname | tauto].
Qed.

Lemma resolve_name_cp_async_injective_witness :
  CpAsync.resolve_name_cp_async 16 "global" 64 = Ok "cp_async_size_16_cg_l2_64B"
  /\ (CpAsync.resolve_name_cp_async 16 "global" 64
      = CpAsync.resolve_name_cp_async 16 "global" 64 ->
      16 = 16 /\ "global" = "global" /\ 64 = 64).
Proof.
  split; [reflexivity |].
  apply (resolve_name_cp_async_injective 16 16 "global" "global" 64 64);
    repeat split; cbn; tauto.
Defined.

(** ** Warp matrix loads *)

(** X8: [ldmatrix] builds a call exactly when it is given 1, 2 or 4
    registers; the call then refers to the function that
    [register_ldmatrix_instructions] generated for that count and those
    flags, with one argument per parameter (the registers, then the
    address); any other count is rejected with a [ValueError]. *)
Theorem ldmatrix_calls_generated (pool : Pool) (regs : list Expr) (smem_addr : Expr)
    (shared_space_addr trans : bool) :
  primitive_pool = Ok pool ->
  let num := Z.of_nat (length regs) in
  (In num [1; 2; 4] ->
   exists f,
     Mma.ldmatrix_function num trans shared_space_addr = Ok f
     /\ pool_lookup pool (func_name f) = Some f
     /\ Mma.ldmatrix pool regs smem_addr shared_space_addr trans
        = Ok (Call (mkVar (func_name f) FuncType) (regs ++ [smem_addr]))
     /\ length (regs ++ [smem_addr]) = length (params f))
  /\ (~ In num [1; 2; 4] ->
      exists msg, Mma.ldmatrix pool regs smem_addr shared_space_addr trans
                  = Raise (ValueError msg)).
Proof.
  intros Hpool num. split.
  - intros Hin. vm_compute in Hpool. injection Hpool as <-.
    unfold Mma.ldmatrix. fold num. rewrite length_app. cbn [length].
    assert (Hlen : length regs = Z.to_nat num) by lia.
    rewrite Hlen. clearbody num.
    cbn [In] in Hin.
    destruct Hin as [<- | [<- | [<- | []]]];
      destruct shared_space_addr, trans;
      (eexists; split; [vm_compute; reflexivity |];
       split; [vm_compute; reflexivity |];
       split; [vm_compute; reflexivity | reflexivity]).
  - intros Hout. unfold Mma.ldmatrix, Mma.resolve_ldmatrix_func_name. fold num.
    destruct (int_in num [1; 2; 4]) eqn:E.
    + exfalso. apply Hout. apply int_in_true. exact E.
    + eexists. reflexivity.
Qed.

Lemma ldmatrix_calls_generated_witness :
  exists pool f,
    primitive_pool = Ok pool
    /\ pool_lookup pool "cuda_ldmatrix_x2_trans" = Some f
    /\ Mma.ldmatrix pool [EVar Examples.i; EVar Examples.j] (EVar Examples.A_var)
         false true
       = Ok (Call (mkVar "cuda_ldmatrix_x2_trans" FuncType)
               [EVar Examples.i; EVar Examples.j; EVar Examples.A_var])
    /\ Protocol.asm_templates f = ["ldmatrix.sync.aligned.m8n8.x2.trans.b16 {%0, %1}, [%2];"]
    /\ exists msg, Mma.ldmatrix pool [EVar Examples.i; EVar Examples.j; EVar Examples.k]
                     (EVar Examples.A_var) false true = Raise (ValueError msg).
Proof.
  destruct primitive_pool as [pool |] eqn:Hpool; [| vm_compute in Hpool; discriminate].
  destruct (ldmatrix_calls_generated pool [EVar Examples.i; EVar Examples.j]
              (EVar Examples.A_var) false true Hpool) as [Hok _].
  destruct (ldmatrix_calls_generated pool
              [EVar Examples.i; EVar Examples.j; EVar Examples.k]
              (EVar Examples.A_var) false true Hpool) as [_ Hbad].
  destruct Hok as (f & Hf & Hlook & Hcall & _); [cbn; tauto |].
  vm_compute in Hf. injection Hf as <-.
  exists pool. eexists. split; [reflexivity |]. split; [exact Hlook |].
  split; [exact Hcall |]. split; [reflexivity |].
  apply Hbad. cbn. lia.
Defined.

(** X9: on the counts it accepts, [resolve_ldmatrix_func_name] gives
    different names to different combinations of count, address-space flag
    and transpose flag. *)
Theorem resolve_ldmatrix_func_name_injective (num1 num2 : Z)
    (shared1 shared2 trans1 trans2 : bool) :
  In num1 [1; 2; 4] -> In num2 [1; 2; 4] ->
  Mma.resolve_ldmatrix_func_name num1 shared1 trans1
  = Mma.resolve_ldmatrix_func_name num2 shared2 trans2 ->
  num1 = num2 /\ shared1 = shared2 /\ trans1 = trans2.
Proof.
  intros H1 H2. cbn [In] in H1, H2.
  destruct H1 as [<- | [<- | [<- | []]]]; destruct H2 as [<- | [<- | [<- | []]]];
    destruct shared1, shared2, trans1, trans2;
    vm_compute; intros Hname; first [discriminate Hname | tauto].
Qed.

Lemma resolve_ldmatrix_func_name_injective_witness :
  Mma.resolve_ldmatrix_func_name 4 true false = Ok "ldmatrix_x4_shared"
  /\ Mma.resolve_ldmatrix_func_name 4 false true = Ok "ldmatrix_x4_trans"
  /\ (Mma.resolve_ldmatrix_func_name 4 true false
      = Mma.resolve_ldmatrix_func_name 4 true false ->
      4 = 4 /\ true = true /\ false = false).
Proof.
  split; [reflexivity |]. split; [reflexivity |].
  apply (resolve_ldmatrix_func_name_injective 4 4 true true false false); cbn; tauto.
Defined.

(** ** Matrix-multiply configurations *)

(** X10: for every registered configuration, [mma_sync] builds a call to
    the device function generated for that configuration, with the three
    addresses as arguments for its three parameters; the instruction names of
    the registered configurations are pairwise different. *)
Theorem mma_sync_calls_generated :
  exists mma_configs pool,
    Mma.register_mma_configs = Ok mma_configs
    /\ primitive_pool = Ok pool
    /\ Forall (fun config =>
         forall a_addr b_addr c_addr,
           Mma.mma_sync pool config a_addr b_addr c_addr
           = Ok (Call (mkVar (func_name (Mma.mma_function config)) FuncType)
                   [a_addr; b_addr; c_addr])
           /\ length (params (Mma.mma_function config)) = 3%nat)
         (Mma.all mma_configs)
    /\ NoDup (map Mma.inst_name (Mma.all mma_configs)).
Proof.
  do 2 eexists. split; [vm_compute; reflexivity |]. split; [vm_compute; reflexivity |].
  split.
  - cbn [Mma.all map snd].
    repeat (apply Forall_cons_2;
            [intros a_addr b_addr c_addr; split; [vm_compute; reflexivity | reflexivity] |]).
    apply Forall_nil_2.
  - apply (proj2 (NoDup_ListNoDup _)). vm_compute.
    repeat (apply List.NoDup_cons; [cbn; intuition discriminate |]). apply List.NoDup_nil.
Qed.

Lemma num_regs_exact (short_dtype : string) (nbytes num_elements regs : Z) :
  Mma.ScalarType_nbytes short_dtype = Ok nbytes ->
  Mma.num_regs short_dtype num_elements = Ok regs ->
  regs * (4 * 32) = nbytes * num_elements
  /\ ((nbytes | 4) ->
      num_elements / 32 * 32 = num_elements
      /\ regs * 4 = num_elements / 32 * nbytes).
Proof.
  intros Hn Hr. rewrite (num_regs_unfold _ _ _ Hn) in Hr.
  destruct (decide _) as [Hmod | Hmod]; [| discriminate].
  injection Hr as <-.
  apply Z.mod_divide in Hmod as [c Hc]; [| lia].
  assert (Hregs : nbytes * num_elements / (4 * 32) * (4 * 32) = nbytes * num_elements).
  { rewrite Hc. rewrite Z.div_mul by lia. reflexivity. }
  split; [exact Hregs |].
  intros [w Hw].
  assert (H4 : 4 * num_elements = w * (nbytes * num_elements)).
  { rewrite Hw. ring. }
  rewrite Hc in H4.
  assert (Hlanes : num_elements = w * c * 32) by lia.
  assert (Hper : num_elements / 32 * 32 = num_elements).
  { rewrite Hlanes at 1. rewrite Z.div_mul by lia. lia. }
  split; [exact Hper |].
  rewrite Hc, Z.div_mul by lia.
  rewrite Hlanes at 1. rewrite Z.div_mul by lia.
  assert (c * 4 = c * (w * nbytes)) by (rewrite <- Hw; reflexivity). lia.
Qed.

(** X11: a configuration that [MmaConfig] accepts holds the bytes of each
    operand in its registers with none left over: registers times 4 bytes
    times 32 lanes is the operand's size.  When the element width divides
    the register width (1, 2 or 4 bytes, as for every registered
    configuration), the elements also divide evenly among the 32 lanes and
    each lane's registers hold exactly the lane's elements; for wider
    elements they need not, see [mma_config_wide_elements]. *)
Theorem mma_config_packing (m n k : Z) (input_dtype output_dtype : string)
    (a_load_map b_load_map c_store_map : Mma.TaskMapping) (config : Mma.MmaConfig)
    (in_bytes out_bytes : Z) :
  Mma.MmaConfig_init m n k input_dtype output_dtype a_load_map b_load_map c_store_map
  = Ok config ->
  Mma.ScalarType_nbytes input_dtype = Ok in_bytes ->
  Mma.ScalarType_nbytes output_dtype = Ok out_bytes ->
  (Mma.a_regs config * (4 * 32) = in_bytes * (m * k)
   /\ Mma.b_regs config * (4 * 32) = in_bytes * (k * n)
   /\ Mma.c_regs config * (4 * 32) = out_bytes * (m * n))
  /\ ((in_bytes | 4) ->
      (Mma.a_elements config * 32 = m * k
       /\ Mma.b_elements config * 32 = k * n)
      /\ (Mma.a_regs config * 4 = Mma.a_elements config * in_bytes
          /\ Mma.b_regs config * 4 = Mma.b_elements config * in_bytes))
  /\ ((out_bytes | 4) ->
      Mma.c_elements config * 32 = m * n
      /\ Mma.c_regs config * 4 = Mma.c_elements config * out_bytes).
Proof.
  intros Hinit Hin Hout. unfold Mma.MmaConfig_init in Hinit.
  destruct (Mma.num_regs input_dtype (m * k)) as [ra |] eqn:Ha; [| discriminate].
  destruct (Mma.num_regs input_dtype (k * n)) as [rb |] eqn:Hb; [| discriminate].
  destruct (Mma.num_regs output_dtype (m * n)) as [rc |] eqn:Hc; [| discriminate].
  cbn [bind] in Hinit. injection Hinit as <-. cbn.
  pose proof (num_regs_exact _ _ _ _ Hin Ha) as [Ha1 Ha2].
  pose proof (num_regs_exact _ _ _ _ Hin Hb) as [Hb1 Hb2].
  pose proof (num_regs_exact _ _ _ _ Hout Hc) as [Hc1 Hc2].
  split; [tauto |]. split.
  - intros Hw. specialize (Ha2 Hw). specialize (Hb2 Hw). tauto.
  - intros Hw. specialize (Hc2 Hw). tauto.
Qed.

Lemma mma_config_packing_witness :
  exists config,
    Mma.MmaConfig_init 16 8 16 "bf16" "f32"
      (Mma.row_repeat 1 1) (Mma.row_repeat 1 1) (Mma.row_repeat 1 1) = Ok config
    /\ Mma.a_regs config * 4 = Mma.a_elements config * 2
    /\ Mma.c_regs config * 4 = Mma.c_elements config * 4.
Proof.
  eexists. split; [vm_compute; reflexivity |].
  pose proof (mma_config_packing 16 8 16 "bf16" "f32"
                (Mma.row_repeat 1 1) (Mma.row_repeat 1 1) (Mma.row_repeat 1 1)
                _ 2 4 eq_refl eq_refl eq_refl) as (_ & Hin & Hout).
  destruct Hin as (_ & Ha & _); [exists 2; reflexivity |].
  destruct Hout as (_ & Hc); [exists 1; reflexivity |].
  split; [exact Ha | exact Hc].
Defined.

(** With 8-byte elements the assertion of [num_regs] can hold while the
    elements do not fill the lanes: a 4 x 4 x 4 configuration of [int64]
    is accepted with one register per lane and, by [m * k // 32], no element
    per lane. *)
Lemma mma_config_wide_elements :
  exists config,
    Mma.MmaConfig_init 4 4 4 "int64" "int64"
      (Mma.row_repeat 1 1) (Mma.row_repeat 1 1) (Mma.row_repeat 1 1) = Ok config
    /\ Mma.a_regs config = 1 /\ Mma.a_elements config = 0
    /\ Mma.a_regs config * (4 * 32) = 8 * (4 * 4)
    /\ Mma.a_regs config * 4 <> Mma.a_elements config * 8.
Proof.
  eexists. split; [vm_compute; reflexivity |]. cbn. repeat split; lia.
Qed.

(** X12: every key of [mma_configs] spells the shape and the element types
    of the configuration stored under it, so each static accessor of
    [MmaConfig] finds its entry and returns the configuration its name
    says. *)
Theorem mma_config_keys_consistent :
  exists mma_configs,
    Mma.register_mma_configs = Ok mma_configs
    /\ Forall (fun entry =>
         let config := snd entry in
         fst entry = "m" +:+ str_int (Mma.m config) +:+ "n" +:+ str_int (Mma.n config)
                     +:+ "k" +:+ str_int (Mma.k config) +:+ "_" +:+ Mma.input_dtype config
                     +:+ "_" +:+ Mma.output_dtype config
         /\ Mma.config_getitem mma_configs (fst entry) = Ok config) mma_configs
    /\ NoDup (map fst mma_configs)
    /\ map is_ok [Mma.m16n8k8_f16_f16 mma_configs; Mma.m16n8k8_f16_f32 mma_configs;
                  Mma.m16n8k16_f16_f16 mma_configs; Mma.m16n8k16_f16_f32 mma_configs;
                  Mma.m16n8k8_bf16_f32 mma_configs; Mma.m16n8k16_bf16_f32 mma_configs;
                  Mma.m16n8k4_tf32_f32 mma_configs; Mma.m16n8k8_tf32_f32 mma_configs]
       = repeat true 8
    /\ length (Mma.all mma_configs) = 8%nat.
Proof.
  eexists. split; [vm_compute; reflexivity |].
  split; [| split; [| split; reflexivity]].
  - repeat (apply Forall_cons_2; [split; vm_compute; reflexivity |]). apply Forall_nil_2.
  - apply (proj2 (NoDup_ListNoDup _)). vm_compute.
    repeat (apply List.NoDup_cons; [cbn; intuition discriminate |]). apply List.NoDup_nil.
Qed.

(** ** [uint64] constants from floats *)

Lemma quot_nonneg_iff (a b : Z) : 0 < b -> (0 <= Z.quot a b <-> - b < a).
Proof.
  intros Hb. destruct (Z_lt_le_dec a 0) as [Ha | Ha].
  - replace a with (- (- a)) by lia. rewrite Z.quot_opp_l by lia.
    rewrite Z.quot_div_nonneg by lia.
    pose proof (Z.div_small_iff (- a) b ltac:(lia)) as Hs.
    pose proof (Z.div_pos (- a) b ltac:(lia) Hb). split; intros Hx.
    + assert (Hz : - a / b = 0) by lia. apply Hs in Hz. lia.
    + assert (Hz : - a / b = 0) by (apply Hs; lia). lia.
  - rewrite Z.quot_div_nonneg by lia.
    pose proof (Z.div_pos a b Ha Hb). lia.
Qed.

Lemma quot_le_iff (a b bound : Z) :
  0 < b -> 0 <= bound -> (Z.quot a b <= bound <-> a < (bound + 1) * b).
Proof.
  intros Hb Hbound. destruct (Z_lt_le_dec a 0) as [Ha | Ha].
  - replace a with (- (- a)) at 1 by lia. rewrite Z.quot_opp_l by lia.
    rewrite Z.quot_div_nonneg by lia.
    pose proof (Z.div_pos (- a) b ltac:(lia) Hb). split; intros _; nia.
  - rewrite Z.quot_div_nonneg by lia. split; intros Hx.
    + pose proof (Z.mod_pos_bound a b Hb). pose proof (Z.div_mod a b ltac:(lia)). nia.
    + assert (a / b < bound + 1); [| lia].
      apply Z.div_lt_upper_bound; lia.
Qed.

(** X13: [uint64.constant] on a float always issues the conversion
    warning.  A finite float is accepted exactly when it lies strictly
    between -1 and 2^64: it is truncated towards zero before the range
    check, so a fraction above -1 gives the constant 0; outside, the range
    check raises [ValueError].  An infinity makes [int(value)] raise
    [OverflowError] and not-a-number makes it raise [ValueError], before any
    range check; only an infinity gives [OverflowError]. *)
Theorem uint64_constant_float :
  (forall q : Q,
      ((exists c, snd (UInt64.constant (UInt64.PyFloat q)) = Ok c)
       <-> (-1 # 1 < q)%Q /\ (q < 18446744073709551616 # 1)%Q)
      /\ ((exists msg, snd (UInt64.constant (UInt64.PyFloat q)) = Raise (ValueError msg))
          <-> ~ ((-1 # 1 < q)%Q /\ (q < 18446744073709551616 # 1)%Q))
      /\ ((-1 # 1 < q)%Q -> (q < 1 # 1)%Q ->
          snd (UInt64.constant (UInt64.PyFloat q)) = Ok (Constant 0 UInt64.uint64))
      /\ fst (UInt64.constant (UInt64.PyFloat q))
         = ["Converting float to int when creating uint64 constant."])
  /\ (forall negative : bool,
        UInt64.constant (UInt64.PyInfinity negative)
        = (["Converting float to int when creating uint64 constant."],
           Raise (OverflowError "cannot convert float infinity to integer")))
  /\ UInt64.constant UInt64.PyNaN
     = (["Converting float to int when creating uint64 constant."],
        Raise (ValueError "cannot convert float NaN to integer"))
  /\ (forall value msg,
        snd (UInt64.constant value) = Raise (OverflowError msg) ->
        exists negative, value = UInt64.PyInfinity negative).
Proof.
  split; [| split; [reflexivity | split; [reflexivity |]]].
  2: { intros value msg. destruct value as [v | q | negative |]; unfold UInt64.constant;
         cbn [UInt64.int snd].
       - destruct (negb _); cbn [snd]; discriminate.
       - destruct (negb _); cbn [snd]; discriminate.
       - intros _. exists negative. reflexivity.
       - discriminate. }
  intros q.
  destruct q as [a b]. unfold Qlt. cbn [Qnum Qden].
  unfold UInt64.constant. cbn [UInt64.isinstance_float UInt64.int Qnum Qden].
  set (v := Z.quot a (Z.pos b)).
  assert (Hlo : 0 <= v <-> -1 * Z.pos b < a * 1).
  { unfold v. rewrite quot_nonneg_iff by lia. lia. }
  assert (Hhi : v <= 18446744073709551615 <-> a * 1 < 18446744073709551616 * Z.pos b).
  { unfold v. rewrite (quot_le_iff a (Z.pos b) 18446744073709551615) by lia. lia. }
  assert (Hzero : -1 * Z.pos b < a * 1 -> a * 1 < 1 * Z.pos b -> v = 0).
  { intros H1 H2. assert (0 <= v) by (apply Hlo; exact H1).
    assert (v <= 0); [| lia].
    unfold v. apply (quot_le_iff a (Z.pos b) 0); lia. }
  destruct (negb ((0 <=? v)%Z && (v <=? 18446744073709551615)%Z)) eqn:E; cbn [fst snd].
  - assert (Hn : ~ (0 <= v /\ v <= 18446744073709551615)).
    { intros Hr. apply (uint64_in_range_dec v) in Hr. congruence. }
    split; [| split; [| split]].
    + split; [intros [c Hc]; discriminate Hc | intros Hr; tauto].
    + split; [intros _; tauto | intros _; eexists; reflexivity].
    + intros H1 H2. exfalso. apply Hn. rewrite (Hzero H1 H2). lia.
    + reflexivity.
  - apply uint64_in_range_dec in E.
    split; [| split; [| split]].
    + split; [intros _; tauto | intros _; eexists; reflexivity].
    + split; [intros [msg Hm]; discriminate Hm | intros Hr; tauto].
    + intros H1 H2. rewrite (Hzero H1 H2). reflexivity.
    + reflexivity.
Qed.

(** ** No compute node is left after lowering *)

Lemma loop_nest_compute_free (axes : list Var) :
  forall (shape : list Expr) (body : list Stmt),
    forallb compute_free shape = true ->
    forallb stmt_compute_free body = true ->
    forallb stmt_compute_free (loop_nest (zip axes shape) body) = true.
Proof.
  induction axes as [| a axes IH]; intros shape body Hs Hb; [exact Hb |].
  destruct shape as [| s shape]; [exact Hb |].
  cbn in Hs. apply andb_true_iff in Hs as [Hs1 Hs2].
  cbn [zip zip_with loop_nest forallb stmt_compute_free].
  rewrite Hs1, (IH shape body Hs2 Hb). reflexivity.
Qed.

Lemma prod_compute_free (shape : list Expr) :
  forallb compute_free shape = true -> compute_free (prod shape) = true.
Proof.
  unfold prod. destruct shape as [| c rest]; [reflexivity |].
  cbn [forallb]. intros Hs. apply andb_true_iff in Hs as [Hc Hrest].
  revert c Hc. induction rest as [| x rest IH]; intros c Hc; [exact Hc |].
  cbn in Hrest. apply andb_true_iff in Hrest as [Hx Hrest].
  cbn [fold_left]. apply IH; [exact Hrest |]. cbn. rewrite Hc, Hx. reflexivity.
Qed.

Lemma axes_compute_free (axes : list Var) : forallb compute_free (map EVar axes) = true.
Proof. induction axes as [| a axes IH]; [reflexivity | exact IH]. Qed.

Section ComputeFree.

Context `{ReduceInterface}.
Variable infer_type : Expr -> ScalarType.
Variable input_map : gmap NodeKey Var.
Hypothesis Hinterface : interface_compute_free.

Abbreviation lowered := (lowered infer_type input_map).
Abbreviation lowers_compute_free := (Lowering.lowers_compute_free infer_type input_map).

Lemma lowered_each_no_compute (l : list Expr) :
  Forall lowers_compute_free l ->
  forallb extents_compute_free l = true ->
  forall nbm vs new nbm',
    lowered_each lowered l nbm = Ok (vs, new, nbm') ->
    forallb compute_free vs = true /\ forallb stmt_compute_free new = true.
Proof.
  induction 1 as [| x l Hx _ IH]; intros Hext nbm vs new nbm' Heq.
  - cbn in Heq. injection Heq as <- <- <-. split; reflexivity.
  - cbn in Hext. apply andb_true_iff in Hext as [Hx' Hl].
    cbn [lowered_each] in Heq.
    destruct (lowered x nbm) as [[[y s1] nbm1] |] eqn:E1; [| discriminate].
    destruct (lowered_each lowered l nbm1) as [[[ys s2] nbm2] |] eqn:E2; [| discriminate].
    injection Heq as <- <- <-.
    destruct (Hx Hx' _ _ _ _ E1) as [Hy Hs1].
    destruct (IH Hl _ _ _ _ E2) as [Hys Hs2].
    cbn [forallb]. rewrite forallb_app, Hy, Hys, Hs1, Hs2. split; reflexivity.
Qed.

Ltac lower_step IH Hext :=
  match goal with
  | Heq : match Schedules.lowered _ _ ?e ?m with _ => _ end = Ok _ |- _ =>
      let E := fresh "E" in
      let Hv := fresh "Hv" in
      let Hs := fresh "Hs" in
      destruct (Schedules.lowered infer_type input_map e m) as [[[? ?] ?] |] eqn:E;
      [destruct (IH Hext _ _ _ _ E) as [Hv Hs] | discriminate Heq]
  end.

Lemma lowered_no_compute (e : Expr) : lowers_compute_free e.
Proof.
  destruct Hinterface as (Hinit & Hcomb & Harg & Hfin).
  elim e using Expr_visit_ind; clear e; unfold lowers_compute_free.
  - intros v0 _ nbm v new nbm' Heq. cbn in Heq. injection Heq as <- <- <-. auto.
  - intros value dt _ nbm v new nbm' Heq. cbn in Heq. injection Heq as <- <- <-. auto.
  - intros op a b IHa IHb Hext nbm v new nbm' Heq.
    cbn in Hext. apply andb_true_iff in Hext as [Ha Hb].
    cbn [Schedules.lowered] in Heq.
    lower_step IHa Ha. lower_step IHb Hb. injection Heq as <- <- <-.
    cbn [compute_free]. rewrite forallb_app, Hv, Hv0, Hs, Hs0. auto.
  - intros op a IHa Hext nbm v new nbm' Heq. cbn in Hext.
    cbn [Schedules.lowered] in Heq. lower_step IHa Hext. injection Heq as <- <- <-. auto.
  - intros base indices IHb IHi Hext nbm v new nbm' Heq.
    cbn in Hext. apply andb_true_iff in Hext as [Hb Hi].
    cbn [Schedules.lowered] in Heq. lower_step IHb Hb.
    destruct (lowered_each lowered indices g) as [[[ys s2] nbm2] |] eqn:E2; [| discriminate].
    destruct (lowered_each_no_compute _ IHi Hi _ _ _ _ E2) as [Hys Hs2].
    injection Heq as <- <- <-.
    cbn [compute_free]. rewrite forallb_app, Hv, Hys, Hs, Hs2. auto.
  - intros c t f IHc IHt IHf Hext nbm v new nbm' Heq.
    cbn in Hext. apply andb_true_iff in Hext as [Hext Hf3].
    apply andb_true_iff in Hext as [Hf1 Hf2].
    cbn [Schedules.lowered] in Heq.
    lower_step IHc Hf1. lower_step IHt Hf2. lower_step IHf Hf3.
    injection Heq as <- <- <-.
    cbn [compute_free]. rewrite !forallb_app, Hv, Hv0, Hv1, Hs, Hs0, Hs1. auto.
  - intros func_var args IHargs Hext nbm v new nbm' Heq. cbn in Hext.
    cbn [Schedules.lowered] in Heq.
    destruct (lowered_each lowered args nbm) as [[[ys s2] nbm2] |] eqn:E2; [| discriminate].
    destruct (lowered_each_no_compute _ IHargs Hext _ _ _ _ E2) as [Hys Hs2].
    injection Heq as <- <- <-. auto.
  - intros a target_type IHa Hext nbm v new nbm' Heq. cbn in Hext.
    cbn [Schedules.lowered] in Heq. lower_step IHa Hext. injection Heq as <- <- <-. auto.
  - intros a IHa Hext nbm v new nbm' Heq. cbn in Hext.
    cbn [Schedules.lowered] in Heq. lower_step IHa Hext. injection Heq as <- <- <-. auto.
  - intros a IHa Hext nbm v new nbm' Heq. cbn in Hext.
    cbn [Schedules.lowered] in Heq. lower_step IHa Hext. injection Heq as <- <- <-. auto.
  - intros uid nm dt _ nbm v new nbm' Heq. cbn [Schedules.lowered] in Heq.
    destruct (input_map !! inl uid); [| discriminate]. injection Heq as <- <- <-. auto.
  - intros uid nm dt shape axes value IHv Hext nbm v new nbm' Heq.
    cbn in Hext. apply andb_true_iff in Hext as [Hshape Hvalue].
    cbn [Schedules.lowered] in Heq.
    destruct (input_map !! inl uid) as [buf |];
      (destruct (length axes <? length shape)%nat; [discriminate |]);
      lower_step IHv Hvalue; injection Heq as <- <- <-;
      (split; [reflexivity |]);
      apply loop_nest_compute_free; [exact Hshape | | exact Hshape |];
      rewrite forallb_app, Hs; cbn; rewrite axes_compute_free, Hv; reflexivity.
  - intros uid nm dt type_name _ nbm v new nbm' Heq. discriminate.
  - intros uid nm dt _ nbm v new nbm' Heq. cbn [Schedules.lowered] in Heq.
    destruct (input_map !! inr uid); [| discriminate]. injection Heq as <- <- <-. auto.
  - intros uid nm dt shape axes value op IHv Hext nbm v new nbm' Heq.
    cbn in Hext. apply andb_true_iff in Hext as [Hshape Hvalue].
    cbn [Schedules.lowered] in Heq.
    destruct (length axes <? length shape)%nat; [discriminate |].
    lower_step IHv Hvalue. injection Heq as <- <- <-.
    assert (Hres : compute_free
                     (finalize op (EVar (scalar_var nm (infer_type value))) (prod shape))
                   = true).
    { apply Hfin; [reflexivity | apply prod_compute_free; exact Hshape]. }
    split; [exact Hres |].
    cbn [app forallb stmt_compute_free]. rewrite Hinit. cbn [andb].
    rewrite forallb_app. apply andb_true_iff. split.
    + apply loop_nest_compute_free; [exact Hshape |].
      rewrite forallb_app, Hs. cbn. rewrite Hcomb by (reflexivity || exact Hv). reflexivity.
    + unfold write_back. destruct (input_map !! inr uid); [| reflexivity].
      cbn. rewrite Hres. reflexivity.
  - intros uid nm dt extent axis value op index_dtype IHv Hext nbm v new nbm' Heq.
    cbn in Hext. apply andb_true_iff in Hext as [Hextent Hvalue].
    cbn [Schedules.lowered] in Heq.
    lower_step IHv Hvalue. injection Heq as <- <- <-.
    split; [reflexivity |].
    cbn [app forallb stmt_compute_free compute_free convert].
    rewrite Hinit, Hextent. cbn [andb].
    rewrite forallb_app, Hs. cbn [forallb stmt_compute_free compute_free andb].
    rewrite Harg by (reflexivity || exact Hv). rewrite Hv. cbn [andb].
    unfold write_back. destruct (input_map !! inr uid); reflexivity.
  - intros uid nm dt type_name _ nbm v new nbm' Heq. discriminate.
Qed.

End ComputeFree.

(** X14: what [expand_loop] promises in its docstring.  When the reduce
    operations build ordinary expressions and the sizes of the reached
    compute nodes are ordinary expressions, the statements and the value
    returned by a lowering contain no tensor or scalar node any more. *)
Theorem expand_leaves_no_compute_node `{ReduceInterface}
    (infer_type : Expr -> ScalarType) (input_map : gmap NodeKey Var)
    (expr : Expr) stmt value new_buffer_map :
  interface_compute_free ->
  extents_compute_free expr = true ->
  expand_loop infer_type input_map expr = Ok (stmt, value, new_buffer_map) ->
  stmt_compute_free stmt = true /\ compute_free value = true.
Proof.
  intros Hinterface Hext. unfold expand_loop. rewrite expand_lowered.
  destruct (Schedules.lowered infer_type input_map expr ∅) as [[[v new] nbm] |] eqn:E;
    [| discriminate].
  intros Heq. injection Heq as <- <- <-.
  destruct (lowered_no_compute infer_type input_map Hinterface expr Hext _ _ _ _ E)
    as [Hv Hnew].
  split; [exact Hnew | exact Hv].
Qed.

Lemma symbolic_reduce_compute_free : @interface_compute_free Examples.symbolic_reduce.
Proof.
  repeat split; intros; cbn; rewrite ?andb_true_r;
    repeat match goal with Hx : _ = true |- _ => rewrite Hx end; reflexivity.
Qed.

Lemma expand_leaves_no_compute_node_witness :
  exists stmt value new_buffer_map,
    @expand_loop Examples.symbolic_reduce Examples.infer_type Examples.A_out_map
      Examples.reduce_A = Ok (stmt, value, new_buffer_map)
    /\ stmt_compute_free stmt = true /\ compute_free value = true.
Proof.
  destruct (@expand_loop Examples.symbolic_reduce Examples.infer_type Examples.A_out_map
              Examples.reduce_A) as [[[stmt value] nbm] |] eqn:E;
    [| vm_compute in E; discriminate E].
  exists stmt, value, nbm. split; [reflexivity |].
  apply (@expand_leaves_no_compute_node Examples.symbolic_reduce Examples.infer_type
           Examples.A_out_map Examples.reduce_A stmt value nbm
           symbolic_reduce_compute_free eq_refl E).
Defined.

(** ** What the reduction loops compute *)

(** One element of [idx] per axis: how the lowered nest binds its axes. *)
Lemma bind_axes_agree_but (acc : Var) (axes : list Var) :
  forall env1 env2 idx,
    length idx = length axes ->
    (forall v, v ∉ axes -> v <> acc -> env1 v = env2 v) ->
    forall v, v <> acc -> bind_axes env1 axes idx v = bind_axes env2 axes idx v.
Proof.
  induction axes as [| a axes IH]; intros env1 env2 idx Hlen Hout v Hv.
  - destruct idx; [| discriminate]. cbn. apply Hout; [set_solver | exact Hv].
  - destruct idx as [| i idx]; [discriminate |]. cbn [bind_axes].
    apply IH; [cbn in Hlen; lia | | exact Hv].
    intros w Hw Hwacc. unfold upd. destruct (decide (w = a)) as [-> | Hne]; [reflexivity |].
    apply Hout; [set_solver | exact Hwacc].
Qed.

Lemma fold_left_ext_in {A B : Type} (f g : A -> B -> A) (l : list B) :
  (forall s x, In x l -> f s x = g s x) ->
  forall s, fold_left f l s = fold_left g l s.
Proof.
  induction l as [| x l IH]; intros Hfg s; [reflexivity |].
  cbn. rewrite (Hfg s x) by (left; reflexivity).
  apply IH. intros s' y Hy. apply Hfg. right. exact Hy.
Qed.

Lemma fold_left_map {A B C : Type} (f : A -> C -> A) (h : B -> C) (l : list B) :
  forall s, fold_left f (map h l) s = fold_left (fun s x => f s (h x)) l s.
Proof. induction l as [| x l IH]; intros s; [reflexivity | cbn; apply IH]. Qed.

Section ReduceExecution.

Context `{ReduceInterface}.
Variable read : Var -> list Z -> Z.
Variable call : Var -> list Z -> Z.

Abbreviation eval := (eval read call).
Abbreviation exec := (exec read call).

Lemma eval_prod (env : Env) (dims : list Z) :
  eval env (prod (map convert dims)) = extent_product dims.
Proof.
  unfold prod, extent_product. destruct dims as [| d dims]; [reflexivity |].
  cbn [map fold_right].
  change d with (eval env (convert d)) at 2. generalize (convert d).
  induction dims as [| x dims IH]; intros c; cbn [map fold_left fold_right]; [lia |].
  rewrite IH. cbn [Semantics.eval eval_binary convert]. ring.
Qed.

Variable op : ReduceOperation.
Variable acc : Var.
Variable value : Expr.
Variable g : Z -> Z -> Z.

Hypothesis Hcombine :
  forall env lhs rhs, eval env (combine op lhs rhs) = g (eval env lhs) (eval env rhs).
Hypothesis Hindependent :
  forall env1 env2, (forall v, v <> acc -> env1 v = env2 v) -> eval env1 value = eval env2 value.

(** The nest of reduction loops folds [g] over the coordinates, row by row,
    starting from what the accumulator holds. *)
Lemma exec_reduce_nest (axes : list Var) :
  acc ∉ axes ->
  forall dims env,
    length dims = length axes ->
    exists env',
      run_each exec
        (loop_nest (zip axes (map convert dims))
           [AssignStmt acc (combine op (EVar acc) value)]) env
      = (env', [])
      /\ env' acc
         = fold_left (fun s idx => g s (eval (bind_axes env axes idx) value))
             (coords dims) (env acc)
      /\ forall v, v ∉ axes -> v <> acc -> env' v = env v.
Proof.
  induction axes as [| a axes IH]; intros Hacc dims env Hlen.
  - destruct dims; [| discriminate].
    exists (upd env acc (g (env acc) (eval env value))).
    cbn [map zip zip_with loop_nest run_each Semantics.exec coords fold_left bind_axes app].
    rewrite Hcombine. cbn [Semantics.eval]. split; [reflexivity |]. split.
    + unfold upd. destruct (decide (acc = acc)); [reflexivity | contradiction].
    + intros v _ Hv. unfold upd. destruct (decide (v = acc)); [contradiction | reflexivity].
  - destruct dims as [| d dims]; [discriminate |].
    assert (Hlen' : length dims = length axes) by (cbn in Hlen; lia).
    assert (Hacc' : acc ∉ axes) by set_solver.
    assert (Hne : acc <> a) by set_solver.
    cbn [map zip zip_with loop_nest run_each Semantics.exec].
    cbn [Semantics.eval convert].
    assert (Hiter : forall (ixs : list Z) (env_k : Env),
               (forall v, v ∉ a :: axes -> v <> acc -> env_k v = env v) ->
               exists env',
                 run_each
                   (fun i env0 =>
                      run_each exec
                        (loop_nest (zip axes (map convert dims))
                           [AssignStmt acc (combine op (EVar acc) value)]) (upd env0 a i))
                   ixs env_k
                 = (env', [])
                 /\ env' acc
                    = fold_left
                        (fun s idx => g s (eval (bind_axes env (a :: axes) idx) value))
                        (flat_map (fun i => map (cons i) (coords dims)) ixs) (env_k acc)
                 /\ forall v, v ∉ a :: axes -> v <> acc -> env' v = env v).
    { induction ixs as [| i ixs IHis]; intros env_k Hk.
      - exists env_k. split; [reflexivity |]. split; [reflexivity | exact Hk].
      - cbn [run_each flat_map].
        destruct (IH Hacc' dims (upd env_k a i) Hlen') as (env1 & Hrun & Hfold & Henv1).
        rewrite Hrun.
        destruct (IHis env1) as (env2 & Hrun2 & Hfold2 & Henv2).
        { intros v Hv Hvacc. rewrite Henv1 by set_solver. unfold upd.
          destruct (decide (v = a)) as [-> | _]; [set_solver | apply Hk; assumption]. }
        rewrite Hrun2. exists env2. split; [reflexivity |]. split; [| exact Henv2].
        rewrite Hfold2, Hfold, fold_left_app, fold_left_map. f_equal.
        unfold upd at 2. destruct (decide (acc = a)); [contradiction |].
        apply fold_left_ext_in. intros s idx Hin. apply coords_length in Hin.
        f_equal. cbn [bind_axes]. apply Hindependent.
        apply bind_axes_agree_but; [lia |].
        intros v Hv Hvacc. unfold upd. destruct (decide (v = a)); [reflexivity |].
        apply Hk; [set_solver | exact Hvacc]. }
    destruct (Hiter (range 0 d) env) as (env' & Hrun & Hfold & Henv'); [auto |].
    rewrite Hrun. exists env'. split; [reflexivity |]. split; [| exact Henv'].
    exact Hfold.
Qed.

End ReduceExecution.

(** X15: what the statements of a Reduce node compute.  For constant sizes,
    one axis per dimension and a value [f] without compute nodes that does
    not read the accumulator, running the lowered statements leaves in the
    accumulator the left fold of [combine] over [f] at the coordinates in
    row-major order, started from the identity; the handle, and the supplied
    storage of the node when there is one, hold that fold finalized with the
    number of coordinates; nothing is stored into a buffer. *)
Theorem reduce_computes_fold `{ReduceInterface} (infer_type : Expr -> ScalarType)
    (input_map : gmap NodeKey Var) (read call : Var -> list Z -> Z)
    uid nm (dt : ScalarType) axes value op (dims : list Z)
    (z0 : Z) (g fin : Z -> Z -> Z) (better : Z -> Z -> bool) (env : Env) :
  let acc := scalar_var nm (infer_type value) in
  let e := ScalarNode uid nm dt (Some (ReduceCompute (map convert dims) axes value op)) in
  let folded :=
    fold_left (fun s idx => g s (eval read call (bind_axes env axes idx) value))
      (coords dims) z0 in
  reduce_meaning read call op (ByName (name dt)) z0 g fin better ->
  length axes = length dims ->
  compute_free value = true ->
  acc ∉ axes ->
  input_map !! inr uid <> Some acc ->
  (forall env1 env2, (forall v, v <> acc -> env1 v = env2 v) ->
                     eval read call env1 value = eval read call env2 value) ->
  exists stmt result,
    expand infer_type input_map e = Ok (stmt, result, {[inr uid := acc]})
    /\ fst (exec read call stmt env) acc = folded
    /\ eval read call (fst (exec read call stmt env)) result
       = fin folded (extent_product dims)
    /\ (forall input_var, input_map !! inr uid = Some input_var ->
          fst (exec read call stmt env) input_var = fin folded (extent_product dims))
    /\ snd (exec read call stmt env) = [].
Proof.
  intros acc e folded (Hinit & Hcombine & Hfinalize & _) Hlen Hfree Hacc Hmap Hindep.
  assert (Hdims : length dims = length axes) by lia.
  eexists. eexists. split.
  { rewrite expand_lowered. unfold e. cbn [Schedules.lowered].
    rewrite length_map.
    destruct (length axes <? length dims)%nat eqn:Hlt; [apply Nat.ltb_lt in Hlt; lia |].
    rewrite (lowered_compute_free infer_type input_map value Hfree).
    rewrite insert_empty. reflexivity. }
  fold acc. cbn [Semantics.exec app run_each]. rewrite Hinit.
  rewrite (run_each_app (Semantics.exec read call)
             (loop_nest _ _) (write_back input_map (inr uid) _)).
  destruct (exec_reduce_nest read call op acc value g Hcombine Hindep axes Hacc dims
              (upd env acc z0) Hdims) as (env1 & Hrun & Hfold & Henv1).
  rewrite Hrun. cbn [fst snd app].
  assert (Hfolded : env1 acc = folded).
  { rewrite Hfold. unfold folded, upd at 2.
    destruct (decide (acc = acc)); [| contradiction].
    apply fold_left_ext_in. intros s idx Hin. apply coords_length in Hin.
    f_equal. apply Hindep. apply bind_axes_agree_but; [lia |].
    intros v _ Hv. unfold upd. destruct (decide (v = acc)); [contradiction | reflexivity]. }
  unfold write_back. destruct (input_map !! inr uid) as [input_var |] eqn:Hin.
  - assert (Hne : acc <> input_var) by congruence.
    cbn [run_each Semantics.exec fst snd app].
    rewrite !Hfinalize, !eval_prod. cbn [Semantics.eval]. rewrite Hfolded.
    assert (Hkeep : upd env1 input_var (fin folded (extent_product dims)) acc = folded).
    { unfold upd. destruct (decide (acc = input_var)); [contradiction | exact Hfolded]. }
    rewrite Hkeep. repeat split.
    intros w Hw. injection Hw as <-. unfold upd.
    destruct (decide (input_var = input_var)); [reflexivity | contradiction].
  - cbn [run_each fst snd]. rewrite Hfinalize, eval_prod. cbn [Semantics.eval].
    rewrite Hfolded. repeat split. intros w Hw. discriminate.
Qed.

Lemma additive_reduce_meaning (read call : Var -> list Z -> Z) (op : ReduceOperation)
    (dtype : DTypeRef) :
  @reduce_meaning Examples.additive_reduce read call op dtype 0 Z.add (fun s _ => s)
    (fun x y => (y <? x)%Z).
Proof.
  repeat split; intros; cbn; try reflexivity.
  destruct (_ <? _)%Z; reflexivity.
Qed.

(** Summing [B[k] = k + 1] over [k < 4] leaves 10 in the accumulator and
    in the supplied storage. *)
Lemma reduce_computes_fold_witness :
  let value := TensorElement (EVar Examples.A_var) [EVar Examples.k] in
  let read := fun (_ : Var) (idx : list Z) => hd 0 idx + 1 in
  let call := fun (_ : Var) (_ : list Z) => 0 in
  exists stmt result,
    @expand Examples.additive_reduce Examples.infer_type Examples.A_out_map
      (ScalarNode 2 "s" Examples.float32
         (Some (ReduceCompute [convert 4] [Examples.k] value Examples.sum)))
    = Ok (stmt, result, {[inr 2%positive := scalar_var "s" Examples.float32]})
    /\ fst (exec read call stmt (fun _ => 0)) (scalar_var "s" Examples.float32) = 10
    /\ fst (exec read call stmt (fun _ => 0)) Examples.out_var = 10.
Proof.
  intros value read call.
  destruct (@reduce_computes_fold Examples.additive_reduce Examples.infer_type
              Examples.A_out_map read call 2%positive "s" Examples.float32 [Examples.k]
              value Examples.sum [4] 0 Z.add (fun s _ => s) (fun x y => (y <? x)%Z)
              (fun _ => 0))
    as (stmt & result & Hexp & Hacc & _ & Hout & _).
  - apply additive_reduce_meaning.
  - reflexivity.
  - reflexivity.
  - cbn. intros Hin. apply list_elem_of_In in Hin. destruct Hin as [Heq | []].
    discriminate Heq.
  - vm_compute. discriminate.
  - intros env1 env2 Hag. cbn. f_equal. f_equal. apply Hag. discriminate.
  - exists stmt, result. split; [exact Hexp |]. split; [exact Hacc |].
    apply Hout. reflexivity.
Defined.

(** ** What the arg-reduction loop computes *)

Lemma accumulator_names_differ (hint : string) : hint +:+ "_idx" <> hint +:+ "_val".
Proof.
  induction hint as [| c hint IH]; cbn; [discriminate |].
  intros Heq. injection Heq as Heq. exact (IH Heq).
Qed.

(** X16: what the statements of an ArgReduce node compute.  For a constant
    extent [n] and a value [f] without compute nodes that reads neither
    accumulator, running the lowered statements leaves in the index
    accumulator, and in the supplied storage of the node when there is one,
    the index kept by comparing [f 0], ..., [f (n - 1)] in turn with the best
    value so far, started from the identity and index 0: an element replaces
    the best only when the comparison holds, so for an empty extent the
    index is 0. *)
Theorem arg_reduce_computes_index `{ReduceInterface} (infer_type : Expr -> ScalarType)
    (input_map : gmap NodeKey Var) (read call : Var -> list Z -> Z)
    uid nm (dt : ScalarType) (n : Z) axis value op index_dtype
    (z0 : Z) (g fin : Z -> Z -> Z) (better : Z -> Z -> bool) (env : Env) :
  let acc_index := scalar_var (nm +:+ "_idx") index_dtype in
  let acc_value := scalar_var (nm +:+ "_val") (infer_type value) in
  let e := ScalarNode uid nm dt
             (Some (ArgReduceCompute (convert n) axis value op index_dtype)) in
  let best :=
    fold_left (arg_step better (fun i => eval read call (upd env axis i) value))
      (range 0 n) (z0, 0) in
  reduce_meaning read call op (ByType (infer_type value)) z0 g fin better ->
  compute_free value = true ->
  axis <> acc_index -> axis <> acc_value ->
  (forall env1 env2, (forall v, v <> acc_index -> v <> acc_value -> env1 v = env2 v) ->
                     eval read call env1 value = eval read call env2 value) ->
  exists stmt,
    expand infer_type input_map e = Ok (stmt, EVar acc_index, {[inr uid := acc_index]})
    /\ fst (exec read call stmt env) acc_index = snd best
    /\ (forall input_var, input_map !! inr uid = Some input_var ->
          fst (exec read call stmt env) input_var = snd best)
    /\ snd (exec read call stmt env) = [].
Proof.
  intros acc_index acc_value e best (Hinit & _ & _ & Hbetter) Hfree Hai Hav Hindep.
  assert (Hne : acc_index <> acc_value).
  { unfold acc_index, acc_value, scalar_var. intros Heq. injection Heq as Heq _.
    exact (accumulator_names_differ nm Heq). }
  eexists. split.
  { rewrite expand_lowered. unfold e. cbn [Schedules.lowered].
    rewrite (lowered_compute_free infer_type input_map value Hfree).
    rewrite insert_empty. reflexivity. }
  fold acc_index acc_value.
  set (f := fun i => eval read call (upd env axis i) value) in *.
  set (body := SeqStmt
                 ([] ++ [IfStmt (arg_combine op value (EVar acc_value))
                           (Some (SeqStmt [AssignStmt acc_value value;
                                           AssignStmt acc_index (EVar axis)]))
                           None])).
  assert (Hiter : forall (ixs : list Z) (env_k : Env),
             (forall v, v <> axis -> v <> acc_index -> v <> acc_value -> env_k v = env v) ->
             exists env',
               run_each (fun i env0 => exec read call body (upd env0 axis i)) ixs env_k
               = (env', [])
               /\ (env' acc_value, env' acc_index)
                  = fold_left (arg_step better f) ixs (env_k acc_value, env_k acc_index)).
  { induction ixs as [| i ixs IHis]; intros env_k Hk.
    - exists env_k. split; reflexivity.
    - cbn [run_each fold_left]. unfold body at 1.
      cbn [app Semantics.exec run_each].
      assert (Hvalue : eval read call (upd env_k axis i) value = f i).
      { unfold f. apply Hindep. intros v Hv1 Hv2. unfold upd.
        destruct (decide (v = axis)); [reflexivity | apply Hk; assumption]. }
      assert (Hcond : negb (eval read call (upd env_k axis i)
                              (arg_combine op value (EVar acc_value)) =? 0)%Z
                      = better (f i) (env_k acc_value)).
      { rewrite Hbetter, Hvalue. cbn [Semantics.eval]. unfold upd.
        destruct (decide (acc_value = axis)) as [Heq | _]; [congruence | reflexivity]. }
      unfold arg_step at 2. cbn [fst]. rewrite <- Hcond.
      destruct (eval read call (upd env_k axis i)
                  (arg_combine op value (EVar acc_value)) =? 0)%Z; cbn [negb].
      + destruct (IHis (upd env_k axis i)) as (env2 & Hrun2 & Hfold2).
        { intros v Hv1 Hv2 Hv3. unfold upd.
          destruct (decide (v = axis)); [contradiction | apply Hk; assumption]. }
        rewrite Hrun2. exists env2. split; [reflexivity |]. rewrite Hfold2.
        f_equal. unfold upd.
        destruct (decide (acc_value = axis)), (decide (acc_index = axis));
          congruence.
      + cbn [Semantics.exec run_each Semantics.eval]. rewrite Hvalue.
        set (env1 := upd (upd (upd env_k axis i) acc_value (f i)) acc_index _).
        destruct (IHis env1) as (env2 & Hrun2 & Hfold2).
        { intros v Hv1 Hv2 Hv3. unfold env1, upd.
          destruct (decide (v = acc_index)); [contradiction |].
          destruct (decide (v = acc_value)); [contradiction |].
          destruct (decide (v = axis)); [contradiction | apply Hk; assumption]. }
        rewrite Hrun2. exists env2. split; [reflexivity |]. rewrite Hfold2.
        f_equal. unfold env1, upd.
        destruct (decide (acc_value = acc_index)) as [Heq | _]; [congruence |].
        destruct (decide (acc_index = acc_index)); [| contradiction].
        destruct (decide (acc_value = acc_value)); [| contradiction].
        destruct (decide (axis = acc_value)); [contradiction |].
        destruct (decide (axis = axis)); [reflexivity | contradiction]. }
  cbn [Semantics.exec app run_each]. rewrite Hinit. cbn [Semantics.eval convert].
  fold body.
  destruct (Hiter (range 0 n) (upd (upd env acc_value z0) acc_index 0))
    as (env1 & Hrun & Hfold).
  { intros v Hv1 Hv2 Hv3. unfold upd.
    destruct (decide (v = acc_index)); [contradiction |].
    destruct (decide (v = acc_value)); [contradiction | reflexivity]. }
  rewrite Hrun.
  assert (Hbest : env1 acc_index = snd best).
  { assert (Hstart : (upd (upd env acc_value z0) acc_index 0 acc_value,
                      upd (upd env acc_value z0) acc_index 0 acc_index) = (z0, 0)).
    { unfold upd.
      destruct (decide (acc_value = acc_index)) as [Heq | _]; [congruence |].
      destruct (decide (acc_index = acc_index)); [| contradiction].
      destruct (decide (acc_value = acc_value)); [reflexivity | contradiction]. }
    rewrite Hstart in Hfold. unfold best. rewrite <- Hfold. reflexivity. }
  unfold write_back. destruct (input_map !! inr uid) as [input_var |] eqn:Hin.
  - cbn [run_each Semantics.exec Semantics.eval fst snd app]. rewrite Hbest.
    split; [| split; [| reflexivity]].
    + unfold upd. destruct (decide (acc_index = input_var)); [reflexivity | exact Hbest].
    + intros w Hw. injection Hw as <-. unfold upd.
      destruct (decide (input_var = input_var)); [reflexivity | contradiction].
  - cbn [run_each fst snd app]. split; [exact Hbest |]. split; [| reflexivity].
    intros w Hw. discriminate.
Qed.

(** The first largest element of [B[k] = k * (3 - k)] over [k < 4]
    (0, 2, 2, 0) is at index 1. *)
Lemma arg_reduce_computes_index_witness :
  let value := TensorElement (EVar Examples.A_var) [EVar Examples.k] in
  let read := fun (_ : Var) (idx : list Z) => hd 0 idx * (3 - hd 0 idx) in
  let call := fun (_ : Var) (_ : list Z) => 0 in
  exists stmt,
    @expand Examples.additive_reduce Examples.infer_type Examples.A_map
      (ScalarNode 3 "m" Examples.float32
         (Some (ArgReduceCompute (convert 4) Examples.k value Examples.max Examples.int64)))
    = Ok (stmt, EVar (scalar_var "m_idx" Examples.int64),
          {[inr 3%positive := scalar_var "m_idx" Examples.int64]})
    /\ fst (exec read call stmt (fun _ => 0)) (scalar_var "m_idx" Examples.int64) = 1.
Proof.
  intros value read call.
  destruct (@arg_reduce_computes_index Examples.additive_reduce Examples.infer_type
              Examples.A_map read call 3%positive "m" Examples.float32 4 Examples.k
              value Examples.max Examples.int64 0 Z.add (fun s _ => s)
              (fun x y => (y <? x)%Z) (fun _ => 0))
    as (stmt & Hexp & Hidx & _).
  - apply additive_reduce_meaning.
  - reflexivity.
  - discriminate.
  - discriminate.
  - intros env1 env2 Hag. cbn. f_equal. f_equal. apply Hag; discriminate.
  - exists stmt. split; [exact Hexp | exact Hidx].
Defined.
